(** * The op-selection parser (OpSelectionParser.ts), embedded in Rocq

    The TypeScript parser is the recursive-descent parser ANTLR generates for
    the grammar OpSelection.g4.  Every rule of the grammar is one method of the
    class [OpSelectionParser]; every method is one function below, under the
    same name.  The token stream is a list of tokens (white space is skipped by
    the lexer and never reaches the parser) and the end of the list is the
    end-of-file token.  A method that returns a context object and advances the
    stream becomes a function that returns the context together with the rest of
    the stream.

    The transitions serialised in [_serializedATN] are those of the grammar
<<
    start                : expr EOF ;
    expr                 : traversalAllowedExpr                      (alternative 1)
                         | traversal traversalAllowedExpr traversal  (alternative 2)
                         | traversal traversalAllowedExpr            (alternative 3)
                         | traversalAllowedExpr traversal            (alternative 4)
                         | NOT expr                                  (alternative 5)
                         | expr AND expr | expr OR expr              (the loop)
                         | STAR                                      (alternative 6) ;
    traversalAllowedExpr : attributeExpr | LPAREN expr RPAREN ;
    traversal            : STAR | PLUS+ ;
    attributeExpr        : NAME COLON value | NAME_SUBSTRING COLON value ;
    value                : QUOTED_STRING | UNQUOTED_STRING ;
>>
    with decisions 0, 1 and 2 in [expr] and decision 4 in [traversal] left to
    [adaptivePredict]. *)

From Stdlib Require Import List ZArith Lia Bool String Arith PeanoNat.
Import ListNotations.
Open Scope Z_scope.

(** ** Tokens *)

Module Lexicon.

(** The token types, [OpSelectionParser.AND] ... [OpSelectionParser.WS]. *)
Inductive TokenType : Type :=
| AND | OR | NOT | STAR | PLUS | COLON | LPAREN | RPAREN
| NAME | NAME_SUBSTRING | QUOTED_STRING | UNQUOTED_STRING | WS.

(** The number the generated parser gives each token type. *)
Definition tokenNumber (t : TokenType) : Z :=
  match t with
  | AND => 1 | OR => 2 | NOT => 3 | STAR => 4 | PLUS => 5 | COLON => 6
  | LPAREN => 7 | RPAREN => 8 | NAME => 9 | NAME_SUBSTRING => 10
  | QUOTED_STRING => 11 | UNQUOTED_STRING => 12 | WS => 13
  end.

Definition tokenTypeEqb (a b : TokenType) : bool := tokenNumber a =? tokenNumber b.

(** A token as the lexer hands it over: its type, its text and the offset of
    its first character in the selection string. *)
Record Token : Type := mkToken {
  ttype : TokenType;
  text : string;
  startIndex : nat
}.

End Lexicon.
Export Lexicon.

(** ** The outcome of a parsing method

    A recognition error raised inside a rule is caught by the rule's [catch]
    block and handed to [_errHandler.reportError]; [match] and [sync] report
    through [recoverInline] and [singleTokenDeletion].  All of them report at
    the token the error was detected at, by a call of the error listener,
    which the caller of the parser installs and which is not among the
    sources.  [SyntaxError t] is the first report of a call: [t] is the
    offending token ([None] is the end-of-file token), and [bind] follows the
    call no further.  That is the whole call when the listener raises: what
    it raises is no [RecognitionException], so every [catch] on the way up
    takes its [else throw re] and no method returns.  When the listener
    returns, the runtime recovers and the call goes on after the report;
    [start_recovering] below is [start] in that case, for the report
    [match(EOF)] makes.  [OutOfFuel] belongs to the embedding only: the mutual
    recursion of the rules is unrolled up to a bound, and [expr_total] below
    shows that the bound [start] uses is never reached. *)

Inductive Result (A : Type) : Type :=
| Ok (a : A)
| SyntaxError (offendingToken : option Token)
| OutOfFuel.

Arguments Ok {A} a.
Arguments SyntaxError {A} offendingToken.
Arguments OutOfFuel {A}.

Definition bind {A B : Type} (r : Result A) (k : A -> Result B) : Result B :=
  match r with
  | Ok a => k a
  | SyntaxError t => SyntaxError t
  | OutOfFuel => OutOfFuel
  end.

Notation "x <- e ;; k" := (bind e (fun x => k))
  (at level 61, e at next level, right associativity).
Notation "' pat <- e ;; k" := (bind e (fun x => match x with pat => k end))
  (at level 61, pat pattern, e at next level, right associativity).

(** The offset a syntax error is reported at. *)
Definition errorPosition {A : Type} (r : Result A) : option nat :=
  match r with
  | SyntaxError (Some t) => Some (startIndex t)
  | _ => None
  end.

Definition isOk {A : Type} (r : Result A) : bool :=
  match r with Ok _ => true | _ => false end.

(** ** Parse trees: the context classes *)

(** [ValueContext]: one terminal, reached through [QUOTED_STRING()] or
    [UNQUOTED_STRING()]. *)
Inductive ValueContext : Type :=
| mkValueContext (terminal : Token).

(** [AttributeExprContext] and its two subclasses. *)
Inductive AttributeExprContext : Type :=
| NameExprContext (name colon : Token) (value : ValueContext)
| NameSubstringExprContext (nameSubstring colon : Token) (value : ValueContext).

(** [TraversalContext]: its children are the terminals the rule matched. *)
Inductive TraversalContext : Type :=
| mkTraversalContext (children : list Token).

(** [ExprContext] with its eight subclasses, and [TraversalAllowedExprContext]
    with its two. *)
Inductive ExprContext : Type :=
| TraversalAllowedExpressionContext (x : TraversalAllowedExprContext)
| UpAndDownTraversalExpressionContext
    (up : TraversalContext) (x : TraversalAllowedExprContext) (down : TraversalContext)
| UpTraversalExpressionContext (up : TraversalContext) (x : TraversalAllowedExprContext)
| DownTraversalExpressionContext (x : TraversalAllowedExprContext) (down : TraversalContext)
| NotExpressionContext (not : Token) (e : ExprContext)
| AndExpressionContext (e0 : ExprContext) (and : Token) (e1 : ExprContext)
| OrExpressionContext (e0 : ExprContext) (or : Token) (e1 : ExprContext)
| AllExpressionContext (star : Token)
with TraversalAllowedExprContext : Type :=
| AttributeExpressionContext (a : AttributeExprContext)
| ParenthesizedExpressionContext (lparen : Token) (e : ExprContext) (rparen : Token).

(** [StartContext]: the expression; the end-of-file terminal has no token in
    the list. *)
Inductive StartContext : Type :=
| mkStartContext (e : ExprContext).

(** [TraversalContext.STAR()]: [tryGetToken(STAR, 0)]. *)
Definition TraversalContext_STAR (c : TraversalContext) : option Token :=
  match c with
  | mkTraversalContext children => find (fun t => tokenTypeEqb (ttype t) STAR) children
  end.

(** [TraversalContext.PLUS()]: [getTokens(PLUS)]. *)
Definition TraversalContext_PLUS (c : TraversalContext) : list Token :=
  match c with
  | mkTraversalContext children => filter (fun t => tokenTypeEqb (ttype t) PLUS) children
  end.

(** [UpAndDownTraversalExpressionContext.traversal(i)]. *)
Definition UpAndDown_traversal (c : ExprContext) (i : nat) : option TraversalContext :=
  match c with
  | UpAndDownTraversalExpressionContext up _ down => nth_error [up; down] i
  | _ => None
  end.

(** [ValueContext.QUOTED_STRING()]: [tryGetToken(QUOTED_STRING, 0)], over the
    one child of the context. *)
Definition ValueContext_QUOTED_STRING (v : ValueContext) : option Token :=
  match v with
  | mkValueContext terminal => find (fun t => tokenTypeEqb (ttype t) QUOTED_STRING) [terminal]
  end.

(** [ValueContext.UNQUOTED_STRING()]: [tryGetToken(UNQUOTED_STRING, 0)]. *)
Definition ValueContext_UNQUOTED_STRING (v : ValueContext) : option Token :=
  match v with
  | mkValueContext terminal => find (fun t => tokenTypeEqb (ttype t) UNQUOTED_STRING) [terminal]
  end.

(** ** The token stream *)

(** [_input.LA(1)]: the type of the next token, [None] at the end of file. *)
Definition LA1 (input : list Token) : option TokenType :=
  match input with
  | t :: _ => Some (ttype t)
  | [] => None
  end.

(** [_input.LT(1)], the token an error is reported at. *)
Definition LT1 (input : list Token) : option Token := hd_error input.

(** [match(ttype)]: consume the next token when it has the type; otherwise
    [recoverInline] reports at the next token. *)
Definition match_ (expected : TokenType) (input : list Token) : Result (Token * list Token) :=
  match input with
  | t :: rest => if tokenTypeEqb (ttype t) expected then Ok (t, rest) else SyntaxError (Some t)
  | [] => SyntaxError None
  end.

(** [match(EOF)]. *)
Definition match_EOF (input : list Token) : Result unit :=
  match input with
  | [] => Ok tt
  | t :: _ => SyntaxError (Some t)
  end.

(** [_errHandler.sync] at a state whose expected tokens are [expecting] and
    from which the rule cannot end (states 30, 48, 56 and 64, the switches of
    [expr], [traversalAllowedExpr], [traversal] and [attributeExpr]): an
    unexpected token is reported where it stands.  At the states from which
    the rule can end (40, 42 and 54) [sync] returns without a report, and at
    states 38 and 52 the prediction before it has already seen an expected
    token; there the call is left out. *)
Definition sync (expecting : list TokenType) (input : list Token) : Result unit :=
  match LA1 input with
  | Some t => if existsb (tokenTypeEqb t) expecting then Ok tt else SyntaxError (LT1 input)
  | None => SyntaxError None
  end.

(** [precpred(_ctx, precedence)]: the precedence is at least the one the
    running invocation of [expr] was entered with, [_p] as
    [_precedenceStack] holds it. *)
Definition precpred (_p precedence : Z) : bool := _p <=? precedence.

(** [_precedenceStack.push(_p)] in [enterRecursionRule]: the stack is an
    [IntegerStack] over an [Int32Array], so what [precpred] reads back is the
    integer [_p] wrapped to 32 bits.  The calls the parser itself makes pass
    0, 3 and 4, which the stack holds as they are; for a call [expr(k)] from
    outside, the [_p] of [expr] below is [toInt32 k]. *)
Definition toInt32 (_p : Z) : Z := (_p + 2147483648) mod 4294967296 - 2147483648.

(** ** The rules without recursion *)

(** [value()]: one token, a quoted or an unquoted string; anything else goes
    to [recoverInline]. *)
Definition value (input : list Token) : Result (ValueContext * list Token) :=
  match input with
  | t :: rest =>
      match ttype t with
      | QUOTED_STRING | UNQUOTED_STRING => Ok (mkValueContext t, rest)
      | _ => SyntaxError (Some t)
      end
  | [] => SyntaxError None
  end.

(** [attributeExpr()]: the switch on [LA(1)] at state 64. *)
Definition attributeExpr (input : list Token) : Result (AttributeExprContext * list Token) :=
  _ <- sync [NAME; NAME_SUBSTRING] input ;;
  match LA1 input with
  | Some NAME =>
      '(name, input) <- match_ NAME input ;;
      '(colon, input) <- match_ COLON input ;;
      '(v, input) <- value input ;;
      Ok (NameExprContext name colon v, input)
  | Some NAME_SUBSTRING =>
      '(nameSubstring, input) <- match_ NAME_SUBSTRING input ;;
      '(colon, input) <- match_ COLON input ;;
      '(v, input) <- value input ;;
      Ok (NameSubstringExprContext nameSubstring colon v, input)
  | _ => SyntaxError (LT1 input)
  end.

(** [adaptivePredict(_input, 4, _ctx)], the exit test of the loop [PLUS+]:
    alternative 1 goes round once more, alternative 2 leaves.  No rule lets a
    [PLUS] follow a traversal, so a [PLUS] ahead always belongs to the run. *)
Definition adaptivePredict_4 (input : list Token) : Z :=
  match LA1 input with
  | Some PLUS => 1
  | _ => 2
  end.

(** The [do ... while] of [traversal()]: [match(PLUS)], then the exit test. *)
Fixpoint traversal_plusLoop (input : list Token) : Result (list Token * list Token) :=
  match input with
  | t :: rest =>
      if tokenTypeEqb (ttype t) PLUS then
        if adaptivePredict_4 rest =? 2 then Ok ([t], rest)
        else '(more, rest') <- traversal_plusLoop rest ;; Ok (t :: more, rest')
      else SyntaxError (Some t)
  | [] => SyntaxError None
  end.

(** [traversal()]: the switch on [LA(1)] at state 56. *)
Definition traversal (input : list Token) : Result (TraversalContext * list Token) :=
  _ <- sync [STAR; PLUS] input ;;
  match LA1 input with
  | Some STAR =>
      '(star, input) <- match_ STAR input ;;
      Ok (mkTraversalContext [star], input)
  | Some PLUS =>
      '(pluses, input) <- traversal_plusLoop input ;;
      Ok (mkTraversalContext pluses, input)
  | _ => SyntaxError (LT1 input)
  end.

(** ** Prediction in [expr]

    [adaptivePredict] belongs to the ANTLR runtime, not to the repository.  It
    runs the grammar on the tokens ahead, without consuming them, until one
    alternative is left; when every alternative has died it raises
    [NoViableAltException] at the token they died at, unless an alternative has
    already reached the end of its rule, which is then the prediction.  The
    functions below are this prediction for the three decisions of [expr]. *)

Definition startsTraversal (la : option TokenType) : bool :=
  match la with
  | Some STAR | Some PLUS => true
  | _ => false
  end.

Definition startsTraversalAllowedExpr (la : option TokenType) : bool :=
  match la with
  | Some NAME | Some NAME_SUBSTRING | Some LPAREN => true
  | _ => false
  end.

(** The tokens after a leading run of [PLUS]. *)
Fixpoint skipPlus (input : list Token) : list Token :=
  match input with
  | t :: rest => if tokenTypeEqb (ttype t) PLUS then skipPlus rest else input
  | [] => []
  end.

(** Decision 0, the six primary alternatives.  [lookahead] runs rule
    [traversalAllowedExpr] on the tokens ahead.  Alternatives 1 and 4 both
    start with a [traversalAllowedExpr] and are told apart by the token after
    it; so are alternatives 2 and 3, after their leading traversal.  A lone
    [STAR] is alternative 6 when no [traversalAllowedExpr] can start after it. *)
Definition adaptivePredict_0
    (lookahead : list Token -> Result (TraversalAllowedExprContext * list Token))
    (input : list Token) : Result Z :=
  match LA1 input with
  | Some NOT => Ok 5
  | Some NAME | Some NAME_SUBSTRING | Some LPAREN =>
      '(_, after) <- lookahead input ;;
      Ok (if startsTraversal (LA1 after) then 4 else 1)
  | Some STAR =>
      if startsTraversalAllowedExpr (LA1 (tl input)) then
        '(_, after) <- lookahead (tl input) ;;
        Ok (if startsTraversal (LA1 after) then 2 else 3)
      else Ok 6
  | Some PLUS =>
      '(_, after) <- lookahead (skipPlus input) ;;
      Ok (if startsTraversal (LA1 after) then 2 else 3)
  | _ => SyntaxError (LT1 input)
  end.

(** Decision 2, the entry of the operator loop: alternative 1 enters the loop,
    alternative 2 leaves [expr].  The loop is entered on an operator whose
    precedence predicate holds. *)
Definition adaptivePredict_2 (_p : Z) (input : list Token) : Z :=
  match LA1 input with
  | Some AND => if precpred _p 3 then 1 else 2
  | Some OR => if precpred _p 2 then 1 else 2
  | _ => 2
  end.

(** Decision 1, the operator inside the loop. *)
Definition adaptivePredict_1 (input : list Token) : Result Z :=
  match LA1 input with
  | Some AND => Ok 1
  | Some OR => Ok 2
  | _ => SyntaxError (LT1 input)
  end.

(** ** The recursive rules

    [expr(_p)] is a switch over the six primary alternatives followed by the
    operator loop.  [expr_primary] is the switch, with the two rules it calls
    as arguments; [expr_loop] is the [while], with [_localctx] the expression
    built so far.  [_p] is the precedence of the invocation as
    [_precedenceStack] holds it, which is all [precpred] reads of it.
    [fuel] bounds the depth of the calls. *)

Definition expr_primary
    (traversalAllowedExpr : list Token -> Result (TraversalAllowedExprContext * list Token))
    (expr : Z -> list Token -> Result (ExprContext * list Token))
    (input : list Token) : Result (ExprContext * list Token) :=
  _ <- sync [NOT; STAR; PLUS; LPAREN; NAME; NAME_SUBSTRING] input ;;
  alt <- adaptivePredict_0 traversalAllowedExpr input ;;
  match alt with
  | 1 =>
      '(x, input) <- traversalAllowedExpr input ;;
      Ok (TraversalAllowedExpressionContext x, input)
  | 2 =>
      '(up, input) <- traversal input ;;
      '(x, input) <- traversalAllowedExpr input ;;
      '(down, input) <- traversal input ;;
      Ok (UpAndDownTraversalExpressionContext up x down, input)
  | 3 =>
      '(up, input) <- traversal input ;;
      '(x, input) <- traversalAllowedExpr input ;;
      Ok (UpTraversalExpressionContext up x, input)
  | 4 =>
      '(x, input) <- traversalAllowedExpr input ;;
      '(down, input) <- traversal input ;;
      Ok (DownTraversalExpressionContext x down, input)
  | 5 =>
      '(not, input) <- match_ NOT input ;;
      '(e, input) <- expr 4 input ;;
      Ok (NotExpressionContext not e, input)
  | 6 =>
      '(star, input) <- match_ STAR input ;;
      Ok (AllExpressionContext star, input)
  | _ => SyntaxError (LT1 input)
  end.

Fixpoint expr (fuel : nat) (_p : Z) (input : list Token) {struct fuel}
  : Result (ExprContext * list Token) :=
  match fuel with
  | O => OutOfFuel
  | S fuel =>
      '(_localctx, input) <- expr_primary (traversalAllowedExpr fuel) (expr fuel) input ;;
      expr_loop fuel _p _localctx input
  end

with expr_loop (fuel : nat) (_p : Z) (_localctx : ExprContext) (input : list Token)
  {struct fuel} : Result (ExprContext * list Token) :=
  match fuel with
  | O => OutOfFuel
  | S fuel =>
      if adaptivePredict_2 _p input =? 1 then
        alt <- adaptivePredict_1 input ;;
        match alt with
        | 1 =>
            if precpred _p 3 then
              '(and, input) <- match_ AND input ;;
              '(e1, input) <- expr fuel 4 input ;;
              expr_loop fuel _p (AndExpressionContext _localctx and e1) input
            else SyntaxError (LT1 input)
        | 2 =>
            if precpred _p 2 then
              '(or, input) <- match_ OR input ;;
              '(e1, input) <- expr fuel 3 input ;;
              expr_loop fuel _p (OrExpressionContext _localctx or e1) input
            else SyntaxError (LT1 input)
        | _ => SyntaxError (LT1 input)
        end
      else Ok (_localctx, input)
  end

with traversalAllowedExpr (fuel : nat) (input : list Token) {struct fuel}
  : Result (TraversalAllowedExprContext * list Token) :=
  match fuel with
  | O => OutOfFuel
  | S fuel =>
      _ <- sync [NAME; NAME_SUBSTRING; LPAREN] input ;;
      match LA1 input with
      | Some NAME | Some NAME_SUBSTRING =>
          '(a, input) <- attributeExpr input ;;
          Ok (AttributeExpressionContext a, input)
      | Some LPAREN =>
          '(lparen, input) <- match_ LPAREN input ;;
          '(e, input) <- expr fuel 0 input ;;
          '(rparen, input) <- match_ RPAREN input ;;
          Ok (ParenthesizedExpressionContext lparen e rparen, input)
      | _ => SyntaxError (LT1 input)
      end
  end.

(** Fuel that is enough for a stream: every second call consumes a token. *)
Definition fuelFor (input : list Token) : nat := (2 * List.length input + 2)%nat.

(** [start()]: an expression at precedence 0, then the end of file.  [Ok] is
    a return of [start] that no report came before; [SyntaxError] is the
    first report. *)
Definition start (input : list Token) : Result StartContext :=
  '(e, input) <- expr (fuelFor input) 0 input ;;
  _ <- match_EOF input ;;
  Ok (mkStartContext e).

(** ** [start] when the error listener returns

    [match(EOF)] on a token [t] that is not the end of file goes to
    [recoverInline].  When [t] is the last token, [singleTokenDeletion] finds
    the end of file behind it, reports [t] through [reportUnwantedToken] and
    skips it, and [match] returns.  Otherwise [recoverInline] throws an
    [InputMismatchException]; the [catch] of [start] stores it in
    [_localctx.exception], reports it at [t] and lets [recover] skip tokens.
    Either way the listener is called once, with [t], and [start] goes on to
    [return _localctx]: the [StartContext] whose [expr()] is the tree
    [expr(0)] has returned. *)

(** The token [match(EOF)] reports, [None] when the end of file stands there
    and nothing is reported. *)
Definition match_EOF_recovering (input : list Token) : option Token := LT1 input.

(** [start()] with a listener that returns: what [return _localctx] hands to
    the caller, and the token [match(EOF)] has reported.  A report that
    [expr(0)] makes is left as the [SyntaxError] it is; how the runtime
    recovers inside [expr] is not embedded. *)
Definition start_recovering (input : list Token) : Result (StartContext * option Token) :=
  '(e, input) <- expr (fuelFor input) 0 input ;;
  Ok (mkStartContext e, match_EOF_recovering input).

(** ** What a parse tree covers *)

(** The tokens under a context, from left to right. *)
Definition yieldValue (v : ValueContext) : list Token :=
  match v with mkValueContext t => [t] end.

Definition yieldAttributeExpr (a : AttributeExprContext) : list Token :=
  match a with
  | NameExprContext name colon v => name :: colon :: yieldValue v
  | NameSubstringExprContext nameSubstring colon v => nameSubstring :: colon :: yieldValue v
  end.

Definition yieldTraversal (t : TraversalContext) : list Token :=
  match t with mkTraversalContext children => children end.

Fixpoint yieldExpr (c : ExprContext) : list Token :=
  match c with
  | TraversalAllowedExpressionContext x => yieldTraversalAllowedExpr x
  | UpAndDownTraversalExpressionContext up x down =>
      yieldTraversal up ++ yieldTraversalAllowedExpr x ++ yieldTraversal down
  | UpTraversalExpressionContext up x => yieldTraversal up ++ yieldTraversalAllowedExpr x
  | DownTraversalExpressionContext x down => yieldTraversalAllowedExpr x ++ yieldTraversal down
  | NotExpressionContext not e => not :: yieldExpr e
  | AndExpressionContext e0 and e1 => yieldExpr e0 ++ and :: yieldExpr e1
  | OrExpressionContext e0 or e1 => yieldExpr e0 ++ or :: yieldExpr e1
  | AllExpressionContext star => [star]
  end

with yieldTraversalAllowedExpr (x : TraversalAllowedExprContext) : list Token :=
  match x with
  | AttributeExpressionContext a => yieldAttributeExpr a
  | ParenthesizedExpressionContext lparen e rparen => lparen :: yieldExpr e ++ [rparen]
  end.

(** ** The trees the parser builds

    [level] is the precedence of the operator at the root: 2 for [or], 3 for
    [and], 4 for the primary alternatives.  A tree is well formed when every
    terminal has the type its place asks for and every operand sits at a level
    its operator admits: the left operand of [and] at 3 or above and its right
    operand at 4, the left operand of [or] anywhere and its right operand at 3
    or above, the operand of [not] at 4. *)

Definition hasType (ty : TokenType) (t : Token) : bool := tokenTypeEqb (ttype t) ty.

Definition wfValue (v : ValueContext) : bool :=
  match v with
  | mkValueContext t => hasType QUOTED_STRING t || hasType UNQUOTED_STRING t
  end.

Definition wfAttributeExpr (a : AttributeExprContext) : bool :=
  match a with
  | NameExprContext name colon v => hasType NAME name && hasType COLON colon && wfValue v
  | NameSubstringExprContext nameSubstring colon v =>
      hasType NAME_SUBSTRING nameSubstring && hasType COLON colon && wfValue v
  end.

(** A traversal is one [STAR] or a run of one or more [PLUS]. *)
Definition wfTraversal (t : TraversalContext) : bool :=
  match t with
  | mkTraversalContext [] => false
  | mkTraversalContext (first :: more) =>
      match more with
      | [] => hasType STAR first || hasType PLUS first
      | _ :: _ => forallb (hasType PLUS) (first :: more)
      end
  end.

Definition level (c : ExprContext) : Z :=
  match c with
  | OrExpressionContext _ _ _ => 2
  | AndExpressionContext _ _ _ => 3
  | _ => 4
  end.

Fixpoint wfExpr (c : ExprContext) : bool :=
  match c with
  | TraversalAllowedExpressionContext x => wfTraversalAllowedExpr x
  | UpAndDownTraversalExpressionContext up x down =>
      wfTraversal up && wfTraversalAllowedExpr x && wfTraversal down
  | UpTraversalExpressionContext up x => wfTraversal up && wfTraversalAllowedExpr x
  | DownTraversalExpressionContext x down => wfTraversalAllowedExpr x && wfTraversal down
  | NotExpressionContext not e => hasType NOT not && wfExpr e && (4 <=? level e)
  | AndExpressionContext e0 and e1 =>
      wfExpr e0 && (3 <=? level e0) && hasType AND and && wfExpr e1 && (4 <=? level e1)
  | OrExpressionContext e0 or e1 =>
      wfExpr e0 && hasType OR or && wfExpr e1 && (3 <=? level e1)
  | AllExpressionContext star => hasType STAR star
  end

with wfTraversalAllowedExpr (x : TraversalAllowedExprContext) : bool :=
  match x with
  | AttributeExpressionContext a => wfAttributeExpr a
  | ParenthesizedExpressionContext lparen e rparen =>
      hasType LPAREN lparen && wfExpr e && hasType RPAREN rparen
  end.

(** A token that extends a primary alternative when it stands right after
    it: a traversal qualifier after a [traversalAllowedExpr], a
    [traversalAllowedExpr] after a [STAR].  Every other token, and the end of
    file, leaves the primary as it is. *)
Definition extendsPrimary (la : option TokenType) : bool :=
  startsTraversal la || startsTraversalAllowedExpr la.

(** The shape of an expression: which alternative of [expr] built its root. *)
Inductive Shape : Type :=
| Untraversed | UpAndDown | Up | Down | Negation | Conjunction | Disjunction | Everything.

Definition shape (c : ExprContext) : Shape :=
  match c with
  | TraversalAllowedExpressionContext _ => Untraversed
  | UpAndDownTraversalExpressionContext _ _ _ => UpAndDown
  | UpTraversalExpressionContext _ _ => Up
  | DownTraversalExpressionContext _ _ => Down
  | NotExpressionContext _ _ => Negation
  | AndExpressionContext _ _ _ => Conjunction
  | OrExpressionContext _ _ _ => Disjunction
  | AllExpressionContext _ => Everything
  end.

Definition isTraversalShape (s : Shape) : bool :=
  match s with
  | Untraversed | UpAndDown | Up | Down => true
  | _ => false
  end.

(** ** The order of the traversal shapes, as the specification words it

    "Up-and-down is checked before up-only, up-only before down-only, and
    down-only before the untraversed alternative": each shape is tried on the
    stream in that order, and the first one that parses is the answer. *)

Definition orElse {A : Type} (first second : Result A) : Result A :=
  match first with
  | Ok a => Ok a
  | _ => second
  end.

Section ShapesInOrder.

Variable traversalAllowedExpr : list Token -> Result (TraversalAllowedExprContext * list Token).

Definition tryUpAndDown (input : list Token) : Result (ExprContext * list Token) :=
  '(up, input) <- traversal input ;;
  '(x, input) <- traversalAllowedExpr input ;;
  '(down, input) <- traversal input ;;
  Ok (UpAndDownTraversalExpressionContext up x down, input).

Definition tryUp (input : list Token) : Result (ExprContext * list Token) :=
  '(up, input) <- traversal input ;;
  '(x, input) <- traversalAllowedExpr input ;;
  Ok (UpTraversalExpressionContext up x, input).

Definition tryDown (input : list Token) : Result (ExprContext * list Token) :=
  '(x, input) <- traversalAllowedExpr input ;;
  '(down, input) <- traversal input ;;
  Ok (DownTraversalExpressionContext x down, input).

Definition tryUntraversed (input : list Token) : Result (ExprContext * list Token) :=
  '(x, input) <- traversalAllowedExpr input ;;
  Ok (TraversalAllowedExpressionContext x, input).

Definition traversalShapeInOrder (input : list Token) : Result (ExprContext * list Token) :=
  orElse (tryUpAndDown input)
    (orElse (tryUp input)
       (orElse (tryDown input) (tryUntraversed input))).

End ShapesInOrder.

(** ** The selection a parse tree denotes *)

(** Modelled from the spec: the depth a traversal qualifier denotes (section 3,
    traversal depth encoding).  The visitor that reads it off a
    [TraversalContext] is not among the sources: [*] is unbounded depth, a run
    of [+] is the number of [+] tokens. *)
Inductive Depth : Type :=
| Unbounded
| Bounded (hops : nat).

(** Modelled from the spec: the depth the visitor, which is not among the
    sources, reads off a [TraversalContext] through its accessors [STAR()]
    and [PLUS()]. *)
Definition traversalDepth (t : TraversalContext) : Depth :=
  match TraversalContext_STAR t with
  | Some _ => Unbounded
  | None => Bounded (List.length (TraversalContext_PLUS t))
  end.

Module AST.

(** Modelled from the spec: the attribute of an [AttributeMatch] (section
    3), one of the two keywords; the class is not among the sources. *)
Inductive AttributeName : Type := NAME | NAME_SUBSTRING.

(** Modelled from the spec: the abstract syntax tree of section 3, one variant
    for each production; the classes that hold it are not among the sources. *)
Inductive t : Type :=
| All
| AttributeMatch (attribute : AttributeName) (value : string)
| Not (operand : t)
| And (left right : t)
| Or (left right : t)
| UpTraversal (depth : Depth) (inner : t)
| DownTraversal (depth : Depth) (inner : t)
| UpAndDownTraversal (upDepth : Depth) (inner : t) (downDepth : Depth)
| Parenthesized (inner : t).

End AST.

(** Modelled from the spec: the value of an attribute match (section 3), the
    text of the value token; the visitor is not among the sources. *)
Definition valueText (v : ValueContext) : string :=
  match v with mkValueContext terminal => text terminal end.

(** Modelled from the spec: the visitor from parse trees to the abstract
    syntax tree of section 3, which is not among the sources.  Each context
    class becomes the variant of its production. *)
Definition visitAttributeExpr (a : AttributeExprContext) : AST.t :=
  match a with
  | NameExprContext _ _ v => AST.AttributeMatch AST.NAME (valueText v)
  | NameSubstringExprContext _ _ v => AST.AttributeMatch AST.NAME_SUBSTRING (valueText v)
  end.

(** Modelled from the spec: the same visitor, on [ExprContext] and
    [TraversalAllowedExprContext]. *)
Fixpoint visitExpr (c : ExprContext) : AST.t :=
  match c with
  | TraversalAllowedExpressionContext x => visitTraversalAllowedExpr x
  | UpAndDownTraversalExpressionContext up x down =>
      AST.UpAndDownTraversal (traversalDepth up) (visitTraversalAllowedExpr x)
        (traversalDepth down)
  | UpTraversalExpressionContext up x =>
      AST.UpTraversal (traversalDepth up) (visitTraversalAllowedExpr x)
  | DownTraversalExpressionContext x down =>
      AST.DownTraversal (traversalDepth down) (visitTraversalAllowedExpr x)
  | NotExpressionContext _ e => AST.Not (visitExpr e)
  | AndExpressionContext e0 _ e1 => AST.And (visitExpr e0) (visitExpr e1)
  | OrExpressionContext e0 _ e1 => AST.Or (visitExpr e0) (visitExpr e1)
  | AllExpressionContext _ => AST.All
  end

with visitTraversalAllowedExpr (x : TraversalAllowedExprContext) : AST.t :=
  match x with
  | AttributeExpressionContext a => visitAttributeExpr a
  | ParenthesizedExpressionContext _ e _ => AST.Parenthesized (visitExpr e)
  end.

(** Modelled from the spec: the same visitor, on [StartContext]. *)
Definition visitStart (s : StartContext) : AST.t :=
  match s with mkStartContext e => visitExpr e end.

(** Modelled from the spec: node identifiers (section 3); the graph is the
    host's and not among the sources. *)
Definition NodeId : Type := string.

(** Modelled from the spec: the graph view of section 6, which is not among
    the sources. *)
Record GraphView : Type := mkGraphView {
  allNodeIds : list NodeId;
  attribute : NodeId -> string -> string;
  upstreamOf : NodeId -> list NodeId;
  downstreamOf : NodeId -> list NodeId
}.

(** Modelled from the spec: the sets of node identifiers the evaluator of
    section 4.3 computes with, as lists without repetition; the evaluator is
    not among the sources. *)
Definition member (n : NodeId) (s : list NodeId) : bool := existsb (String.eqb n) s.

(** Modelled from the spec: set union (section 4.3, [Or]). *)
Definition union (s1 s2 : list NodeId) : list NodeId :=
  s1 ++ filter (fun n => negb (member n s1)) s2.

(** Modelled from the spec: set intersection (section 4.3, [And]). *)
Definition intersection (s1 s2 : list NodeId) : list NodeId :=
  filter (fun n => member n s2) s1.

(** Modelled from the spec: set difference (section 4.3, [Not]). *)
Definition difference (s1 s2 : list NodeId) : list NodeId :=
  filter (fun n => negb (member n s2)) s1.

(** Modelled from the spec: equality of result sets, whatever the order
    (section 4.3). *)
Definition sameSet (s1 s2 : list NodeId) : bool :=
  forallb (fun n => member n s2) s1 && forallb (fun n => member n s1) s2.

(** Modelled from the spec: substring match for [name_substring] (section
    4.3): [needle] occurs in [haystack]. *)
Fixpoint contains (needle haystack : string) : bool :=
  String.prefix needle haystack ||
  match haystack with
  | EmptyString => false
  | String _ rest => contains needle rest
  end.

(** Modelled from the spec: the breadth-first walk of section 4.3, bounded by
    hop count; [visited] keeps a node from entering the frontier twice. *)
Fixpoint walk (neighbours : NodeId -> list NodeId) (hops : nat)
    (frontier visited : list NodeId) : list NodeId :=
  match hops with
  | O => visited
  | S hops =>
      let next := difference (nodup string_dec (flat_map neighbours frontier)) visited in
      match next with
      | [] => visited
      | _ :: _ => walk neighbours hops next (visited ++ next)
      end
  end.

(** Modelled from the spec: the hop bound of a walk (section 4.3).  An
    unbounded walk stops when the frontier is empty, which takes no more
    rounds than the graph has nodes. *)
Definition hopBound (d : Depth) (g : GraphView) : nat :=
  match d with
  | Bounded hops => hops
  | Unbounded => List.length (allNodeIds g)
  end.

(** Modelled from the spec: a traversal anchored at a match set (section
    4.3): the set and what is reachable from it within the depth. *)
Definition traverse (neighbours : NodeId -> list NodeId) (d : Depth) (g : GraphView)
    (anchor : list NodeId) : list NodeId :=
  walk neighbours (hopBound d g) anchor anchor.

(** Modelled from the spec: the evaluator of section 4.3, which is not among
    the sources, one case for each variant of the tree. *)
Fixpoint evaluate (ast : AST.t) (g : GraphView) : list NodeId :=
  match ast with
  | AST.All => allNodeIds g
  | AST.AttributeMatch AST.NAME v =>
      filter (fun n => String.eqb (attribute g n "name") v) (allNodeIds g)
  | AST.AttributeMatch AST.NAME_SUBSTRING v =>
      filter (fun n => contains v (attribute g n "name")) (allNodeIds g)
  | AST.Not x => difference (allNodeIds g) (evaluate x g)
  | AST.And l r => intersection (evaluate l g) (evaluate r g)
  | AST.Or l r => union (evaluate l g) (evaluate r g)
  | AST.UpTraversal d x => traverse (upstreamOf g) d g (evaluate x g)
  | AST.DownTraversal d x => traverse (downstreamOf g) d g (evaluate x g)
  | AST.UpAndDownTraversal du x dd =>
      let anchor := evaluate x g in
      union (traverse (upstreamOf g) du g anchor) (traverse (downstreamOf g) dd g anchor)
  | AST.Parenthesized x => evaluate x g
  end.

(** Modelled from the spec: [parseSelection] of section 6, from the token
    stream on (the lexer and the visitor are not among the sources): the
    abstract syntax tree of the parse, or the syntax error. *)
Definition parseSelection (input : list Token) : Result AST.t :=
  s <- start input ;; Ok (visitStart s).

(** ** The streams of the scenarios *)

Definition token (ty : TokenType) (s : string) (at_ : nat) : Token := mkToken ty s at_.

(** ["+foo+"] *)
Definition plus_foo_plus : list Token :=
  [token PLUS "+" 0; token UNQUOTED_STRING "foo" 1; token PLUS "+" 4].

(** ["+name:foo+"] *)
Definition plus_name_foo_plus : list Token :=
  [token PLUS "+" 0; token NAME "name" 1; token COLON ":" 5;
   token UNQUOTED_STRING "foo" 6; token PLUS "+" 9].

(** ["++name:foo*"] *)
Definition plus_plus_name_foo_star : list Token :=
  [token PLUS "+" 0; token PLUS "+" 1; token NAME "name" 2; token COLON ":" 6;
   token UNQUOTED_STRING "foo" 7; token STAR "*" 10].

(** ["foo* or bar"] *)
Definition foo_star_or_bar : list Token :=
  [token UNQUOTED_STRING "foo" 0; token STAR "*" 3; token OR "or" 5;
   token UNQUOTED_STRING "bar" 8].

(** ["not name:foo+"] *)
Definition not_name_foo_plus : list Token :=
  [token NOT "not" 0; token NAME "name" 4; token COLON ":" 8;
   token UNQUOTED_STRING "foo" 9; token PLUS "+" 12].

(** [name:<s>] with its first character at offset [at_]. *)
Definition nameIs (s : string) (at_ : nat) : TraversalAllowedExprContext :=
  AttributeExpressionContext
    (NameExprContext (token NAME "name" at_) (token COLON ":" (at_ + 4))
       (mkValueContext (token UNQUOTED_STRING s (at_ + 5)))).

(** Modelled from the spec: the chain [a -> foo -> b] of scenario 2 (section
    8): [a] is upstream of [foo], [b] downstream, and the name of a node is
    its identifier. *)
Definition chain : GraphView :=
  {| allNodeIds := ["a"; "foo"; "b"]%string;
     attribute := fun n _ => n;
     upstreamOf := fun n =>
       if String.eqb n "foo" then ["a"%string]
       else if String.eqb n "b" then ["foo"%string] else [];
     downstreamOf := fun n =>
       if String.eqb n "a" then ["foo"%string]
       else if String.eqb n "foo" then ["b"%string] else [] |}.

(** ** Notions the proofs are stated with *)

(** [r'] is [r] with more fuel: the same outcome, unless [r] ran out. *)
Definition refines {A : Type} (r r' : Result A) : Prop := r = OutOfFuel \/ r = r'.

(** [f n] is [r] for every [n] from some bound on. *)
Definition eventually {A : Type} (f : nat -> Result A) (r : Result A) : Prop :=
  exists n0, forall n, (n0 <= n)%nat -> f n = r.

(** The calls an alternative of the primary switch makes when it returns [c]
    and leaves [rest]. *)
Inductive primary_alt
    (f : list Token -> Result (TraversalAllowedExprContext * list Token))
    (g : Z -> list Token -> Result (ExprContext * list Token))
    (input : list Token) (rest : list Token) : Z -> ExprContext -> Prop :=
| alt_untraversed x :
    f input = Ok (x, rest) ->
    primary_alt f g input rest 1 (TraversalAllowedExpressionContext x)
| alt_upAndDown up i1 x i2 down :
    traversal input = Ok (up, i1) -> f i1 = Ok (x, i2) -> traversal i2 = Ok (down, rest) ->
    primary_alt f g input rest 2 (UpAndDownTraversalExpressionContext up x down)
| alt_up up i1 x :
    traversal input = Ok (up, i1) -> f i1 = Ok (x, rest) ->
    primary_alt f g input rest 3 (UpTraversalExpressionContext up x)
| alt_down x i1 down :
    f input = Ok (x, i1) -> traversal i1 = Ok (down, rest) ->
    primary_alt f g input rest 4 (DownTraversalExpressionContext x down)
| alt_not t i1 e :
    match_ NOT input = Ok (t, i1) -> g 4 i1 = Ok (e, rest) ->
    primary_alt f g input rest 5 (NotExpressionContext t e)
| alt_all t :
    match_ STAR input = Ok (t, rest) ->
    primary_alt f g input rest 6 (AllExpressionContext t).

(** A rule is sound when the tree it returns is well formed and covers
    exactly the tokens it consumed; [expr] moreover returns a tree at the
    level it was asked for, and stops where the operator loop leaves. *)
Definition sound_tae (f : list Token -> Result (TraversalAllowedExprContext * list Token)) : Prop :=
  forall i x r, f i = Ok (x, r) ->
    i = yieldTraversalAllowedExpr x ++ r /\ wfTraversalAllowedExpr x = true.

Definition sound_expr (g : Z -> list Token -> Result (ExprContext * list Token)) : Prop :=
  forall p i c r, g p i = Ok (c, r) ->
    i = yieldExpr c ++ r /\ wfExpr c = true /\ Z.min p 4 <= level c /\
    adaptivePredict_2 p r = 2.

(** Completeness, in the form that goes through the operator loop: parsing
    the tokens of [c] and then [rest] ends as the loop does when it has [c] in
    hand and [rest] ahead. *)
Definition complete_expr (c : ExprContext) : Prop :=
  wfExpr c = true ->
  forall p rest r,
    p <= level c -> extendsPrimary (LA1 rest) = false ->
    (LA1 rest = Some AND -> 3 <= level c) ->
    eventually (fun n => expr_loop n p c rest) r ->
    eventually (fun n => expr n p (yieldExpr c ++ rest)) r.

Definition complete_tae (x : TraversalAllowedExprContext) : Prop :=
  wfTraversalAllowedExpr x = true ->
  forall rest,
    eventually (fun n => traversalAllowedExpr n (yieldTraversalAllowedExpr x ++ rest))
               (Ok (x, rest)).

Scheme ExprContext_mutind := Induction for ExprContext Sort Prop
  with TraversalAllowedExprContext_mutind := Induction for TraversalAllowedExprContext Sort Prop.
Combined Scheme context_mutind from ExprContext_mutind, TraversalAllowedExprContext_mutind.

(** ** Notions the further properties are stated with *)

(** *** Flat expressions

    A flat expression is a first operand followed by operators, each with its
    operand.  [groupOperands] is the tree it stands for when [and] binds
    tighter than [or] and both associate to the left: [cur] is the
    conjunction being built, [done] the disjunction to its left together
    with the [or] that closed it. *)

Definition closeOr (done : option (ExprContext * Token)) (cur : ExprContext) : ExprContext :=
  match done with
  | None => cur
  | Some (l, tor) => OrExpressionContext l tor cur
  end.

Fixpoint groupOperands (done : option (ExprContext * Token)) (cur : ExprContext)
    (ops : list (Token * ExprContext)) : ExprContext :=
  match ops with
  | [] => closeOr done cur
  | (t, e) :: more =>
      if hasType AND t then groupOperands done (AndExpressionContext cur t e) more
      else groupOperands (Some (closeOr done cur, t)) e more
  end.

(** The tokens of a flat expression. *)
Definition operandTokens (first : ExprContext) (ops : list (Token * ExprContext)) : list Token :=
  yieldExpr first ++ flat_map (fun op => fst op :: yieldExpr (snd op)) ops.

(** An operator, [and] or [or], with a well-formed primary as operand. *)
Definition wfOperand (op : Token * ExprContext) : bool :=
  (hasType AND (fst op) || hasType OR (fst op)) && wfExpr (snd op) && (4 <=? level (snd op)).

Definition wfDone (done : option (ExprContext * Token)) : bool :=
  match done with
  | None => true
  | Some (l, tor) => wfExpr l && hasType OR tor
  end.

(** *** The trees of the grammar

    A tree is typed when every terminal has the type its place asks for,
    whatever the levels of its operands: a derivation of the grammar as it is
    written, where [expr AND expr] and [expr OR expr] nest in any way. *)

Fixpoint typedExpr (c : ExprContext) : bool :=
  match c with
  | TraversalAllowedExpressionContext x => typedTraversalAllowedExpr x
  | UpAndDownTraversalExpressionContext up x down =>
      wfTraversal up && typedTraversalAllowedExpr x && wfTraversal down
  | UpTraversalExpressionContext up x => wfTraversal up && typedTraversalAllowedExpr x
  | DownTraversalExpressionContext x down => typedTraversalAllowedExpr x && wfTraversal down
  | NotExpressionContext not e => hasType NOT not && typedExpr e
  | AndExpressionContext e0 and e1 => typedExpr e0 && hasType AND and && typedExpr e1
  | OrExpressionContext e0 or e1 => typedExpr e0 && hasType OR or && typedExpr e1
  | AllExpressionContext star => hasType STAR star
  end

with typedTraversalAllowedExpr (x : TraversalAllowedExprContext) : bool :=
  match x with
  | AttributeExpressionContext a => wfAttributeExpr a
  | ParenthesizedExpressionContext lparen e rparen =>
      hasType LPAREN lparen && typedExpr e && hasType RPAREN rparen
  end.

(** *** Parentheses

    [parenDepth input open] scans [input] with [open] parentheses open: the
    number open at the end, or [None] when a [RPAREN] closes nothing. *)
Fixpoint parenDepth (input : list Token) (open : nat) : option nat :=
  match input with
  | [] => Some open
  | t :: rest =>
      match ttype t with
      | LPAREN => parenDepth rest (S open)
      | RPAREN => match open with O => None | S o => parenDepth rest o end
      | _ => parenDepth rest open
      end
  end.

(** *** Where errors are reported

    A rule is local at a stream when its outcome there is settled by the
    tokens it consumed and the one token it looked at: a tree is returned
    again when the tokens left are replaced by others that start with the
    same token, or with a token that continues nothing (the end of file, a
    [RPAREN]); an error at a token is reported again whatever follows that
    token, and becomes an error at the end of file when the stream stops
    before it. *)

Definition quiet (la : option TokenType) : bool :=
  match la with
  | None | Some RPAREN => true
  | _ => false
  end.

Definition okLocal {A : Type} (F : list Token -> Result (A * list Token))
    (input : list Token) : Prop :=
  forall a rest, F input = Ok (a, rest) ->
    exists pre, input = pre ++ rest /\
      forall rest', LA1 rest' = LA1 rest \/ quiet (LA1 rest') = true ->
        F (pre ++ rest') = Ok (a, rest').

Definition errLocal {A : Type} (F : list Token -> Result (A * list Token))
    (input : list Token) : Prop :=
  forall t, F input = SyntaxError (Some t) ->
    exists pre post, input = pre ++ t :: post /\
      (forall post', F (pre ++ t :: post') = SyntaxError (Some t)) /\
      F pre = SyntaxError None.

Definition isLocal {A : Type} (F : list Token -> Result (A * list Token))
    (input : list Token) : Prop :=
  okLocal F input /\ errLocal F input.

(** A rule is completable at a stream when an error at the end of file there
    can be mended by more tokens: some extension of the stream parses,
    whatever quiet token follows it. *)
Definition completable {A : Type} (F : nat -> list Token -> Result (A * list Token))
    (n : nat) (input : list Token) : Prop :=
  F n input = SyntaxError None ->
  exists ext a, forall rest', quiet (LA1 rest') = true ->
    eventually (fun m => F m (input ++ ext ++ rest')) (Ok (a, rest')).

(** [name:x], which completes a stream that stops where an expression is
    due, and the [)] that closes an open parenthesis. *)
Definition anyAttribute : AttributeExprContext :=
  NameExprContext (mkToken NAME "name" 0) (mkToken COLON ":" 0)
    (mkValueContext (mkToken UNQUOTED_STRING "x" 0)).

Definition closing : Token := mkToken RPAREN ")" 0.

(** What the primary switch of [expr] does once its prediction is resolved:
    after a [traversalAllowedExpr] a traversal qualifier is taken when one
    stands there (alternative 4, otherwise alternative 1), and so after a
    leading traversal and its [traversalAllowedExpr] (alternative 2,
    otherwise alternative 3). *)
Definition afterTraversalAllowedExpr (x : TraversalAllowedExprContext) (input : list Token)
  : Result (ExprContext * list Token) :=
  if startsTraversal (LA1 input) then
    '(down, input) <- traversal input ;;
    Ok (DownTraversalExpressionContext x down, input)
  else Ok (TraversalAllowedExpressionContext x, input).

Definition afterLeadingTraversal (up : TraversalContext) (x : TraversalAllowedExprContext)
    (input : list Token) : Result (ExprContext * list Token) :=
  if startsTraversal (LA1 input) then
    '(down, input) <- traversal input ;;
    Ok (UpAndDownTraversalExpressionContext up x down, input)
  else Ok (UpTraversalExpressionContext up x, input).

(** *** Relabelling the tokens

    [f] is applied to every token of a tree, or to the offending token of a
    syntax error. *)

Definition relabelValue (f : Token -> Token) (v : ValueContext) : ValueContext :=
  match v with mkValueContext t => mkValueContext (f t) end.

Definition relabelAttributeExpr (f : Token -> Token) (a : AttributeExprContext)
  : AttributeExprContext :=
  match a with
  | NameExprContext name colon v => NameExprContext (f name) (f colon) (relabelValue f v)
  | NameSubstringExprContext nameSubstring colon v =>
      NameSubstringExprContext (f nameSubstring) (f colon) (relabelValue f v)
  end.

Definition relabelTraversal (f : Token -> Token) (t : TraversalContext) : TraversalContext :=
  match t with mkTraversalContext children => mkTraversalContext (map f children) end.

Fixpoint relabelExpr (f : Token -> Token) (c : ExprContext) : ExprContext :=
  match c with
  | TraversalAllowedExpressionContext x =>
      TraversalAllowedExpressionContext (relabelTraversalAllowedExpr f x)
  | UpAndDownTraversalExpressionContext up x down =>
      UpAndDownTraversalExpressionContext (relabelTraversal f up)
        (relabelTraversalAllowedExpr f x) (relabelTraversal f down)
  | UpTraversalExpressionContext up x =>
      UpTraversalExpressionContext (relabelTraversal f up) (relabelTraversalAllowedExpr f x)
  | DownTraversalExpressionContext x down =>
      DownTraversalExpressionContext (relabelTraversalAllowedExpr f x) (relabelTraversal f down)
  | NotExpressionContext not e => NotExpressionContext (f not) (relabelExpr f e)
  | AndExpressionContext e0 and e1 =>
      AndExpressionContext (relabelExpr f e0) (f and) (relabelExpr f e1)
  | OrExpressionContext e0 or e1 =>
      OrExpressionContext (relabelExpr f e0) (f or) (relabelExpr f e1)
  | AllExpressionContext star => AllExpressionContext (f star)
  end

with relabelTraversalAllowedExpr (f : Token -> Token) (x : TraversalAllowedExprContext)
  : TraversalAllowedExprContext :=
  match x with
  | AttributeExpressionContext a => AttributeExpressionContext (relabelAttributeExpr f a)
  | ParenthesizedExpressionContext lparen e rparen =>
      ParenthesizedExpressionContext (f lparen) (relabelExpr f e) (f rparen)
  end.

Definition relabelStart (f : Token -> Token) (s : StartContext) : StartContext :=
  match s with mkStartContext e => mkStartContext (relabelExpr f e) end.

Definition relabelResult {A : Type} (f : Token -> Token) (h : A -> A) (r : Result A)
  : Result A :=
  match r with
  | Ok a => Ok (h a)
  | SyntaxError t => SyntaxError (option_map f t)
  | OutOfFuel => OutOfFuel
  end.

Definition withRest {A : Type} (f : Token -> Token) (h : A -> A) (a : A * list Token)
  : A * list Token :=
  (h (fst a), map f (snd a)).

(** The token with its type alone: no text, offset 0. *)
Definition typeOnly (t : Token) : Token := mkToken (ttype t) EmptyString 0.

(** *** Tokens that continue an expression

    [continues c la] tells whether a token of type [la] that stands right
    after the tokens of the tree [c] is taken into the expression by
    [expr(0)]: [and] and [or] always are, by the operator loop; any other
    token only by the primary alternative the tokens of [c] end with.  A
    traversal qualifier is taken after a [traversalAllowedExpr] that has none
    behind it; a [PLUS] after a run of [PLUS]; and [NAME], [NAME_SUBSTRING]
    or [LPAREN] after a lone [STAR], which then is a traversal qualifier. *)

Definition traversalGoesOn (down : TraversalContext) (la : option TokenType) : bool :=
  match down, la with
  | mkTraversalContext (first :: _), Some PLUS => hasType PLUS first
  | _, _ => false
  end.

Fixpoint continuesPrimary (c : ExprContext) (la : option TokenType) : bool :=
  match c with
  | TraversalAllowedExpressionContext _ | UpTraversalExpressionContext _ _ => startsTraversal la
  | UpAndDownTraversalExpressionContext _ _ down | DownTraversalExpressionContext _ down =>
      traversalGoesOn down la
  | NotExpressionContext _ e => continuesPrimary e la
  | AndExpressionContext _ _ e1 | OrExpressionContext _ _ e1 => continuesPrimary e1 la
  | AllExpressionContext _ => startsTraversalAllowedExpr la
  end.

Definition continues (c : ExprContext) (la : option TokenType) : bool :=
  match la with
  | Some AND | Some OR => true
  | _ => continuesPrimary c la
  end.

(** Completeness, as [complete_expr] has it, with the exact condition on the
    token that follows. *)
Definition complete_exact (c : ExprContext) : Prop :=
  wfExpr c = true ->
  forall p rest r,
    p <= level c -> continuesPrimary c (LA1 rest) = false ->
    (LA1 rest = Some AND -> 3 <= level c) ->
    eventually (fun n => expr_loop n p c rest) r ->
    eventually (fun n => expr n p (yieldExpr c ++ rest)) r.

(** A tree that takes in a token [t] which continues [c], and the tokens it
    covers after [t]: [name:x] as the operand of an operator, which [and]
    attaches to the last conjunction of [c]; a traversal of [t] alone, or the
    run of [c] with [t] at its end; [t:x] or [t name:x )] after a lone
    [STAR]. *)

Definition anyOperand : ExprContext :=
  TraversalAllowedExpressionContext (AttributeExpressionContext anyAttribute).

Fixpoint attachAnd (c : ExprContext) (t : Token) (e : ExprContext) : ExprContext :=
  match c with
  | OrExpressionContext e0 tor e1 => OrExpressionContext e0 tor (attachAnd e1 t e)
  | _ => AndExpressionContext c t e
  end.

Definition growTraversal (down : TraversalContext) (t : Token) : TraversalContext :=
  match down with mkTraversalContext run => mkTraversalContext (run ++ [t]) end.

Definition afterStar (star t : Token) : ExprContext * list Token :=
  match ttype t with
  | NAME =>
      (UpTraversalExpressionContext (mkTraversalContext [star])
         (AttributeExpressionContext
            (NameExprContext t (mkToken COLON ":" 0)
               (mkValueContext (mkToken UNQUOTED_STRING "x" 0)))),
       [mkToken COLON ":" 0; mkToken UNQUOTED_STRING "x" 0])
  | NAME_SUBSTRING =>
      (UpTraversalExpressionContext (mkTraversalContext [star])
         (AttributeExpressionContext
            (NameSubstringExprContext t (mkToken COLON ":" 0)
               (mkValueContext (mkToken UNQUOTED_STRING "x" 0)))),
       [mkToken COLON ":" 0; mkToken UNQUOTED_STRING "x" 0])
  | _ =>
      (UpTraversalExpressionContext (mkTraversalContext [star])
         (ParenthesizedExpressionContext t anyOperand closing),
       yieldExpr anyOperand ++ [closing])
  end.

Fixpoint extendPrimary (c : ExprContext) (t : Token) : ExprContext * list Token :=
  match c with
  | TraversalAllowedExpressionContext x =>
      (DownTraversalExpressionContext x (mkTraversalContext [t]), [])
  | UpTraversalExpressionContext up x =>
      (UpAndDownTraversalExpressionContext up x (mkTraversalContext [t]), [])
  | DownTraversalExpressionContext x down =>
      (DownTraversalExpressionContext x (growTraversal down t), [])
  | UpAndDownTraversalExpressionContext up x down =>
      (UpAndDownTraversalExpressionContext up x (growTraversal down t), [])
  | NotExpressionContext tnot e =>
      (NotExpressionContext tnot (fst (extendPrimary e t)), snd (extendPrimary e t))
  | AndExpressionContext e0 tand e1 =>
      (AndExpressionContext e0 tand (fst (extendPrimary e1 t)), snd (extendPrimary e1 t))
  | OrExpressionContext e0 tor e1 =>
      (OrExpressionContext e0 tor (fst (extendPrimary e1 t)), snd (extendPrimary e1 t))
  | AllExpressionContext star => afterStar star t
  end.

Definition extend (c : ExprContext) (t : Token) : ExprContext * list Token :=
  match ttype t with
  | AND => (attachAnd c t anyOperand, yieldExpr anyOperand)
  | OR => (OrExpressionContext c t anyOperand, yieldExpr anyOperand)
  | _ => extendPrimary c t
  end.

(** * Proofs *)

(** ** Tokens and the stream *)

Lemma tokenTypeEqb_eq (a b : TokenType) : tokenTypeEqb a b = true <-> a = b.
Proof.
  unfold tokenTypeEqb; split.
  - destruct a, b; simpl; intros H; try reflexivity; discriminate H.
  - intros ->; apply Z.eqb_refl.
Qed.

Lemma hasType_eq (ty : TokenType) (t : Token) : hasType ty t = true <-> ttype t = ty.
Proof. unfold hasType; apply tokenTypeEqb_eq. Qed.

(** *** The loop [PLUS+] *)

Lemma traversal_plusLoop_sound (input run rest : list Token) :
  traversal_plusLoop input = Ok (run, rest) ->
  input = run ++ rest /\ run <> [] /\ forallb (hasType PLUS) run = true /\
  LA1 rest <> Some PLUS /\ rest = skipPlus input.
Proof.
  revert run rest; induction input as [|t input IH]; intros run rest; simpl.
  - discriminate.
  - fold (hasType PLUS t). destruct (hasType PLUS t) eqn:Ht; [|discriminate].
    unfold adaptivePredict_4.
    destruct (LA1 input) as [la|] eqn:Hla.
    + destruct la; simpl;
        try (intros H; injection H as <- <-; simpl; rewrite Ht;
             repeat split; try congruence;
             destruct input as [|u input]; [reflexivity|];
             simpl in Hla; injection Hla as Hla; simpl; unfold tokenTypeEqb; rewrite Hla; reflexivity).
      destruct (traversal_plusLoop input) as [[more rest']| |] eqn:Hrec; simpl; try discriminate.
      intros H; injection H as <- <-.
      destruct (IH more rest' eq_refl) as (-> & Hne & Hall & Hla' & Hskip).
      simpl; rewrite Ht, Hall. repeat split; congruence.
    + simpl. intros H; injection H as <- <-. simpl; rewrite Ht.
      destruct input; [|discriminate]. repeat split; congruence.
Qed.

Lemma skipPlus_id (input : list Token) :
  LA1 input <> Some PLUS -> skipPlus input = input.
Proof.
  destruct input as [|u input]; [reflexivity|]. simpl. intros Hla.
  destruct (tokenTypeEqb (ttype u) PLUS) eqn:E; [|reflexivity].
  apply tokenTypeEqb_eq in E. congruence.
Qed.

Lemma skipPlus_app (run rest : list Token) :
  forallb (hasType PLUS) run = true -> LA1 rest <> Some PLUS ->
  skipPlus (run ++ rest) = rest.
Proof.
  intros Hall Hla; induction run as [|t run IH]; simpl.
  - destruct rest as [|u rest]; [reflexivity|].
    simpl. destruct (tokenTypeEqb (ttype u) PLUS) eqn:E; [|reflexivity].
    apply tokenTypeEqb_eq in E. simpl in Hla. congruence.
  - simpl in Hall. apply andb_prop in Hall as [Ht Hall].
    unfold hasType in Ht; rewrite Ht. auto.
Qed.

Lemma traversal_plusLoop_complete (run rest : list Token) :
  run <> [] -> forallb (hasType PLUS) run = true -> LA1 rest <> Some PLUS ->
  traversal_plusLoop (run ++ rest) = Ok (run, rest).
Proof.
  intros Hne Hall Hla; induction run as [|t run IH]; [congruence|].
  simpl in Hall. apply andb_prop in Hall as [Ht Hall].
  simpl. unfold hasType in Ht; rewrite Ht.
  destruct run as [|u run].
  - simpl. unfold adaptivePredict_4.
    destruct (LA1 rest) as [[]|]; simpl; congruence.
  - unfold adaptivePredict_4. simpl LA1.
    simpl in Hall. apply andb_prop in Hall as [Hu Hall].
    pose proof Hu as Hu'. apply hasType_eq in Hu'. rewrite Hu'. simpl Z.eqb. cbv iota.
    rewrite IH; [reflexivity|discriminate|].
    simpl; rewrite Hu, Hall; reflexivity.
Qed.

(** *** Rule [traversal] *)

Lemma startsTraversal_true (la : option TokenType) :
  startsTraversal la = true <-> la = Some STAR \/ la = Some PLUS.
Proof.
  destruct la as [[]|]; simpl; split; intros H; try discriminate; auto;
    destruct H; discriminate.
Qed.

Lemma traversal_sound (input rest : list Token) (t : TraversalContext) :
  traversal input = Ok (t, rest) ->
  input = yieldTraversal t ++ rest /\ wfTraversal t = true /\
  startsTraversal (LA1 input) = true /\
  (LA1 input = Some PLUS -> LA1 rest <> Some PLUS /\ rest = skipPlus input) /\
  (LA1 input = Some STAR -> rest = tl input).
Proof.
  unfold traversal. destruct input as [|u input]; [discriminate|].
  unfold sync. simpl LA1. destruct (ttype u) eqn:Hu; simpl; try discriminate.
  - unfold tokenTypeEqb; rewrite Hu; simpl.
    intros H; injection H as <- <-. simpl.
    unfold hasType, tokenTypeEqb; rewrite Hu. simpl.
    repeat split; try discriminate.
  - fold (hasType PLUS u).
    destruct (hasType PLUS u) eqn:Ht.
    2:{ apply hasType_eq in Hu. congruence. }
    destruct (adaptivePredict_4 input =? 2) eqn:Hp.
    + simpl. intros H; injection H as <- <-. simpl.
      rewrite Ht, orb_true_r.
      assert (Hla : LA1 input <> Some PLUS).
      { unfold adaptivePredict_4 in Hp. destruct (LA1 input) as [[]|]; simpl in Hp; congruence. }
      repeat split; try discriminate; auto.
      symmetry; apply skipPlus_id; exact Hla.
    + destruct (traversal_plusLoop input) as [[more rest']| |] eqn:Hrec; simpl; try discriminate.
      intros H; injection H as <- <-.
      destruct (traversal_plusLoop_sound _ _ _ Hrec) as (-> & Hne & Hall & Hla & Hskip).
      simpl. destruct more as [|m more]; [congruence|].
      rewrite Ht. simpl in Hall |- *. rewrite Hall.
      repeat split; try discriminate; auto.
Qed.

Lemma traversal_STAR (u : Token) (rest : list Token) :
  ttype u = STAR -> traversal (u :: rest) = Ok (mkTraversalContext [u], rest).
Proof. destruct u as [ty txt idx]; simpl; intros ->; reflexivity. Qed.

Lemma traversal_PLUS (u : Token) (rest : list Token) :
  ttype u = PLUS ->
  traversal (u :: rest) =
  '(pluses, input) <- traversal_plusLoop (u :: rest) ;; Ok (mkTraversalContext pluses, input).
Proof. destruct u as [ty txt idx]; simpl; intros ->; reflexivity. Qed.

Lemma traversal_complete (t : TraversalContext) (rest : list Token) :
  wfTraversal t = true -> LA1 rest <> Some PLUS ->
  traversal (yieldTraversal t ++ rest) = Ok (t, rest).
Proof.
  destruct t as [children]. simpl. destruct children as [|u more]; [discriminate|].
  intros Hwf Hla.
  assert (Hrun : ttype u = PLUS -> forallb (hasType PLUS) (u :: more) = true ->
                 traversal ((u :: more) ++ rest) = Ok (mkTraversalContext (u :: more), rest)).
  { intros Hu Hall. simpl app. rewrite traversal_PLUS by exact Hu.
    change (u :: more ++ rest) with ((u :: more) ++ rest).
    rewrite traversal_plusLoop_complete; auto; discriminate. }
  destruct more as [|v more].
  - apply orb_prop in Hwf as [Hs|Hp].
    + apply hasType_eq in Hs. apply traversal_STAR; exact Hs.
    + apply Hrun; [apply hasType_eq; exact Hp | simpl; rewrite Hp; reflexivity].
  - apply Hrun; [|exact Hwf].
    simpl in Hwf. apply andb_prop in Hwf as [Hu _]. apply hasType_eq; exact Hu.
Qed.

Lemma traversal_error (input : list Token) :
  startsTraversal (LA1 input) = false -> traversal input = SyntaxError (LT1 input).
Proof.
  unfold traversal, sync. destruct input as [|u input]; [reflexivity|].
  simpl. destruct (ttype u); simpl; intros H; try reflexivity; discriminate.
Qed.

Lemma traversal_plusLoop_cons (u : Token) (rest : list Token) :
  ttype u = PLUS ->
  traversal_plusLoop (u :: rest) =
  if adaptivePredict_4 rest =? 2 then Ok ([u], rest)
  else '(more, rest') <- traversal_plusLoop rest ;; Ok (u :: more, rest').
Proof. destruct u as [ty txt idx]; simpl; intros ->; reflexivity. Qed.

Lemma traversal_plusLoop_total (rest : list Token) (u : Token) :
  ttype u = PLUS -> exists run rest', traversal_plusLoop (u :: rest) = Ok (run, rest').
Proof.
  revert u; induction rest as [|v rest IH]; intros u Hu;
    rewrite traversal_plusLoop_cons by exact Hu.
  - simpl; eauto.
  - unfold adaptivePredict_4. simpl LA1.
    destruct (ttype v) eqn:Hv; simpl Z.eqb; cbv iota; eauto.
    destruct (IH v Hv) as (run & rest' & E). rewrite E. simpl; eauto.
Qed.

Lemma traversal_total (input : list Token) :
  startsTraversal (LA1 input) = true -> exists t rest, traversal input = Ok (t, rest).
Proof.
  intros H. apply startsTraversal_true in H.
  destruct input as [|u input]; [destruct H; discriminate|].
  simpl in H. destruct H as [H|H]; injection H as H.
  - rewrite traversal_STAR by exact H; eauto.
  - rewrite traversal_PLUS by exact H.
    destruct (traversal_plusLoop_total input u H) as (run & rest' & E).
    rewrite E; simpl; eauto.
Qed.

(** *** Rules [value] and [attributeExpr] *)

Lemma value_sound (input rest : list Token) (v : ValueContext) :
  value input = Ok (v, rest) -> input = yieldValue v ++ rest /\ wfValue v = true.
Proof.
  destruct input as [|[ty txt idx] input]; [discriminate|].
  destruct ty; simpl; try discriminate; intros H; injection H as <- <-; split; reflexivity.
Qed.

Lemma value_complete (v : ValueContext) (rest : list Token) :
  wfValue v = true -> value (yieldValue v ++ rest) = Ok (v, rest).
Proof.
  destruct v as [[ty txt idx]]; unfold wfValue, hasType; simpl.
  destruct ty; simpl; try discriminate; reflexivity.
Qed.

Lemma value_error (input : list Token) :
  LA1 input <> Some QUOTED_STRING -> LA1 input <> Some UNQUOTED_STRING ->
  value input = SyntaxError (LT1 input).
Proof.
  destruct input as [|[ty txt idx] input]; [reflexivity|].
  destruct ty; simpl; congruence.
Qed.

Lemma match_ok (ty : TokenType) (t : Token) (rest : list Token) :
  ttype t = ty -> match_ ty (t :: rest) = Ok (t, rest).
Proof.
  intros <-; unfold match_. replace (tokenTypeEqb (ttype t) (ttype t)) with true; [reflexivity|].
  symmetry; apply tokenTypeEqb_eq; reflexivity.
Qed.

Lemma match_sound (ty : TokenType) (input rest : list Token) (t : Token) :
  match_ ty input = Ok (t, rest) -> input = t :: rest /\ ttype t = ty.
Proof.
  destruct input as [|u input]; [discriminate|]. unfold match_.
  destruct (tokenTypeEqb (ttype u) ty) eqn:E; [|discriminate].
  intros H; injection H as <- <-. apply tokenTypeEqb_eq in E; auto.
Qed.

Lemma attributeExpr_sound (input rest : list Token) (a : AttributeExprContext) :
  attributeExpr input = Ok (a, rest) ->
  input = yieldAttributeExpr a ++ rest /\ wfAttributeExpr a = true.
Proof.
  destruct input as [|[ty txt idx] input]; [discriminate|].
  destruct ty; try discriminate; unfold attributeExpr; simpl;
    (destruct input as [|[ty2 txt2 idx2] input]; [discriminate|]);
    destruct ty2; try discriminate; simpl;
    (destruct (value input) as [[v r]| |] eqn:Hv; try discriminate); simpl;
    intros H; injection H as <- <-;
    destruct (value_sound _ _ _ Hv) as [-> Hwf]; simpl;
    unfold hasType; simpl; rewrite Hwf; split; reflexivity.
Qed.

Lemma attributeExpr_complete (a : AttributeExprContext) (rest : list Token) :
  wfAttributeExpr a = true -> attributeExpr (yieldAttributeExpr a ++ rest) = Ok (a, rest).
Proof.
  destruct a as [[ty txt idx] [ty2 txt2 idx2] v|[ty txt idx] [ty2 txt2 idx2] v];
    unfold wfAttributeExpr, hasType; simpl;
    destruct ty; simpl; try discriminate;
    destruct ty2; simpl; try discriminate; intros Hv;
    unfold attributeExpr; simpl; rewrite value_complete by exact Hv; reflexivity.
Qed.

Lemma yieldAttributeExpr_length (a : AttributeExprContext) :
  List.length (yieldAttributeExpr a) = 3%nat.
Proof. destruct a as [? ? []|? ? []]; reflexivity. Qed.

(** *** The recursive rules, one step unfolded *)

Lemma expr_S (n : nat) (_p : Z) (input : list Token) :
  expr (S n) _p input =
  '(_localctx, input) <- expr_primary (traversalAllowedExpr n) (expr n) input ;;
  expr_loop n _p _localctx input.
Proof. reflexivity. Qed.

Lemma expr_loop_S (n : nat) (_p : Z) (_localctx : ExprContext) (input : list Token) :
  expr_loop (S n) _p _localctx input =
  if adaptivePredict_2 _p input =? 1 then
    alt <- adaptivePredict_1 input ;;
    match alt with
    | 1 =>
        if precpred _p 3 then
          '(and, input) <- match_ AND input ;;
          '(e1, input) <- expr n 4 input ;;
          expr_loop n _p (AndExpressionContext _localctx and e1) input
        else SyntaxError (LT1 input)
    | 2 =>
        if precpred _p 2 then
          '(or, input) <- match_ OR input ;;
          '(e1, input) <- expr n 3 input ;;
          expr_loop n _p (OrExpressionContext _localctx or e1) input
        else SyntaxError (LT1 input)
    | _ => SyntaxError (LT1 input)
    end
  else Ok (_localctx, input).
Proof. reflexivity. Qed.

Lemma traversalAllowedExpr_S (n : nat) (input : list Token) :
  traversalAllowedExpr (S n) input =
  _ <- sync [NAME; NAME_SUBSTRING; LPAREN] input ;;
  match LA1 input with
  | Some NAME | Some NAME_SUBSTRING =>
      '(a, input) <- attributeExpr input ;;
      Ok (AttributeExpressionContext a, input)
  | Some LPAREN =>
      '(lparen, input) <- match_ LPAREN input ;;
      '(e, input) <- expr n 0 input ;;
      '(rparen, input) <- match_ RPAREN input ;;
      Ok (ParenthesizedExpressionContext lparen e rparen, input)
  | _ => SyntaxError (LT1 input)
  end.
Proof. reflexivity. Qed.

Lemma expr_loop_exit (n : nat) (_p : Z) (c : ExprContext) (input : list Token) :
  adaptivePredict_2 _p input = 2 -> expr_loop (S n) _p c input = Ok (c, input).
Proof. intros H; rewrite expr_loop_S, H; reflexivity. Qed.

Lemma expr_loop_AND (n : nat) (_p : Z) (c : ExprContext) (t : Token) (input : list Token) :
  ttype t = AND -> _p <= 3 ->
  expr_loop (S n) _p c (t :: input) =
  '(e1, input) <- expr n 4 input ;; expr_loop n _p (AndExpressionContext c t e1) input.
Proof.
  intros Ht Hp. rewrite expr_loop_S.
  assert (E : precpred _p 3 = true) by (apply Z.leb_le; exact Hp).
  unfold adaptivePredict_2, adaptivePredict_1. simpl LA1. rewrite Ht, E.
  cbn [bind Z.eqb Pos.eqb]. rewrite ?E, (match_ok _ _ _ Ht). reflexivity.
Qed.

Lemma expr_loop_OR (n : nat) (_p : Z) (c : ExprContext) (t : Token) (input : list Token) :
  ttype t = OR -> _p <= 2 ->
  expr_loop (S n) _p c (t :: input) =
  '(e1, input) <- expr n 3 input ;; expr_loop n _p (OrExpressionContext c t e1) input.
Proof.
  intros Ht Hp. rewrite expr_loop_S.
  assert (E : precpred _p 2 = true) by (apply Z.leb_le; exact Hp).
  unfold adaptivePredict_2, adaptivePredict_1. simpl LA1. rewrite Ht, E.
  cbn [bind Z.eqb Pos.eqb]. rewrite ?E, (match_ok _ _ _ Ht). reflexivity.
Qed.

Lemma traversalAllowedExpr_attribute (n : nat) (input : list Token) :
  LA1 input = Some NAME \/ LA1 input = Some NAME_SUBSTRING ->
  traversalAllowedExpr (S n) input =
  '(a, input) <- attributeExpr input ;; Ok (AttributeExpressionContext a, input).
Proof.
  rewrite traversalAllowedExpr_S. unfold sync.
  intros [H|H]; rewrite H; reflexivity.
Qed.

Lemma traversalAllowedExpr_LPAREN (n : nat) (t : Token) (input : list Token) :
  ttype t = LPAREN ->
  traversalAllowedExpr (S n) (t :: input) =
  '(e, input) <- expr n 0 input ;;
  '(rparen, input) <- match_ RPAREN input ;;
  Ok (ParenthesizedExpressionContext t e rparen, input).
Proof.
  intros Ht. rewrite traversalAllowedExpr_S. unfold sync. simpl LA1. rewrite Ht.
  rewrite match_ok by exact Ht. reflexivity.
Qed.

Lemma traversalAllowedExpr_error (n : nat) (input : list Token) :
  startsTraversalAllowedExpr (LA1 input) = false ->
  traversalAllowedExpr (S n) input = SyntaxError (LT1 input).
Proof.
  rewrite traversalAllowedExpr_S. unfold sync.
  destruct input as [|[ty txt idx] input]; [reflexivity|].
  destruct ty; simpl; intros H; try reflexivity; discriminate.
Qed.

(** *** More fuel never changes an outcome *)

Lemma refines_refl {A : Type} (r : Result A) : refines r r.
Proof. right; reflexivity. Qed.

Lemma bind_mono {A B : Type} (r r' : Result A) (k k' : A -> Result B) :
  refines r r' -> (forall a, refines (k a) (k' a)) -> refines (bind r k) (bind r' k').
Proof.
  intros [->| <-] Hk; [left; reflexivity|].
  destruct r as [a| |]; simpl; [apply Hk|right; reflexivity|left; reflexivity].
Qed.

Ltac mono :=
  repeat first
    [ apply refines_refl
    | assumption
    | apply bind_mono; [|intros ?]
    | match goal with
      | |- refines (match ?x with _ => _ end) (match ?x with _ => _ end) => destruct x
      | |- refines (if ?x then _ else _) (if ?x then _ else _) => destruct x
      | H : forall i, refines (?f i) (?g i) |- refines (?f _) (?g _) => apply H
      | H : forall p i, refines (?f p i) (?g p i) |- refines (?f _ _) (?g _ _) => apply H
      | H : forall p c i, refines (?f p c i) (?g p c i) |- refines (?f _ _ _) (?g _ _ _) => apply H
      end ].

Lemma adaptivePredict_0_mono
    (f g : list Token -> Result (TraversalAllowedExprContext * list Token)) (input : list Token) :
  (forall i, refines (f i) (g i)) ->
  refines (adaptivePredict_0 f input) (adaptivePredict_0 g input).
Proof. intros H; unfold adaptivePredict_0; mono. Qed.

Lemma expr_primary_mono
    (f g : list Token -> Result (TraversalAllowedExprContext * list Token))
    (f' g' : Z -> list Token -> Result (ExprContext * list Token)) (input : list Token) :
  (forall i, refines (f i) (g i)) -> (forall p i, refines (f' p i) (g' p i)) ->
  refines (expr_primary f f' input) (expr_primary g g' input).
Proof.
  intros H H'; unfold expr_primary.
  apply bind_mono; [apply refines_refl|intros _].
  apply bind_mono; [apply adaptivePredict_0_mono; exact H|intros alt].
  mono.
Qed.

Lemma fuel_step (n : nat) :
  (forall p i, refines (expr n p i) (expr (S n) p i)) /\
  (forall p c i, refines (expr_loop n p c i) (expr_loop (S n) p c i)) /\
  (forall i, refines (traversalAllowedExpr n i) (traversalAllowedExpr (S n) i)).
Proof.
  induction n as [|n (IHe & IHl & IHt)].
  - repeat split; intros; left; reflexivity.
  - repeat split; intros.
    + rewrite (expr_S (S n)), (expr_S n).
      apply bind_mono; [apply expr_primary_mono; assumption|intros [c i']; apply IHl].
    + rewrite (expr_loop_S (S n)), (expr_loop_S n). mono.
    + rewrite (traversalAllowedExpr_S (S n)), (traversalAllowedExpr_S n). mono.
Qed.

Lemma fuel_mono (n m : nat) :
  (n <= m)%nat ->
  (forall p i, refines (expr n p i) (expr m p i)) /\
  (forall p c i, refines (expr_loop n p c i) (expr_loop m p c i)) /\
  (forall i, refines (traversalAllowedExpr n i) (traversalAllowedExpr m i)).
Proof.
  induction 1 as [|m Hle (IHe & IHl & IHt)].
  - repeat split; intros; apply refines_refl.
  - destruct (fuel_step m) as (He & Hl & Ht).
    repeat split; intros.
    + destruct (IHe p i) as [E|E]; [left; exact E|rewrite E; apply He].
    + destruct (IHl p c i) as [E|E]; [left; exact E|rewrite E; apply Hl].
    + destruct (IHt i) as [E|E]; [left; exact E|rewrite E; apply Ht].
Qed.

(** *** What a successful call went through *)

Lemma bind_Ok {A B : Type} (r : Result A) (k : A -> Result B) (b : B) :
  bind r k = Ok b -> exists a, r = Ok a /\ k a = Ok b.
Proof. destruct r as [a| |]; simpl; intros H; try discriminate; eauto. Qed.

Ltac bind_inv H :=
  let Ha := fresh "Hcall" in
  apply bind_Ok in H; destruct H as ([? ?] & Ha & H).

Ltac bind_inv1 H a :=
  let Ha := fresh "Hcall" in
  apply bind_Ok in H; destruct H as (a & Ha & H).

Lemma expr_primary_Ok f g (input rest : list Token) (c : ExprContext) :
  expr_primary f g input = Ok (c, rest) ->
  exists alt, adaptivePredict_0 f input = Ok alt /\ primary_alt f g input rest alt c.
Proof.
  unfold expr_primary. intros H.
  bind_inv1 H u. bind_inv1 H alt. exists alt. split; [assumption|].
  destruct alt as [|q|q]; try discriminate H.
  do 3 (try destruct q as [q|q|]; try discriminate H).
  all: repeat bind_inv H; injection H as <- <-; econstructor; eassumption.
Qed.

(** *** Soundness: a returned tree is well formed and covers what was consumed *)

Lemma primary_alt_sound f g (input rest : list Token) (alt : Z) (c : ExprContext) :
  sound_tae f -> sound_expr g ->
  primary_alt f g input rest alt c ->
  input = yieldExpr c ++ rest /\ wfExpr c = true /\ level c = 4.
Proof.
  intros Hf Hg H; destruct H;
    repeat match goal with
      | H : f _ = Ok _ |- _ => apply Hf in H; destruct H as [-> ?]
      | H : g _ _ = Ok _ |- _ => apply Hg in H; destruct H as (-> & ? & ? & ?)
      | H : traversal _ = Ok _ |- _ =>
          apply traversal_sound in H; destruct H as (-> & ? & _)
      | H : match_ _ _ = Ok _ |- _ => apply match_sound in H; destruct H as [-> ?]
      end; simpl; rewrite <- ?app_assoc;
    repeat split; auto;
    repeat (apply andb_true_intro; split); auto;
    try (apply hasType_eq; assumption).
  apply Z.leb_le. simpl in *. lia.
Qed.

Lemma adaptivePredict_2_cases (p : Z) (input : list Token) :
  adaptivePredict_2 p input = 1 \/ adaptivePredict_2 p input = 2.
Proof.
  unfold adaptivePredict_2.
  destruct (LA1 input) as [[]|]; auto; destruct (precpred _ _); auto.
Qed.

Lemma sound_step (n : nat) :
  sound_expr (expr n) /\
  (forall p c i c' r, expr_loop n p c i = Ok (c', r) ->
     wfExpr c = true -> Z.min p 4 <= level c -> (LA1 i = Some AND -> 3 <= level c) ->
     exists mid, yieldExpr c' = yieldExpr c ++ mid /\ i = mid ++ r /\
       wfExpr c' = true /\ Z.min p 4 <= level c' /\ adaptivePredict_2 p r = 2) /\
  sound_tae (traversalAllowedExpr n).
Proof.
  induction n as [|n (IHe & IHl & IHt)].
  - repeat split; intros; discriminate.
  - split; [|split].
    + intros p i c r H. rewrite expr_S in H. bind_inv H.
      apply expr_primary_Ok in Hcall. destruct Hcall as (alt & _ & Halt).
      apply (primary_alt_sound _ _ _ _ _ _ IHt IHe) in Halt.
      destruct Halt as (-> & Hwf & Hlevel).
      apply IHl in H; [|assumption|lia|lia].
      destruct H as (mid & Hy & -> & Hwf' & Hl' & Hx).
      rewrite Hy, <- app_assoc. auto.
    + intros p c i c' r H Hwf Hlevel Hand. rewrite expr_loop_S in H.
      destruct (adaptivePredict_2 p i =? 1) eqn:Hp.
      2:{ injection H as <- <-. exists []. rewrite app_nil_r.
          repeat split; auto.
          destruct (adaptivePredict_2_cases p i) as [E|E]; [rewrite E in Hp; discriminate|exact E]. }
      bind_inv1 H alt. unfold adaptivePredict_1 in Hcall.
      destruct (LA1 i) as [[]|] eqn:Hla; try discriminate Hcall; injection Hcall as <-.
      * destruct (precpred p 3) eqn:Hpp; [|discriminate].
        apply Z.leb_le in Hpp.
        bind_inv H. apply match_sound in Hcall. destruct Hcall as [-> Ht].
        bind_inv H. apply IHe in Hcall. destruct Hcall as (-> & Hwf1 & Hl1 & Hx1).
        apply IHl in H.
        -- destruct H as (mid & Hy & -> & Hwf' & Hl' & Hx).
           exists (t :: yieldExpr e ++ mid).
           rewrite Hy. simpl. rewrite <- !app_assoc. simpl. auto.
        -- simpl. rewrite Hwf, Hwf1. apply hasType_eq in Ht. rewrite Ht.
           replace (3 <=? level c) with true by (symmetry; apply Z.leb_le; auto).
           replace (4 <=? level e) with true by (symmetry; apply Z.leb_le; lia).
           reflexivity.
        -- simpl. lia.
        -- simpl. lia.
      * destruct (precpred p 2) eqn:Hpp; [|discriminate].
        apply Z.leb_le in Hpp.
        bind_inv H. apply match_sound in Hcall. destruct Hcall as [-> Ht].
        bind_inv H. apply IHe in Hcall. destruct Hcall as (-> & Hwf1 & Hl1 & Hx1).
        apply IHl in H.
        -- destruct H as (mid & Hy & -> & Hwf' & Hl' & Hx).
           exists (t :: yieldExpr e ++ mid).
           rewrite Hy. simpl. rewrite <- !app_assoc. simpl. auto.
        -- simpl. rewrite Hwf, Hwf1. apply hasType_eq in Ht. rewrite Ht.
           replace (3 <=? level e) with true by (symmetry; apply Z.leb_le; lia).
           reflexivity.
        -- simpl. lia.
        -- intros Hand'. exfalso.
           unfold adaptivePredict_2 in Hx1. rewrite Hand' in Hx1. discriminate Hx1.
    + intros i x r H. rewrite traversalAllowedExpr_S in H.
      bind_inv1 H u.
      destruct (LA1 i) as [[]|] eqn:Hla; try discriminate H.
      * bind_inv H. apply match_sound in Hcall0. destruct Hcall0 as [-> Ht].
        bind_inv H. apply IHe in Hcall0. destruct Hcall0 as (-> & Hwf1 & _).
        bind_inv H. apply match_sound in Hcall0. destruct Hcall0 as [-> Ht'].
        injection H as <- <-. simpl. rewrite <- app_assoc. simpl.
        split; [reflexivity|].
        apply hasType_eq in Ht, Ht'. rewrite Ht, Ht', Hwf1. reflexivity.
      * bind_inv H. apply attributeExpr_sound in Hcall0. destruct Hcall0 as [-> Hwf].
        injection H as <- <-. auto.
      * bind_inv H. apply attributeExpr_sound in Hcall0. destruct Hcall0 as [-> Hwf].
        injection H as <- <-. auto.
Qed.

Theorem expr_sound (n : nat) : sound_expr (expr n).
Proof. apply sound_step. Qed.

Theorem traversalAllowedExpr_sound (n : nat) : sound_tae (traversalAllowedExpr n).
Proof. apply sound_step. Qed.

(** *** Totality: with [fuelFor] the bound is never reached *)

Lemma bind_fuel {A B : Type} (r : Result A) (k : A -> Result B) :
  r <> OutOfFuel -> (forall a, r = Ok a -> k a <> OutOfFuel) -> bind r k <> OutOfFuel.
Proof. destruct r as [a| |]; simpl; intros H Hk; [apply Hk; reflexivity|discriminate|congruence]. Qed.

Lemma sync_fuel (expecting : list TokenType) (input : list Token) :
  sync expecting input <> OutOfFuel.
Proof. unfold sync; destruct (LA1 input); [destruct (existsb _ _)|]; discriminate. Qed.

Lemma match_fuel (ty : TokenType) (input : list Token) : match_ ty input <> OutOfFuel.
Proof. unfold match_; destruct input; [|destruct (tokenTypeEqb _ _)]; discriminate. Qed.

Lemma value_fuel (input : list Token) : value input <> OutOfFuel.
Proof. unfold value; destruct input as [|[[] ? ?] ?]; discriminate. Qed.

Lemma attributeExpr_fuel (input : list Token) : attributeExpr input <> OutOfFuel.
Proof.
  unfold attributeExpr.
  apply bind_fuel; [apply sync_fuel|intros _ _].
  destruct (LA1 input) as [[]|]; try discriminate;
    (apply bind_fuel; [apply match_fuel|intros [? ?] _]);
    (apply bind_fuel; [apply match_fuel|intros [? ?] _]);
    (apply bind_fuel; [apply value_fuel|intros [? ?] _]); discriminate.
Qed.

Lemma traversal_plusLoop_fuel (input : list Token) : traversal_plusLoop input <> OutOfFuel.
Proof.
  induction input as [|t input IH]; simpl; [discriminate|].
  destruct (tokenTypeEqb _ _); [|discriminate].
  destruct (_ =? _); [discriminate|].
  apply bind_fuel; [exact IH|intros [? ?] _; discriminate].
Qed.

Lemma traversal_fuel (input : list Token) : traversal input <> OutOfFuel.
Proof.
  unfold traversal. apply bind_fuel; [apply sync_fuel|intros _ _].
  destruct (LA1 input) as [[]|]; try discriminate.
  - apply bind_fuel; [apply match_fuel|intros [? ?] _; discriminate].
  - apply bind_fuel; [apply traversal_plusLoop_fuel|intros [? ?] _; discriminate].
Qed.

Lemma skipPlus_length (input : list Token) :
  (List.length (skipPlus input) <= List.length input)%nat.
Proof.
  induction input as [|t input IH]; simpl; [lia|].
  destruct (tokenTypeEqb _ _); simpl; lia.
Qed.

Lemma yieldTraversalAllowedExpr_length (x : TraversalAllowedExprContext) :
  (1 <= List.length (yieldTraversalAllowedExpr x))%nat.
Proof. destruct x; simpl; [rewrite yieldAttributeExpr_length|]; lia. Qed.

Lemma yieldExpr_length (c : ExprContext) : (1 <= List.length (yieldExpr c))%nat.
Proof.
  destruct c; simpl; rewrite ?length_app; simpl;
    try pose proof (yieldTraversalAllowedExpr_length x); lia.
Qed.

Lemma sound_expr_length g p (i r : list Token) c :
  sound_expr g -> g p i = Ok (c, r) -> (List.length r < List.length i)%nat.
Proof.
  intros Hg H. apply Hg in H. destruct H as [-> _]. rewrite length_app.
  pose proof (yieldExpr_length c). lia.
Qed.

Lemma traversal_length (i r : list Token) t :
  traversal i = Ok (t, r) -> (List.length r < List.length i)%nat.
Proof.
  intros H. apply traversal_sound in H. destruct H as (-> & Hwf & _).
  rewrite length_app. destruct t as [[|? ?]]; simpl in *; [discriminate|lia].
Qed.

Lemma match_length ty (i r : list Token) t :
  match_ ty i = Ok (t, r) -> List.length i = S (List.length r).
Proof. intros H; apply match_sound in H; destruct H as [-> _]; reflexivity. Qed.

Lemma adaptivePredict_0_fuel f (input : list Token) :
  (forall i, (List.length i <= List.length input)%nat -> f i <> OutOfFuel) ->
  adaptivePredict_0 f input <> OutOfFuel.
Proof.
  intros Hf. unfold adaptivePredict_0.
  destruct (LA1 input) as [[]|]; try discriminate.
  - destruct (startsTraversalAllowedExpr _); [|discriminate].
    apply bind_fuel; [|intros [? ?] _; discriminate].
    apply Hf. destruct input; simpl; lia.
  - apply bind_fuel; [|intros [? ?] _; discriminate].
    apply Hf, skipPlus_length.
  - apply bind_fuel; [|intros [? ?] _; discriminate]. apply Hf; lia.
  - apply bind_fuel; [|intros [? ?] _; discriminate]. apply Hf; lia.
  - apply bind_fuel; [|intros [? ?] _; discriminate]. apply Hf; lia.
Qed.

Ltac fuel :=
  repeat match goal with
    | |- Ok _ <> OutOfFuel => discriminate
    | |- SyntaxError _ <> OutOfFuel => discriminate
    | |- traversal _ <> OutOfFuel => apply traversal_fuel
    | |- match_ _ _ <> OutOfFuel => apply match_fuel
    | |- sync _ _ <> OutOfFuel => apply sync_fuel
    | |- attributeExpr _ <> OutOfFuel => apply attributeExpr_fuel
    | |- bind _ _ <> OutOfFuel =>
        apply bind_fuel;
        [|let H := fresh "Hc" in
          intros [? ?] H;
          try (apply traversal_length in H); try (apply match_length in H)]
    end.

Lemma expr_primary_fuel f g (input : list Token) :
  sound_tae f ->
  (forall i, (List.length i <= List.length input)%nat -> f i <> OutOfFuel) ->
  (forall i, (List.length i < List.length input)%nat -> g 4 i <> OutOfFuel) ->
  expr_primary f g input <> OutOfFuel.
Proof.
  intros Hs Hf Hg. unfold expr_primary.
  apply bind_fuel; [apply sync_fuel|intros _ _].
  apply bind_fuel; [apply adaptivePredict_0_fuel; exact Hf|intros alt _].
  destruct alt as [|q|q]; try discriminate.
  do 3 (try destruct q as [q|q|]; try discriminate);
    fuel; try (apply Hf; lia); try (apply Hg; lia).
Qed.

Lemma enough_fuel (n : nat) :
  (forall p i, (2 * List.length i + 2 <= n)%nat -> expr n p i <> OutOfFuel) /\
  (forall p c i, (2 * List.length i + 1 <= n)%nat -> expr_loop n p c i <> OutOfFuel) /\
  (forall i, (2 * List.length i + 1 <= n)%nat -> traversalAllowedExpr n i <> OutOfFuel).
Proof.
  induction n as [|n (IHe & IHl & IHt)].
  - repeat split; intros; lia.
  - split; [|split].
    + intros p i Hn. rewrite expr_S.
      apply bind_fuel.
      * apply expr_primary_fuel.
        -- apply traversalAllowedExpr_sound.
        -- intros j Hj. apply IHt. lia.
        -- intros j Hj. apply IHe. lia.
      * intros [c r] H. apply IHl.
        apply expr_primary_Ok in H. destruct H as (alt & _ & H).
        apply (primary_alt_sound _ _ _ _ _ _ (traversalAllowedExpr_sound n) (expr_sound n)) in H.
        destruct H as (-> & _). rewrite length_app in Hn.
        pose proof (yieldExpr_length c). lia.
    + intros p c i Hn. rewrite expr_loop_S.
      destruct (_ =? 1); [|discriminate].
      apply bind_fuel; [unfold adaptivePredict_1; destruct (LA1 i) as [[]|]; discriminate|].
      intros alt _.
      destruct alt as [|q|q]; try discriminate.
      do 2 (try destruct q as [q|q|]; try discriminate);
        (destruct (precpred p _); [|discriminate]);
        (apply bind_fuel; [apply match_fuel|intros [t i1] H1]); apply match_length in H1;
        (apply bind_fuel; [apply IHe; lia|intros [e i2] H2]);
        apply (sound_expr_length _ _ _ _ _ (expr_sound n)) in H2;
        apply IHl; lia.
    + intros i Hn. rewrite traversalAllowedExpr_S.
      apply bind_fuel; [apply sync_fuel|intros _ _].
      destruct (LA1 i) as [[]|]; try discriminate.
      * apply bind_fuel; [apply match_fuel|intros [t i1] H1]. apply match_length in H1.
        apply bind_fuel; [apply IHe; lia|intros [e i2] _].
        apply bind_fuel; [apply match_fuel|intros [t' i3] _]. discriminate.
      * apply bind_fuel; [apply attributeExpr_fuel|intros [a i1] _]. discriminate.
      * apply bind_fuel; [apply attributeExpr_fuel|intros [a i1] _]. discriminate.
Qed.

Theorem expr_total (p : Z) (input : list Token) : expr (fuelFor input) p input <> OutOfFuel.
Proof. apply enough_fuel. unfold fuelFor. lia. Qed.

Theorem start_total (input : list Token) : start input <> OutOfFuel.
Proof.
  unfold start. apply bind_fuel; [apply expr_total|intros [e r] _].
  destruct r; discriminate.
Qed.

(** An outcome reached with some fuel is the outcome with [fuelFor]. *)
Lemma expr_fuelFor (n : nat) (p : Z) (input : list Token) (r : Result (ExprContext * list Token)) :
  expr n p input = r -> r <> OutOfFuel -> expr (fuelFor input) p input = r.
Proof.
  intros H Hr. pose proof (expr_total p input) as Ht.
  destruct (Nat.le_ge_cases n (fuelFor input)) as [Hle|Hle].
  - destruct (fuel_mono _ _ Hle) as (He & _). destruct (He p input) as [E|E]; congruence.
  - destruct (fuel_mono _ _ Hle) as (He & _). destruct (He p input) as [E|E]; congruence.
Qed.

(** *** Completeness: the tokens of a well-formed tree parse back to the tree *)

Lemma wfTraversal_cases (t : TraversalContext) :
  wfTraversal t = true ->
  (exists star, t = mkTraversalContext [star] /\ ttype star = STAR) \/
  (exists plus more, t = mkTraversalContext (plus :: more) /\ ttype plus = PLUS /\
     forallb (hasType PLUS) (plus :: more) = true).
Proof.
  destruct t as [[|u more]]; simpl; [discriminate|].
  destruct more as [|v more].
  - intros H. apply orb_prop in H as [H|H]; apply hasType_eq in H.
    + left; eauto.
    + right. exists u, []. simpl. apply hasType_eq in H. rewrite H.
      apply hasType_eq in H. auto.
  - intros H. right. exists u, (v :: more). repeat split; [|exact H].
    simpl in H. apply andb_prop in H as [H _]. apply hasType_eq; exact H.
Qed.

Lemma wfTraversalAllowedExpr_LA1 (x : TraversalAllowedExprContext) (rest : list Token) :
  wfTraversalAllowedExpr x = true ->
  startsTraversalAllowedExpr (LA1 (yieldTraversalAllowedExpr x ++ rest)) = true.
Proof.
  destruct x as [[name colon v|name colon v]|lparen e rparen]; simpl;
    intros H; repeat (apply andb_prop in H as [H ?]);
    apply hasType_eq in H; rewrite H; reflexivity.
Qed.

Lemma startsTraversalAllowedExpr_not_traversal (la : option TokenType) :
  startsTraversalAllowedExpr la = true -> startsTraversal la = false /\ la <> Some PLUS.
Proof. destruct la as [[]|]; simpl; intros H; try discriminate; split; congruence. Qed.

Lemma extendsPrimary_false (la : option TokenType) :
  extendsPrimary la = false ->
  startsTraversal la = false /\ startsTraversalAllowedExpr la = false /\ la <> Some PLUS.
Proof. destruct la as [[]|]; simpl; intros H; try discriminate; repeat split; congruence. Qed.

Lemma wfTraversal_LA1 (t : TraversalContext) (rest : list Token) :
  wfTraversal t = true -> startsTraversal (LA1 (yieldTraversal t ++ rest)) = true.
Proof.
  intros H. apply wfTraversal_cases in H.
  destruct H as [(s & -> & Hs)|(p & more & -> & Hp & _)]; simpl; [rewrite Hs|rewrite Hp]; reflexivity.
Qed.

Lemma sync_expr (input : list Token) :
  startsTraversal (LA1 input) = true \/ startsTraversalAllowedExpr (LA1 input) = true \/
  LA1 input = Some NOT ->
  sync [NOT; STAR; PLUS; LPAREN; NAME; NAME_SUBSTRING] input = Ok tt.
Proof.
  unfold sync. destruct (LA1 input) as [[]|]; simpl; intros [H|[H|H]];
    try discriminate; reflexivity.
Qed.

(** Decision 0, case by case. *)

Lemma adaptivePredict_0_NOT f (input : list Token) :
  LA1 input = Some NOT -> adaptivePredict_0 f input = Ok 5.
Proof. intros H; unfold adaptivePredict_0; rewrite H; reflexivity. Qed.

Lemma adaptivePredict_0_tae f (input after : list Token) x :
  startsTraversalAllowedExpr (LA1 input) = true -> f input = Ok (x, after) ->
  adaptivePredict_0 f input = Ok (if startsTraversal (LA1 after) then 4 else 1).
Proof.
  intros H Hf; unfold adaptivePredict_0.
  destruct (LA1 input) as [[]|]; try discriminate H; rewrite Hf; reflexivity.
Qed.

Lemma adaptivePredict_0_STAR_alone f (input : list Token) :
  LA1 input = Some STAR -> startsTraversalAllowedExpr (LA1 (tl input)) = false ->
  adaptivePredict_0 f input = Ok 6.
Proof. intros H H'; unfold adaptivePredict_0; rewrite H, H'; reflexivity. Qed.

Lemma adaptivePredict_0_STAR f (input after : list Token) x :
  LA1 input = Some STAR -> startsTraversalAllowedExpr (LA1 (tl input)) = true ->
  f (tl input) = Ok (x, after) ->
  adaptivePredict_0 f input = Ok (if startsTraversal (LA1 after) then 2 else 3).
Proof. intros H H' Hf; unfold adaptivePredict_0; rewrite H, H', Hf; reflexivity. Qed.

Lemma adaptivePredict_0_PLUS f (input after : list Token) x :
  LA1 input = Some PLUS -> f (skipPlus input) = Ok (x, after) ->
  adaptivePredict_0 f input = Ok (if startsTraversal (LA1 after) then 2 else 3).
Proof. intros H Hf; unfold adaptivePredict_0; rewrite H, Hf; reflexivity. Qed.

Lemma adaptivePredict_0_traversal f (t : TraversalContext) (input after : list Token) x :
  wfTraversal t = true -> startsTraversalAllowedExpr (LA1 input) = true ->
  f input = Ok (x, after) ->
  adaptivePredict_0 f (yieldTraversal t ++ input) =
  Ok (if startsTraversal (LA1 after) then 2 else 3).
Proof.
  intros Hwf Hla Hf. apply wfTraversal_cases in Hwf.
  destruct (startsTraversalAllowedExpr_not_traversal _ Hla) as [_ Hplus].
  destruct Hwf as [(s & -> & Hs)|(p & more & -> & Hp & Hall)]; simpl yieldTraversal.
  - eapply adaptivePredict_0_STAR; simpl; [rewrite Hs; reflexivity|exact Hla|exact Hf].
  - eapply adaptivePredict_0_PLUS; [simpl; rewrite Hp; reflexivity|].
    rewrite skipPlus_app; [exact Hf|exact Hall|exact Hplus].
Qed.

(** The primary alternatives, one lemma for each. *)

Section Primary.

Variable f : list Token -> Result (TraversalAllowedExprContext * list Token).
Variable g : Z -> list Token -> Result (ExprContext * list Token).

Lemma expr_primary_untraversed x (rest : list Token) :
  wfTraversalAllowedExpr x = true -> startsTraversal (LA1 rest) = false ->
  f (yieldTraversalAllowedExpr x ++ rest) = Ok (x, rest) ->
  expr_primary f g (yieldTraversalAllowedExpr x ++ rest) =
  Ok (TraversalAllowedExpressionContext x, rest).
Proof.
  intros Hwf Hrest Hf. unfold expr_primary.
  pose proof (wfTraversalAllowedExpr_LA1 x rest Hwf) as Hla.
  rewrite sync_expr by auto. cbn [bind].
  rewrite (adaptivePredict_0_tae _ _ _ _ Hla Hf), Hrest. cbn [bind].
  rewrite Hf. reflexivity.
Qed.

Lemma expr_primary_down x down (rest : list Token) :
  wfTraversalAllowedExpr x = true -> wfTraversal down = true -> LA1 rest <> Some PLUS ->
  f (yieldTraversalAllowedExpr x ++ yieldTraversal down ++ rest) =
    Ok (x, yieldTraversal down ++ rest) ->
  expr_primary f g (yieldTraversalAllowedExpr x ++ yieldTraversal down ++ rest) =
  Ok (DownTraversalExpressionContext x down, rest).
Proof.
  intros Hwf Hdown Hrest Hf. unfold expr_primary.
  pose proof (wfTraversalAllowedExpr_LA1 x (yieldTraversal down ++ rest) Hwf) as Hla.
  rewrite sync_expr by auto. cbn [bind].
  rewrite (adaptivePredict_0_tae _ _ _ _ Hla Hf), (wfTraversal_LA1 _ _ Hdown). cbn [bind].
  rewrite Hf. cbn [bind]. rewrite traversal_complete by assumption. reflexivity.
Qed.

Lemma expr_primary_up up x (rest : list Token) :
  wfTraversal up = true -> wfTraversalAllowedExpr x = true ->
  startsTraversal (LA1 rest) = false ->
  f (yieldTraversalAllowedExpr x ++ rest) = Ok (x, rest) ->
  expr_primary f g (yieldTraversal up ++ yieldTraversalAllowedExpr x ++ rest) =
  Ok (UpTraversalExpressionContext up x, rest).
Proof.
  intros Hup Hwf Hrest Hf. unfold expr_primary.
  pose proof (wfTraversalAllowedExpr_LA1 x rest Hwf) as Hla.
  destruct (startsTraversalAllowedExpr_not_traversal _ Hla) as [_ Hplus].
  rewrite sync_expr by (left; apply wfTraversal_LA1; exact Hup). cbn [bind].
  rewrite (adaptivePredict_0_traversal _ _ _ _ _ Hup Hla Hf), Hrest. cbn [bind].
  rewrite traversal_complete by assumption. cbn [bind].
  rewrite Hf. reflexivity.
Qed.

Lemma expr_primary_upAndDown up x down (rest : list Token) :
  wfTraversal up = true -> wfTraversalAllowedExpr x = true -> wfTraversal down = true ->
  LA1 rest <> Some PLUS ->
  f (yieldTraversalAllowedExpr x ++ yieldTraversal down ++ rest) =
    Ok (x, yieldTraversal down ++ rest) ->
  expr_primary f g
    (yieldTraversal up ++ yieldTraversalAllowedExpr x ++ yieldTraversal down ++ rest) =
  Ok (UpAndDownTraversalExpressionContext up x down, rest).
Proof.
  intros Hup Hwf Hdown Hrest Hf. unfold expr_primary.
  pose proof (wfTraversalAllowedExpr_LA1 x (yieldTraversal down ++ rest) Hwf) as Hla.
  destruct (startsTraversalAllowedExpr_not_traversal _ Hla) as [_ Hplus].
  rewrite sync_expr by (left; apply wfTraversal_LA1; exact Hup). cbn [bind].
  rewrite (adaptivePredict_0_traversal _ _ _ _ _ Hup Hla Hf), (wfTraversal_LA1 _ _ Hdown).
  cbn [bind].
  rewrite traversal_complete by assumption. cbn [bind].
  rewrite Hf. cbn [bind]. rewrite traversal_complete by assumption. reflexivity.
Qed.

Lemma expr_primary_not (t : Token) e (rest : list Token) :
  ttype t = NOT -> g 4 (yieldExpr e ++ rest) = Ok (e, rest) ->
  expr_primary f g (t :: yieldExpr e ++ rest) = Ok (NotExpressionContext t e, rest).
Proof.
  intros Ht Hg. unfold expr_primary.
  rewrite sync_expr by (simpl; rewrite Ht; auto). cbn [bind].
  rewrite adaptivePredict_0_NOT by (simpl; rewrite Ht; reflexivity). cbn [bind].
  rewrite (match_ok _ _ _ Ht). cbn [bind]. rewrite Hg. reflexivity.
Qed.

Lemma expr_primary_all (t : Token) (rest : list Token) :
  ttype t = STAR -> startsTraversalAllowedExpr (LA1 rest) = false ->
  expr_primary f g (t :: rest) = Ok (AllExpressionContext t, rest).
Proof.
  intros Ht Hrest. unfold expr_primary.
  rewrite sync_expr by (simpl; rewrite Ht; auto). cbn [bind].
  rewrite adaptivePredict_0_STAR_alone by (simpl; try rewrite Ht; auto). cbn [bind].
  rewrite (match_ok _ _ _ Ht). reflexivity.
Qed.

End Primary.

Lemma level_bounds (c : ExprContext) : 2 <= level c <= 4.
Proof. destruct c; simpl; lia. Qed.

Lemma adaptivePredict_2_high (p : Z) (input : list Token) :
  3 < p -> adaptivePredict_2 p input = 2.
Proof.
  intros Hp. unfold adaptivePredict_2, precpred.
  destruct (LA1 input) as [[]|]; try reflexivity.
  - destruct (p <=? 3) eqn:E; [apply Z.leb_le in E; lia|reflexivity].
  - destruct (p <=? 2) eqn:E; [apply Z.leb_le in E; lia|reflexivity].
Qed.

Lemma adaptivePredict_2_exit3 (input : list Token) :
  LA1 input <> Some AND -> adaptivePredict_2 3 input = 2.
Proof.
  intros H. unfold adaptivePredict_2.
  destruct (LA1 input) as [[]|]; try reflexivity. congruence.
Qed.

Lemma eventually_primary (c : ExprContext) (p : Z) (input rest : list Token) r :
  eventually (fun n => expr_primary (traversalAllowedExpr n) (expr n) input) (Ok (c, rest)) ->
  eventually (fun n => expr_loop n p c rest) r ->
  eventually (fun n => expr n p input) r.
Proof.
  intros [n1 H1] [n2 H2]. exists (S (Nat.max n1 n2)). intros n Hn.
  destruct n as [|n]; [lia|]. rewrite expr_S, H1 by lia. cbn [bind]. apply H2. lia.
Qed.

Lemma eventually_operand (c : ExprContext) (p : Z) (rest : list Token) :
  complete_expr c -> wfExpr c = true -> p <= level c ->
  extendsPrimary (LA1 rest) = false -> adaptivePredict_2 p rest = 2 ->
  eventually (fun n => expr n p (yieldExpr c ++ rest)) (Ok (c, rest)).
Proof.
  intros Hc Hwf Hp Hrest Hexit. apply Hc; auto.
  - intros Hand. unfold adaptivePredict_2, precpred in Hexit. rewrite Hand in Hexit.
    destruct (p <=? 3) eqn:E; [discriminate|]. apply Z.leb_gt in E. lia.
  - exists 1%nat. intros n Hn. destruct n as [|n]; [lia|]. apply expr_loop_exit; exact Hexit.
Qed.

Lemma complete_step :
  (forall c, complete_expr c) /\ (forall x, complete_tae x).
Proof.
  apply context_mutind.
  - (* untraversed *)
    intros x IH Hwf p rest r Hp Hrest _ Hloop. simpl in *.
    destruct (extendsPrimary_false _ Hrest) as (Hr1 & Hr2 & Hr3).
    eapply eventually_primary; [|exact Hloop].
    destruct (IH Hwf rest) as [n1 H1]. exists n1. intros n Hn.
    apply expr_primary_untraversed; auto.
  - (* up and down *)
    intros up x IH down Hwf p rest r Hp Hrest _ Hloop. simpl in *.
    apply andb_prop in Hwf as [Hwf Hdown]. apply andb_prop in Hwf as [Hup Hwf].
    destruct (extendsPrimary_false _ Hrest) as (Hr1 & Hr2 & Hr3).
    eapply eventually_primary; [|exact Hloop].
    destruct (IH Hwf (yieldTraversal down ++ rest)) as [n1 H1]. exists n1. intros n Hn.
    rewrite <- !app_assoc. apply expr_primary_upAndDown; auto.
  - (* up *)
    intros up x IH Hwf p rest r Hp Hrest _ Hloop. simpl in *.
    apply andb_prop in Hwf as [Hup Hwf].
    destruct (extendsPrimary_false _ Hrest) as (Hr1 & Hr2 & Hr3).
    eapply eventually_primary; [|exact Hloop].
    destruct (IH Hwf rest) as [n1 H1]. exists n1. intros n Hn.
    rewrite <- !app_assoc. apply expr_primary_up; auto.
  - (* down *)
    intros x IH down Hwf p rest r Hp Hrest _ Hloop. simpl in *.
    apply andb_prop in Hwf as [Hwf Hdown].
    destruct (extendsPrimary_false _ Hrest) as (Hr1 & Hr2 & Hr3).
    eapply eventually_primary; [|exact Hloop].
    destruct (IH Hwf (yieldTraversal down ++ rest)) as [n1 H1]. exists n1. intros n Hn.
    rewrite <- !app_assoc. apply expr_primary_down; auto.
  - (* not *)
    intros t e IH Hwf p rest r Hp Hrest _ Hloop. simpl in *.
    apply andb_prop in Hwf as [Hwf Hlev]. apply andb_prop in Hwf as [Ht Hwf].
    apply hasType_eq in Ht. apply Z.leb_le in Hlev.
    eapply eventually_primary; [|exact Hloop].
    destruct (eventually_operand e 4 rest IH Hwf Hlev Hrest) as [n1 H1];
      [apply adaptivePredict_2_high; lia|].
    exists n1. intros n Hn. apply expr_primary_not; auto.
  - (* and *)
    intros e0 IH0 t e1 IH1 Hwf p rest r Hp Hrest _ Hloop. simpl in *.
    apply andb_prop in Hwf as [Hwf Hlev1]. apply andb_prop in Hwf as [Hwf Hwf1].
    apply andb_prop in Hwf as [Hwf Ht]. apply andb_prop in Hwf as [Hwf0 Hlev0].
    apply hasType_eq in Ht. apply Z.leb_le in Hlev0, Hlev1.
    rewrite <- app_assoc. simpl.
    apply IH0; auto; try lia.
    + simpl. rewrite Ht. reflexivity.
    + destruct (eventually_operand e1 4 rest IH1 Hwf1 Hlev1 Hrest) as [n1 H1];
        [apply adaptivePredict_2_high; lia|].
      destruct Hloop as [n2 H2].
      exists (S (Nat.max n1 n2)). intros n Hn. destruct n as [|n]; [lia|].
      rewrite expr_loop_AND by (auto; lia). rewrite H1 by lia. cbn [bind]. apply H2. lia.
  - (* or *)
    intros e0 IH0 t e1 IH1 Hwf p rest r Hp Hrest Hand Hloop. simpl in *.
    apply andb_prop in Hwf as [Hwf Hlev1]. apply andb_prop in Hwf as [Hwf Hwf1].
    apply andb_prop in Hwf as [Hwf0 Ht].
    apply hasType_eq in Ht. apply Z.leb_le in Hlev1.
    rewrite <- app_assoc. simpl.
    pose proof (level_bounds e0).
    apply IH0; auto; try lia.
    + simpl. rewrite Ht. reflexivity.
    + simpl. rewrite Ht. discriminate.
    + destruct (eventually_operand e1 3 rest IH1 Hwf1 Hlev1 Hrest) as [n1 H1].
      { apply adaptivePredict_2_exit3. intros E. apply Hand in E. lia. }
      destruct Hloop as [n2 H2].
      exists (S (Nat.max n1 n2)). intros n Hn. destruct n as [|n]; [lia|].
      rewrite expr_loop_OR by (auto; lia). rewrite H1 by lia. cbn [bind]. apply H2. lia.
  - (* all *)
    intros t Hwf p rest r Hp Hrest _ Hloop. simpl in *. apply hasType_eq in Hwf.
    destruct (extendsPrimary_false _ Hrest) as (Hr1 & Hr2 & Hr3).
    eapply eventually_primary; [|exact Hloop].
    exists 0%nat. intros n Hn. apply expr_primary_all; auto.
  - (* attribute *)
    intros a Hwf rest. simpl in *. exists 1%nat. intros n Hn. destruct n as [|n]; [lia|].
    rewrite traversalAllowedExpr_attribute.
    + rewrite attributeExpr_complete by exact Hwf. reflexivity.
    + destruct a as [name colon v|name colon v]; simpl in *;
        repeat (apply andb_prop in Hwf as [Hwf ?]); apply hasType_eq in Hwf;
        rewrite Hwf; auto.
  - (* parenthesised *)
    intros l e IH r Hwf rest. simpl in *.
    apply andb_prop in Hwf as [Hwf Hr]. apply andb_prop in Hwf as [Hl Hwf].
    apply hasType_eq in Hl, Hr.
    pose proof (level_bounds e).
    destruct (eventually_operand e 0 (r :: rest) IH Hwf) as [n1 H1]; try lia.
    { simpl. rewrite Hr. reflexivity. }
    { unfold adaptivePredict_2. simpl. rewrite Hr. reflexivity. }
    exists (S n1). intros n Hn. destruct n as [|n]; [lia|].
    rewrite traversalAllowedExpr_LPAREN by exact Hl.
    rewrite <- app_assoc. simpl. rewrite H1 by lia. cbn [bind].
    rewrite (match_ok _ _ _ Hr). reflexivity.
Qed.

Theorem expr_complete (c : ExprContext) (p : Z) (rest : list Token) :
  wfExpr c = true -> p <= level c ->
  extendsPrimary (LA1 rest) = false -> adaptivePredict_2 p rest = 2 ->
  expr (fuelFor (yieldExpr c ++ rest)) p (yieldExpr c ++ rest) = Ok (c, rest).
Proof.
  intros Hwf Hp Hrest Hexit.
  destruct (eventually_operand c p rest (proj1 complete_step c) Hwf Hp Hrest Hexit) as [n H].
  apply (expr_fuelFor n); [apply H; lia|discriminate].
Qed.

Theorem start_complete (c : ExprContext) :
  wfExpr c = true -> start (yieldExpr c) = Ok (mkStartContext c).
Proof.
  intros Hwf. unfold start.
  pose proof (expr_complete c 0 [] Hwf) as H. rewrite app_nil_r in H.
  pose proof (level_bounds c).
  rewrite H; [reflexivity|lia|reflexivity|reflexivity].
Qed.

Theorem start_sound (input : list Token) (c : ExprContext) :
  start input = Ok (mkStartContext c) -> input = yieldExpr c /\ wfExpr c = true.
Proof.
  unfold start. intros H. bind_inv H. apply expr_sound in Hcall.
  destruct Hcall as (-> & Hwf & _).
  destruct l; [|discriminate]. injection H as <-. rewrite app_nil_r. auto.
Qed.

(** *** Completeness, with the token that follows

    The tokens of a well-formed tree parse back to the tree in front of
    every token that does not continue it. *)

Lemma traversal_complete_exact (t : TraversalContext) (rest : list Token) :
  wfTraversal t = true -> traversalGoesOn t (LA1 rest) = false ->
  traversal (yieldTraversal t ++ rest) = Ok (t, rest).
Proof.
  intros Hwf Hgo.
  destruct (wfTraversal_cases _ Hwf) as [(s & -> & Hs)|(p & more & -> & Hp & Hall)].
  - apply traversal_STAR; exact Hs.
  - apply traversal_complete; [exact Hwf|].
    intros E. simpl in Hgo. rewrite E in Hgo.
    apply hasType_eq in Hp. congruence.
Qed.

Section PrimaryExact.

Variable f : list Token -> Result (TraversalAllowedExprContext * list Token).
Variable g : Z -> list Token -> Result (ExprContext * list Token).

Lemma expr_primary_down_exact x down (rest : list Token) :
  wfTraversalAllowedExpr x = true -> wfTraversal down = true ->
  traversalGoesOn down (LA1 rest) = false ->
  f (yieldTraversalAllowedExpr x ++ yieldTraversal down ++ rest) =
    Ok (x, yieldTraversal down ++ rest) ->
  expr_primary f g (yieldTraversalAllowedExpr x ++ yieldTraversal down ++ rest) =
  Ok (DownTraversalExpressionContext x down, rest).
Proof.
  intros Hwf Hdown Hrest Hf. unfold expr_primary.
  pose proof (wfTraversalAllowedExpr_LA1 x (yieldTraversal down ++ rest) Hwf) as Hla.
  rewrite sync_expr by auto. cbn [bind].
  rewrite (adaptivePredict_0_tae _ _ _ _ Hla Hf), (wfTraversal_LA1 _ _ Hdown). cbn [bind].
  rewrite Hf. cbn [bind]. rewrite traversal_complete_exact by assumption. reflexivity.
Qed.

Lemma expr_primary_upAndDown_exact up x down (rest : list Token) :
  wfTraversal up = true -> wfTraversalAllowedExpr x = true -> wfTraversal down = true ->
  traversalGoesOn down (LA1 rest) = false ->
  f (yieldTraversalAllowedExpr x ++ yieldTraversal down ++ rest) =
    Ok (x, yieldTraversal down ++ rest) ->
  expr_primary f g
    (yieldTraversal up ++ yieldTraversalAllowedExpr x ++ yieldTraversal down ++ rest) =
  Ok (UpAndDownTraversalExpressionContext up x down, rest).
Proof.
  intros Hup Hwf Hdown Hrest Hf. unfold expr_primary.
  pose proof (wfTraversalAllowedExpr_LA1 x (yieldTraversal down ++ rest) Hwf) as Hla.
  destruct (startsTraversalAllowedExpr_not_traversal _ Hla) as [_ Hplus].
  rewrite sync_expr by (left; apply wfTraversal_LA1; exact Hup). cbn [bind].
  rewrite (adaptivePredict_0_traversal _ _ _ _ _ Hup Hla Hf), (wfTraversal_LA1 _ _ Hdown).
  cbn [bind].
  rewrite traversal_complete by assumption. cbn [bind].
  rewrite Hf. cbn [bind]. rewrite traversal_complete_exact by assumption. reflexivity.
Qed.

End PrimaryExact.

Lemma eventually_operand_exact (c : ExprContext) (p : Z) (rest : list Token) :
  complete_exact c -> wfExpr c = true -> p <= level c ->
  continuesPrimary c (LA1 rest) = false -> adaptivePredict_2 p rest = 2 ->
  eventually (fun n => expr n p (yieldExpr c ++ rest)) (Ok (c, rest)).
Proof.
  intros Hc Hwf Hp Hrest Hexit. apply Hc; auto.
  - intros Hand. unfold adaptivePredict_2, precpred in Hexit. rewrite Hand in Hexit.
    destruct (p <=? 3) eqn:E; [discriminate|]. apply Z.leb_gt in E. lia.
  - exists 1%nat. intros n Hn. destruct n as [|n]; [lia|]. apply expr_loop_exit; exact Hexit.
Qed.

Lemma complete_exact_all (c : ExprContext) : complete_exact c.
Proof.
  induction c as [x|up x down|up x|x down|t e IH|e0 _ t e1 IH1|e0 _ t e1 IH1|t];
    intros Hwf p rest r Hp Hrest Hand Hloop; simpl in Hwf, Hrest, Hp, Hand |- *.
  - (* untraversed *)
    eapply eventually_primary; [|exact Hloop].
    destruct (proj2 complete_step x Hwf rest) as [n1 H1]. exists n1. intros n Hn.
    apply expr_primary_untraversed; auto.
  - (* up and down *)
    apply andb_prop in Hwf as [Hwf Hdown]. apply andb_prop in Hwf as [Hup Hwf].
    eapply eventually_primary; [|exact Hloop].
    destruct (proj2 complete_step x Hwf (yieldTraversal down ++ rest)) as [n1 H1].
    exists n1. intros n Hn.
    rewrite <- !app_assoc. apply expr_primary_upAndDown_exact; auto.
  - (* up *)
    apply andb_prop in Hwf as [Hup Hwf].
    eapply eventually_primary; [|exact Hloop].
    destruct (proj2 complete_step x Hwf rest) as [n1 H1]. exists n1. intros n Hn.
    rewrite <- !app_assoc. apply expr_primary_up; auto.
  - (* down *)
    apply andb_prop in Hwf as [Hwf Hdown].
    eapply eventually_primary; [|exact Hloop].
    destruct (proj2 complete_step x Hwf (yieldTraversal down ++ rest)) as [n1 H1].
    exists n1. intros n Hn.
    rewrite <- !app_assoc. apply expr_primary_down_exact; auto.
  - (* not *)
    apply andb_prop in Hwf as [Hwf Hlev]. apply andb_prop in Hwf as [Ht Hwf].
    apply hasType_eq in Ht. apply Z.leb_le in Hlev.
    eapply eventually_primary; [|exact Hloop].
    destruct (eventually_operand_exact e 4 rest IH Hwf Hlev Hrest) as [n1 H1];
      [apply adaptivePredict_2_high; lia|].
    exists n1. intros n Hn. apply expr_primary_not; auto.
  - (* and *)
    apply andb_prop in Hwf as [Hwf Hlev1]. apply andb_prop in Hwf as [Hwf Hwf1].
    apply andb_prop in Hwf as [Hwf Ht]. apply andb_prop in Hwf as [Hwf0 Hlev0].
    apply hasType_eq in Ht. apply Z.leb_le in Hlev0, Hlev1.
    rewrite <- app_assoc. simpl.
    apply (proj1 complete_step e0); auto; try lia.
    + simpl. rewrite Ht. reflexivity.
    + destruct (eventually_operand_exact e1 4 rest IH1 Hwf1 Hlev1 Hrest) as [n1 H1];
        [apply adaptivePredict_2_high; lia|].
      destruct Hloop as [n2 H2].
      exists (S (Nat.max n1 n2)). intros n Hn. destruct n as [|n]; [lia|].
      rewrite expr_loop_AND by (auto; lia). rewrite H1 by lia. cbn [bind]. apply H2. lia.
  - (* or *)
    apply andb_prop in Hwf as [Hwf Hlev1]. apply andb_prop in Hwf as [Hwf Hwf1].
    apply andb_prop in Hwf as [Hwf0 Ht].
    apply hasType_eq in Ht. apply Z.leb_le in Hlev1.
    rewrite <- app_assoc. simpl.
    pose proof (level_bounds e0).
    apply (proj1 complete_step e0); auto; try lia.
    + simpl. rewrite Ht. reflexivity.
    + simpl. rewrite Ht. discriminate.
    + destruct (eventually_operand_exact e1 3 rest IH1 Hwf1 Hlev1 Hrest) as [n1 H1].
      { apply adaptivePredict_2_exit3. intros E. apply Hand in E. lia. }
      destruct Hloop as [n2 H2].
      exists (S (Nat.max n1 n2)). intros n Hn. destruct n as [|n]; [lia|].
      rewrite expr_loop_OR by (auto; lia). rewrite H1 by lia. cbn [bind]. apply H2. lia.
  - (* all *)
    apply hasType_eq in Hwf.
    eapply eventually_primary; [|exact Hloop].
    exists 0%nat. intros n Hn. apply expr_primary_all; auto.
Qed.

Lemma expr_complete_exact (c : ExprContext) (p : Z) (rest : list Token) :
  wfExpr c = true -> p <= level c ->
  continuesPrimary c (LA1 rest) = false -> adaptivePredict_2 p rest = 2 ->
  expr (fuelFor (yieldExpr c ++ rest)) p (yieldExpr c ++ rest) = Ok (c, rest).
Proof.
  intros Hwf Hp Hrest Hexit.
  destruct (eventually_operand_exact c p rest (complete_exact_all c) Hwf Hp Hrest Hexit) as [n H].
  apply (expr_fuelFor n); [apply H; lia|discriminate].
Qed.

Lemma continues_false (c : ExprContext) (t : Token) :
  continues c (Some (ttype t)) = false ->
  continuesPrimary c (Some (ttype t)) = false /\ adaptivePredict_2 0 [t] = 2 /\
  ttype t <> AND /\ ttype t <> OR.
Proof.
  unfold continues, adaptivePredict_2. simpl LA1.
  destruct (ttype t); intros H; try discriminate H; repeat split; auto; discriminate.
Qed.

Lemma expr_stops_before (c : ExprContext) (t : Token) (extra : list Token) :
  wfExpr c = true -> continues c (Some (ttype t)) = false ->
  expr (fuelFor (yieldExpr c ++ t :: extra)) 0 (yieldExpr c ++ t :: extra) = Ok (c, t :: extra).
Proof.
  intros Hwf Hc. destruct (continues_false _ _ Hc) as (Hprim & Hexit & _).
  pose proof (level_bounds c).
  apply expr_complete_exact; auto; try lia.
Qed.

(** A token that continues a tree has a continuation that parses. *)

Lemma attachAnd_spec (c : ExprContext) (t : Token) (e : ExprContext) :
  wfExpr c = true -> ttype t = AND -> wfExpr e = true -> level e = 4 ->
  wfExpr (attachAnd c t e) = true /\
  yieldExpr (attachAnd c t e) = yieldExpr c ++ t :: yieldExpr e /\
  (3 <= level c -> level (attachAnd c t e) = 3).
Proof.
  intros Hwf Ht He Hl.
  assert (Hbase : forall c0, wfExpr c0 = true -> 3 <= level c0 ->
            wfExpr (AndExpressionContext c0 t e) = true).
  { intros c0 H0 H1. simpl. rewrite H0, He, Hl. apply hasType_eq in Ht. rewrite Ht.
    replace (3 <=? level c0) with true by (symmetry; apply Z.leb_le; exact H1). reflexivity. }
  induction c as [x|up x down|up x|x down|tn e0|e0 _ ta e1 _|e0 _ tor e1 IH1|s];
    try (split; [apply Hbase; [exact Hwf|simpl; lia]|split; [reflexivity|reflexivity]]).
  simpl in Hwf.
  apply andb_prop in Hwf as [Hwf Hlev1]. apply andb_prop in Hwf as [Hwf Hwf1].
  apply andb_prop in Hwf as [Hwf0 Hor]. apply Z.leb_le in Hlev1.
  destruct (IH1 Hwf1) as (Hw & Hy & Hlv).
  simpl. rewrite Hwf0, Hor, Hw, Hy, (Hlv Hlev1). simpl.
  split; [reflexivity|]. split; [|intros; lia].
  rewrite <- app_assoc. reflexivity.
Qed.

Lemma growTraversal_spec (down : TraversalContext) (t : Token) :
  wfTraversal down = true -> traversalGoesOn down (Some (ttype t)) = true ->
  wfTraversal (growTraversal down t) = true /\
  yieldTraversal (growTraversal down t) = yieldTraversal down ++ [t].
Proof.
  intros Hwf Hgo. split; [|destruct down; reflexivity].
  destruct (wfTraversal_cases _ Hwf) as [(s & -> & Hs)|(p & more & -> & Hp & Hall)];
    simpl in Hgo; destruct (ttype t) eqn:Ht; try discriminate Hgo.
  - apply hasType_eq in Hgo. congruence.
  - assert (Hall' : forallb (hasType PLUS) ((p :: more) ++ [t]) = true).
    { rewrite forallb_app, Hall. simpl. apply hasType_eq in Ht. rewrite Ht. reflexivity. }
    simpl growTraversal. simpl app in Hall' |- *.
    unfold wfTraversal. destruct (more ++ [t]) eqn:E; [|exact Hall'].
    destruct more; discriminate E.
Qed.

Lemma singleTraversal_wf (t : Token) :
  startsTraversal (Some (ttype t)) = true -> wfTraversal (mkTraversalContext [t]) = true.
Proof.
  intros H. apply startsTraversal_true in H. simpl.
  destruct H as [H|H]; injection H as H; apply hasType_eq in H; rewrite H;
    [reflexivity|apply orb_true_r].
Qed.

Lemma afterStar_spec (star t : Token) :
  hasType STAR star = true -> startsTraversalAllowedExpr (Some (ttype t)) = true ->
  wfExpr (fst (afterStar star t)) = true /\ level (fst (afterStar star t)) = 4 /\
  yieldExpr (fst (afterStar star t)) = star :: t :: snd (afterStar star t).
Proof.
  intros Hs Ht. unfold afterStar.
  destruct (ttype t) eqn:E; try discriminate Ht; apply hasType_eq in E;
    simpl; rewrite Hs, E; repeat split; reflexivity.
Qed.

Lemma extendPrimary_spec (c : ExprContext) (t : Token) :
  wfExpr c = true -> continuesPrimary c (Some (ttype t)) = true ->
  wfExpr (fst (extendPrimary c t)) = true /\
  level (fst (extendPrimary c t)) = level c /\
  yieldExpr (fst (extendPrimary c t)) = yieldExpr c ++ t :: snd (extendPrimary c t).
Proof.
  induction c as [x|up x down|up x|x down|tn e IH|e0 _ ta e1 IH1|e0 _ tor e1 IH1|s];
    intros Hwf Hc; simpl in Hwf, Hc.
  - pose proof (singleTraversal_wf _ Hc) as Hs. simpl in Hs.
    simpl. rewrite Hwf, Hs. auto.
  - apply andb_prop in Hwf as [Hwf Hdown]. apply andb_prop in Hwf as [Hup Hwf].
    destruct (growTraversal_spec _ _ Hdown Hc) as [Hw Hy].
    simpl. rewrite Hup, Hwf, Hw, Hy, <- !app_assoc. auto.
  - apply andb_prop in Hwf as [Hup Hwf].
    pose proof (singleTraversal_wf _ Hc) as Hs. simpl in Hs.
    simpl. rewrite Hup, Hwf, Hs, <- !app_assoc. auto.
  - apply andb_prop in Hwf as [Hwf Hdown].
    destruct (growTraversal_spec _ _ Hdown Hc) as [Hw Hy].
    simpl. rewrite Hwf, Hw, Hy, <- !app_assoc. auto.
  - apply andb_prop in Hwf as [Hwf Hlev]. apply andb_prop in Hwf as [Ht Hwf].
    destruct (IH Hwf Hc) as (Hw & Hl & Hy).
    simpl. rewrite Ht, Hw, Hl, Hlev, Hy. auto.
  - apply andb_prop in Hwf as [Hwf Hlev1]. apply andb_prop in Hwf as [Hwf Hwf1].
    destruct (IH1 Hwf1 Hc) as (Hw & Hl & Hy).
    simpl. rewrite Hwf, Hw, Hl, Hlev1, Hy, <- app_assoc. auto.
  - apply andb_prop in Hwf as [Hwf Hlev1]. apply andb_prop in Hwf as [Hwf Hwf1].
    destruct (IH1 Hwf1 Hc) as (Hw & Hl & Hy).
    simpl. rewrite Hwf, Hw, Hl, Hlev1, Hy, <- app_assoc. auto.
  - destruct (afterStar_spec s t Hwf Hc) as (Hw & Hl & Hy).
    simpl. rewrite Hw, Hl, Hy. auto.
Qed.

Lemma extend_spec (c : ExprContext) (t : Token) :
  wfExpr c = true -> continues c (Some (ttype t)) = true ->
  wfExpr (fst (extend c t)) = true /\
  yieldExpr (fst (extend c t)) = yieldExpr c ++ t :: snd (extend c t).
Proof.
  intros Hwf Hc. unfold extend, continues in *.
  destruct (ttype t) eqn:Ht;
    try (destruct (extendPrimary_spec c t Hwf) as (Hw & _ & Hy);
         [rewrite Ht; exact Hc|split; assumption]).
  - destruct (attachAnd_spec c t anyOperand Hwf Ht eq_refl eq_refl) as (Hw & Hy & _).
    split; assumption.
  - simpl. rewrite Hwf. apply hasType_eq in Ht. rewrite Ht. split; reflexivity.
Qed.

Lemma continuation_accepted (c : ExprContext) (t : Token) :
  wfExpr c = true -> continues c (Some (ttype t)) = true ->
  start (yieldExpr c ++ t :: snd (extend c t)) = Ok (mkStartContext (fst (extend c t))).
Proof.
  intros Hwf Hc. destruct (extend_spec c t Hwf Hc) as [Hw Hy].
  rewrite <- Hy. apply start_complete; exact Hw.
Qed.

(** [start] and [start_recovering] on the same stream. *)

Lemma start_recovering_clean (input : list Token) (s : StartContext) :
  start_recovering input = Ok (s, None) <-> start input = Ok s.
Proof.
  unfold start_recovering, start.
  destruct (expr (fuelFor input) 0 input) as [[e rest]| |]; cbn [bind];
    [|split; discriminate|split; discriminate].
  destruct rest as [|t rest]; simpl; split; intros H; try discriminate H;
    injection H as <-; reflexivity.
Qed.

Lemma start_left_over (input : list Token) (c : ExprContext) (t : Token) (rest : list Token) :
  expr (fuelFor input) 0 input = Ok (c, t :: rest) ->
  start input = SyntaxError (Some t) /\
  start_recovering input = Ok (mkStartContext c, Some t).
Proof. intros H. unfold start, start_recovering. rewrite H. split; reflexivity. Qed.

(** ** Facts the claims share *)

(** The accessors of a run of [PLUS]. *)
Lemma find_STAR_in_plus_run (run : list Token) :
  forallb (hasType PLUS) run = true -> find (fun t => tokenTypeEqb (ttype t) STAR) run = None.
Proof.
  induction run as [|t run IH]; simpl; [reflexivity|].
  intros H. apply andb_prop in H as [Ht H]. apply hasType_eq in Ht. rewrite Ht. simpl. auto.
Qed.

Lemma filter_PLUS_in_plus_run (run : list Token) :
  forallb (hasType PLUS) run = true ->
  filter (fun t => tokenTypeEqb (ttype t) PLUS) run = run.
Proof.
  induction run as [|t run IH]; simpl; [reflexivity|].
  intros H. apply andb_prop in H as [Ht H]. unfold hasType in Ht. rewrite Ht, IH; auto.
Qed.

Lemma traversal_accessors (t : TraversalContext) :
  wfTraversal t = true ->
  (exists star, yieldTraversal t = [star] /\ TraversalContext_STAR t = Some star /\
     TraversalContext_PLUS t = []) \/
  (TraversalContext_STAR t = None /\ TraversalContext_PLUS t = yieldTraversal t /\
     (1 <= List.length (TraversalContext_PLUS t))%nat).
Proof.
  intros Hwf. destruct (wfTraversal_cases _ Hwf) as [(s & -> & Hs)|(p & more & -> & Hp & Hall)].
  - left. exists s. simpl. unfold tokenTypeEqb. rewrite Hs. auto.
  - right. unfold TraversalContext_STAR, TraversalContext_PLUS.
    rewrite find_STAR_in_plus_run, filter_PLUS_in_plus_run by exact Hall.
    simpl. repeat split. lia.
Qed.

(** Errors the primary switch reports before any alternative is entered. *)
Lemma expr_primary_sync_error f g (input : list Token) :
  extendsPrimary (LA1 input) = false -> LA1 input <> Some NOT ->
  expr_primary f g input = SyntaxError (LT1 input).
Proof.
  intros H Hnot. unfold expr_primary, sync.
  destruct input as [|[ty txt idx] input]; [reflexivity|].
  destruct ty; simpl in *; try discriminate; try reflexivity. congruence.
Qed.

Lemma expr_primary_plus_error n g (run rest : list Token) :
  run <> [] -> forallb (hasType PLUS) run = true ->
  startsTraversalAllowedExpr (LA1 rest) = false -> LA1 rest <> Some PLUS ->
  expr_primary (traversalAllowedExpr (S n)) g (run ++ rest) = SyntaxError (LT1 rest).
Proof.
  intros Hne Hall Hrest Hplus. unfold expr_primary.
  destruct run as [|p more]; [congruence|].
  assert (Hp : ttype p = PLUS).
  { simpl in Hall. apply andb_prop in Hall as [Hp _]. apply hasType_eq; exact Hp. }
  rewrite sync_expr by (left; simpl; rewrite Hp; reflexivity). cbn [bind].
  unfold adaptivePredict_0. simpl LA1. rewrite Hp.
  rewrite skipPlus_app by assumption.
  rewrite traversalAllowedExpr_error by exact Hrest. reflexivity.
Qed.

(** Well-formedness of a tree put together from well-formed operands. *)
Ltac wf_solve :=
  simpl;
  repeat match goal with
    | H : ttype ?t = _ |- context [hasType _ ?t] =>
        rewrite (proj2 (hasType_eq _ t) H)
    | H : ?b = true |- context [?b] => rewrite H
    | H : level ?c = _ |- context [level ?c] => rewrite H
    | |- context [?a <=? ?b] =>
        replace (a <=? b) with true by (symmetry; apply Z.leb_le; simpl; lia)
    end;
  simpl; try reflexivity.

(** * The claims *)

(** ** C1 *)

(** Claim C1.  Rule [traversal] accepts a stream exactly when it starts with a
    [STAR] or a [PLUS].  On [STAR] it consumes that one token and the depth is
    unbounded; on [PLUS] it consumes the whole run of [PLUS] tokens, one or
    more, the context holds exactly that run, and the depth is the number of
    tokens in the run.  Any other first token, and the end of file, is a syntax
    error reported at that token. *)
Theorem C1_traversal_qualifier (input : list Token) :
  match traversal input with
  | Ok (t, rest) =>
      (exists star, ttype star = STAR /\ input = star :: rest /\
         t = mkTraversalContext [star] /\ traversalDepth t = Unbounded) \/
      (exists run, (1 <= List.length run)%nat /\ forallb (hasType PLUS) run = true /\
         input = run ++ rest /\ LA1 rest <> Some PLUS /\
         t = mkTraversalContext run /\ TraversalContext_PLUS t = run /\
         traversalDepth t = Bounded (List.length run))
  | SyntaxError offending => startsTraversal (LA1 input) = false /\ offending = LT1 input
  | OutOfFuel => False
  end.
Proof.
  destruct (traversal input) as [[t rest]|offending|] eqn:H.
  - destruct (traversal_sound _ _ _ H) as (Hin & Hwf & _ & Hplus & _).
    destruct (wfTraversal_cases _ Hwf) as [(s & -> & Hs)|(p & more & -> & Hp & Hall)].
    + left. exists s. repeat split; auto.
      unfold traversalDepth. simpl. unfold tokenTypeEqb. rewrite Hs. reflexivity.
    + right. exists (p :: more). simpl in Hin.
      assert (Hla : LA1 input = Some PLUS) by (rewrite Hin; simpl; rewrite Hp; reflexivity).
      destruct (Hplus Hla) as [Hrest _].
      repeat split; auto.
      * simpl; lia.
      * unfold TraversalContext_PLUS. apply filter_PLUS_in_plus_run; exact Hall.
      * unfold traversalDepth, TraversalContext_STAR, TraversalContext_PLUS.
        rewrite find_STAR_in_plus_run, filter_PLUS_in_plus_run by exact Hall. reflexivity.
  - destruct (startsTraversal (LA1 input)) eqn:E.
    + destruct (traversal_total _ E) as (t & rest & E'). congruence.
    + split; [reflexivity|]. rewrite traversal_error in H by exact E. congruence.
  - exact (traversal_fuel _ H).
Qed.

(** ** C2 *)

(** Claim C2, as stated, fails: the stream of ["+foo+"], a [PLUS], the bare
    name [foo] and a [PLUS], is not parsed; the parser reports a syntax error
    at [foo]. *)
Lemma C2_counterexample :
  start plus_foo_plus = SyntaxError (Some (token UNQUOTED_STRING "foo" 1)) /\
  isOk (start plus_foo_plus) = false.
Proof. split; reflexivity. Qed.

(** Claim C2, amended.  The stream of ["+name:foo+"] parses as an up-and-down
    traversal around [name:foo] with one [PLUS] on each side, that is depth 1
    each way, and on the chain [a -> foo -> b] it selects the nodes [a], [foo]
    and [b]; the stream of ["+foo+"] is a syntax error at [foo]. *)
Theorem C2_up_and_down_on_chain :
  start plus_name_foo_plus =
    Ok (mkStartContext
          (UpAndDownTraversalExpressionContext
             (mkTraversalContext [token PLUS "+" 0]) (nameIs "foo" 1)
             (mkTraversalContext [token PLUS "+" 9]))) /\
  parseSelection plus_name_foo_plus =
    Ok (AST.UpAndDownTraversal (Bounded 1) (AST.AttributeMatch AST.NAME "foo") (Bounded 1)) /\
  sameSet
    (evaluate
       (AST.UpAndDownTraversal (Bounded 1) (AST.AttributeMatch AST.NAME "foo") (Bounded 1))
       chain)
    ["a"; "foo"; "b"]%string = true /\
  start plus_foo_plus = SyntaxError (Some (token UNQUOTED_STRING "foo" 1)).
Proof. repeat split; reflexivity. Qed.

(** ** C3 *)

(** Claim C3, as stated, fails: [not] does not bind tighter than a traversal.
    In ["not name:foo+"] the [+] belongs to [name:foo], and the negation is the
    root of the tree. *)
Lemma C3_counterexample :
  start not_name_foo_plus =
    Ok (mkStartContext
          (NotExpressionContext (token NOT "not" 0)
             (DownTraversalExpressionContext (nameIs "foo" 4)
                (mkTraversalContext [token PLUS "+" 12])))) /\
  option_map (fun s => match s with mkStartContext c => shape c end)
    (match start not_name_foo_plus with Ok s => Some s | _ => None end) = Some Negation.
Proof. split; reflexivity. Qed.

(** Claim C3, amended.  From tightest to loosest the operators bind as
    traversal, [not], [and], [or].  A traversal after or before the operand of
    [not] stays inside the negation; [not a and b] is [And (Not a) b] for
    primaries [a] and [b]; [a or b and c] is [Or a (And b c)], and
    [a and b or c] is [Or (And a b) c], for every operand the operator admits
    on that side. *)
Theorem C3_precedence :
  (forall tnot x down,
      ttype tnot = NOT -> wfTraversalAllowedExpr x = true -> wfTraversal down = true ->
      start (tnot :: yieldTraversalAllowedExpr x ++ yieldTraversal down) =
      Ok (mkStartContext (NotExpressionContext tnot (DownTraversalExpressionContext x down)))) /\
  (forall tnot up x,
      ttype tnot = NOT -> wfTraversal up = true -> wfTraversalAllowedExpr x = true ->
      start (tnot :: yieldTraversal up ++ yieldTraversalAllowedExpr x) =
      Ok (mkStartContext (NotExpressionContext tnot (UpTraversalExpressionContext up x)))) /\
  (forall tnot a tand b,
      ttype tnot = NOT -> ttype tand = AND ->
      wfExpr a = true -> level a = 4 -> wfExpr b = true -> level b = 4 ->
      start (tnot :: yieldExpr a ++ tand :: yieldExpr b) =
      Ok (mkStartContext (AndExpressionContext (NotExpressionContext tnot a) tand b))) /\
  (forall a tor b tand c,
      ttype tor = OR -> ttype tand = AND ->
      wfExpr a = true -> wfExpr b = true -> 3 <= level b -> wfExpr c = true -> level c = 4 ->
      start (yieldExpr a ++ tor :: yieldExpr b ++ tand :: yieldExpr c) =
      Ok (mkStartContext (OrExpressionContext a tor (AndExpressionContext b tand c)))) /\
  (forall a tand b tor c,
      ttype tand = AND -> ttype tor = OR ->
      wfExpr a = true -> 3 <= level a -> wfExpr b = true -> level b = 4 ->
      wfExpr c = true -> 3 <= level c ->
      start (yieldExpr a ++ tand :: yieldExpr b ++ tor :: yieldExpr c) =
      Ok (mkStartContext (OrExpressionContext (AndExpressionContext a tand b) tor c))).
Proof.
  repeat split; intros.
  - apply (start_complete (NotExpressionContext tnot (DownTraversalExpressionContext x down))).
    wf_solve.
  - apply (start_complete (NotExpressionContext tnot (UpTraversalExpressionContext up x))).
    wf_solve.
  - apply (start_complete (AndExpressionContext (NotExpressionContext tnot a) tand b)).
    wf_solve.
  - apply (start_complete (OrExpressionContext a tor (AndExpressionContext b tand c))).
    wf_solve.
  - replace (yieldExpr a ++ tand :: yieldExpr b ++ tor :: yieldExpr c)
      with (yieldExpr (OrExpressionContext (AndExpressionContext a tand b) tor c))
      by (simpl; rewrite <- app_assoc; reflexivity).
    apply start_complete. wf_solve.
Qed.

(** Claim C3, amended, on ["not name:a and name:b"],
    ["name:a or name:b and name:c"] and ["not name:foo+"]. *)
Lemma C3_precedence_witness :
  start ([token NOT "not" 0] ++ yieldTraversalAllowedExpr (nameIs "a" 4)
           ++ [token AND "and" 11] ++ yieldTraversalAllowedExpr (nameIs "b" 15)) =
    Ok (mkStartContext
          (AndExpressionContext
             (NotExpressionContext (token NOT "not" 0)
                (TraversalAllowedExpressionContext (nameIs "a" 4)))
             (token AND "and" 11) (TraversalAllowedExpressionContext (nameIs "b" 15)))) /\
  start (yieldTraversalAllowedExpr (nameIs "a" 0) ++ [token OR "or" 7]
           ++ yieldTraversalAllowedExpr (nameIs "b" 10) ++ [token AND "and" 17]
           ++ yieldTraversalAllowedExpr (nameIs "c" 21)) =
    Ok (mkStartContext
          (OrExpressionContext (TraversalAllowedExpressionContext (nameIs "a" 0))
             (token OR "or" 7)
             (AndExpressionContext (TraversalAllowedExpressionContext (nameIs "b" 10))
                (token AND "and" 17) (TraversalAllowedExpressionContext (nameIs "c" 21))))) /\
  start not_name_foo_plus =
    Ok (mkStartContext
          (NotExpressionContext (token NOT "not" 0)
             (DownTraversalExpressionContext (nameIs "foo" 4)
                (mkTraversalContext [token PLUS "+" 12])))).
Proof.
  destruct C3_precedence as (Hdown & _ & Hnot & Hor & _).
  split; [|split].
  - apply (Hnot (token NOT "not" 0) (TraversalAllowedExpressionContext (nameIs "a" 4))
             (token AND "and" 11) (TraversalAllowedExpressionContext (nameIs "b" 15)));
      reflexivity.
  - apply (Hor (TraversalAllowedExpressionContext (nameIs "a" 0)) (token OR "or" 7)
             (TraversalAllowedExpressionContext (nameIs "b" 10)) (token AND "and" 17)
             (TraversalAllowedExpressionContext (nameIs "c" 21)));
      try reflexivity. simpl; lia.
  - apply (Hdown (token NOT "not" 0) (nameIs "foo" 4) (mkTraversalContext [token PLUS "+" 12]));
      reflexivity.
Defined.

(** ** C4 *)

(** Claim C4, as stated, fails twice.  A complete expression followed by
    further tokens is not always a syntax error: [name:a] is a complete
    expression, and ["name:a and name:b"], which follows it with four more
    tokens, parses to the conjunction.  And a failure is not without a tree:
    on ["name:foo )"] [start] reports the [)] and, when the listener returns
    from the report, returns the [StartContext] that holds the tree of
    [name:foo]. *)
Lemma C4_counterexample :
  yieldTraversalAllowedExpr (nameIs "a" 0) ++ token AND "and" 7
    :: yieldTraversalAllowedExpr (nameIs "b" 11) =
    yieldExpr (TraversalAllowedExpressionContext (nameIs "a" 0))
      ++ [token AND "and" 7; token NAME "name" 11; token COLON ":" 15;
          token UNQUOTED_STRING "b" 16] /\
  start (yieldExpr (TraversalAllowedExpressionContext (nameIs "a" 0))) =
    Ok (mkStartContext (TraversalAllowedExpressionContext (nameIs "a" 0))) /\
  start (yieldTraversalAllowedExpr (nameIs "a" 0) ++ token AND "and" 7
           :: yieldTraversalAllowedExpr (nameIs "b" 11)) =
    Ok (mkStartContext
          (AndExpressionContext (TraversalAllowedExpressionContext (nameIs "a" 0))
             (token AND "and" 7) (TraversalAllowedExpressionContext (nameIs "b" 11)))) /\
  start_recovering (yieldTraversalAllowedExpr (nameIs "foo" 0) ++ [token RPAREN ")" 8]) =
    Ok (mkStartContext (TraversalAllowedExpressionContext (nameIs "foo" 0)),
        Some (token RPAREN ")" 8)).
Proof. repeat split; reflexivity. Qed.

(** Claim C4, amended.  [start] returns without a report only on a stream
    that is, to its last token, the tokens of the tree it returns; it never
    returns the tree of a proper prefix without a report.  When [expr(0)]
    stops before the end of the stream, the first report is a syntax error at
    the first token left; this is so for every well-formed expression
    followed by a token that does not continue it, whatever comes after that
    token.  A token that continues the expression is no error of its own:
    some tokens after it make a longer expression that parses.  After the
    report at a token left over, [start] with a listener that returns hands
    back the [StartContext] of the expression before that token: the failure
    comes without a tree only when the listener raises. *)
Theorem C4_whole_stream (input : list Token) :
  (forall c, start input = Ok (mkStartContext c) -> input = yieldExpr c /\ wfExpr c = true) /\
  (forall s, start_recovering input = Ok (s, None) <-> start input = Ok s) /\
  (forall c t rest,
      expr (fuelFor input) 0 input = Ok (c, t :: rest) ->
      start input = SyntaxError (Some t) /\
      start_recovering input = Ok (mkStartContext c, Some t)) /\
  (forall c t extra,
      input = yieldExpr c ++ t :: extra -> start input <> Ok (mkStartContext c)) /\
  (forall c t extra,
      input = yieldExpr c ++ t :: extra -> wfExpr c = true ->
      continues c (Some (ttype t)) = false ->
      start input = SyntaxError (Some t) /\
      start_recovering input = Ok (mkStartContext c, Some t)) /\
  (forall c t,
      input = yieldExpr c ++ [t] -> wfExpr c = true ->
      continues c (Some (ttype t)) = true ->
      exists more c', start (input ++ more) = Ok (mkStartContext c')).
Proof.
  split; [|split; [|split; [|split; [|split]]]].
  - intros c H. apply start_sound in H. exact H.
  - intros s. apply start_recovering_clean.
  - intros c t rest H. apply start_left_over with (rest := rest). exact H.
  - intros c t extra -> H. apply start_sound in H. destruct H as [H _].
    apply (f_equal (@List.length Token)) in H. rewrite length_app in H. simpl in H. lia.
  - intros c t extra -> Hwf Hc.
    apply start_left_over with (rest := extra). apply expr_stops_before; assumption.
  - intros c t -> Hwf Hc. exists (snd (extend c t)), (fst (extend c t)).
    rewrite <- app_assoc. apply continuation_accepted; assumption.
Qed.

(** Claim C4, amended, on ["name:foo )"], on ["name:a name:b"] and on
    ["name:a and"]. *)
Lemma C4_whole_stream_witness :
  (start (yieldTraversalAllowedExpr (nameIs "foo" 0) ++ [token RPAREN ")" 8]) =
     SyntaxError (Some (token RPAREN ")" 8)) /\
   start_recovering (yieldTraversalAllowedExpr (nameIs "foo" 0) ++ [token RPAREN ")" 8]) =
     Ok (mkStartContext (TraversalAllowedExpressionContext (nameIs "foo" 0)),
         Some (token RPAREN ")" 8))) /\
  (start (yieldTraversalAllowedExpr (nameIs "a" 0) ++ yieldTraversalAllowedExpr (nameIs "b" 7)) =
     SyntaxError (Some (token NAME "name" 7)) /\
   start_recovering
     (yieldTraversalAllowedExpr (nameIs "a" 0) ++ yieldTraversalAllowedExpr (nameIs "b" 7)) =
     Ok (mkStartContext (TraversalAllowedExpressionContext (nameIs "a" 0)),
         Some (token NAME "name" 7))) /\
  start (yieldTraversalAllowedExpr (nameIs "foo" 0) ++ [token RPAREN ")" 8]) <>
    Ok (mkStartContext (TraversalAllowedExpressionContext (nameIs "foo" 0))) /\
  (exists more c',
     start ((yieldTraversalAllowedExpr (nameIs "a" 0) ++ [token AND "and" 7]) ++ more) =
       Ok (mkStartContext c')).
Proof.
  split; [|split; [|split]].
  - destruct (C4_whole_stream
                (yieldTraversalAllowedExpr (nameIs "foo" 0) ++ [token RPAREN ")" 8]))
      as (_ & _ & _ & _ & Herr & _).
    apply (Herr (TraversalAllowedExpressionContext (nameIs "foo" 0)) (token RPAREN ")" 8) []);
      reflexivity.
  - destruct (C4_whole_stream
                (yieldTraversalAllowedExpr (nameIs "a" 0)
                   ++ yieldTraversalAllowedExpr (nameIs "b" 7)))
      as (_ & _ & _ & _ & Herr & _).
    apply (Herr (TraversalAllowedExpressionContext (nameIs "a" 0)) (token NAME "name" 7)
             [token COLON ":" 11; token UNQUOTED_STRING "b" 12]);
      reflexivity.
  - destruct (C4_whole_stream
                (yieldTraversalAllowedExpr (nameIs "foo" 0) ++ [token RPAREN ")" 8]))
      as (_ & _ & _ & Hnot & _).
    apply (Hnot (TraversalAllowedExpressionContext (nameIs "foo" 0)) (token RPAREN ")" 8) []).
    reflexivity.
  - destruct (C4_whole_stream
                (yieldTraversalAllowedExpr (nameIs "a" 0) ++ [token AND "and" 7]))
      as (_ & _ & _ & _ & _ & Hgo).
    apply (Hgo (TraversalAllowedExpressionContext (nameIs "a" 0)) (token AND "and" 7));
      reflexivity.
Defined.

(** ** C5 *)

(** Claim C5.  Rule [traversalAllowedExpr] reports a syntax error at the first
    token unless that token is [NAME], [NAME_SUBSTRING] or [LPAREN]; what it
    returns is an attribute expression or a parenthesised expression over
    exactly the tokens consumed.  After a run of [PLUS] any token that cannot
    start a [traversalAllowedExpr], a bare name, [not] and [STAR] among them,
    is a syntax error at that token.  A [STAR] before such a token is no
    traversal: it is the expression [*] by itself, and unless [and] or [or]
    follows, the token after it is a syntax error. *)
Theorem C5_traversal_allowed_expr (n : nat) (input : list Token) :
  (startsTraversalAllowedExpr (LA1 input) = false ->
   traversalAllowedExpr (S n) input = SyntaxError (LT1 input)) /\
  (forall x rest,
      traversalAllowedExpr n input = Ok (x, rest) ->
      (exists a, x = AttributeExpressionContext a /\ wfAttributeExpr a = true /\
         input = yieldAttributeExpr a ++ rest) \/
      (exists lparen e rparen,
         x = ParenthesizedExpressionContext lparen e rparen /\
         ttype lparen = LPAREN /\ wfExpr e = true /\ ttype rparen = RPAREN /\
         input = lparen :: yieldExpr e ++ rparen :: rest)) /\
  (forall run rest,
      input = run ++ rest -> run <> [] -> forallb (hasType PLUS) run = true ->
      startsTraversalAllowedExpr (LA1 rest) = false -> LA1 rest <> Some PLUS ->
      start input = SyntaxError (LT1 rest)) /\
  (forall star rest,
      input = star :: rest -> ttype star = STAR ->
      startsTraversalAllowedExpr (LA1 rest) = false ->
      expr_primary (traversalAllowedExpr n) (expr n) input =
      Ok (AllExpressionContext star, rest)) /\
  (forall star t rest,
      input = star :: t :: rest -> ttype star = STAR ->
      startsTraversalAllowedExpr (Some (ttype t)) = false ->
      ttype t <> AND -> ttype t <> OR ->
      start input = SyntaxError (Some t)).
Proof.
  split; [|split; [|split; [|split]]].
  - apply traversalAllowedExpr_error.
  - intros x rest H. apply traversalAllowedExpr_sound in H. destruct H as [-> Hwf].
    destruct x as [a|lparen e rparen]; simpl in *.
    + left. eauto.
    + right. exists lparen, e, rparen.
      apply andb_prop in Hwf as [Hwf Hr]. apply andb_prop in Hwf as [Hl Hwf].
      apply hasType_eq in Hl, Hr. rewrite <- app_assoc. auto.
  - intros run rest -> Hne Hall Hrest Hplus. unfold start, fuelFor.
    replace (2 * List.length (run ++ rest) + 2)%nat
      with (S (S (2 * List.length (run ++ rest))))%nat by lia.
    rewrite expr_S, expr_primary_plus_error by assumption. reflexivity.
  - intros star rest -> Hs Hrest. apply expr_primary_all; assumption.
  - intros star t rest -> Hs Ht Hand Hor. unfold start, fuelFor.
    replace (2 * List.length (star :: t :: rest) + 2)%nat
      with (S (S (2 * List.length (star :: t :: rest))))%nat by lia.
    rewrite expr_S, expr_primary_all by assumption. cbn [bind].
    rewrite expr_loop_exit; [reflexivity|].
    unfold adaptivePredict_2. simpl. destruct (ttype t); try reflexivity; congruence.
Qed.

(** Claim C5 on ["foo+"] and ["+foo+"]. *)
Lemma C5_traversal_allowed_expr_witness :
  traversalAllowedExpr 1 [token UNQUOTED_STRING "foo" 0; token PLUS "+" 3] =
    SyntaxError (Some (token UNQUOTED_STRING "foo" 0)) /\
  start plus_foo_plus = SyntaxError (Some (token UNQUOTED_STRING "foo" 1)).
Proof.
  split.
  - apply (proj1 (C5_traversal_allowed_expr 0
                    [token UNQUOTED_STRING "foo" 0; token PLUS "+" 3])).
    reflexivity.
  - destruct (C5_traversal_allowed_expr 0 plus_foo_plus) as (_ & _ & H & _).
    apply (H [token PLUS "+" 0] [token UNQUOTED_STRING "foo" 1; token PLUS "+" 4]);
      try reflexivity; discriminate.
Defined.

(** ** C6 *)

Lemma orElse_Ok {A : Type} (r1 r2 : Result A) (a : A) :
  orElse r1 r2 = Ok a -> r1 = Ok a \/ (isOk r1 = false /\ r2 = Ok a).
Proof. destruct r1; simpl; auto. Qed.

Lemma traversal_not_Ok (input : list Token) :
  isOk (traversal input) = false -> startsTraversal (LA1 input) = false.
Proof.
  intros H. destruct (startsTraversal (LA1 input)) eqn:E; [|reflexivity].
  destruct (traversal_total _ E) as (t & rest & E'). rewrite E' in H. discriminate.
Qed.

Lemma bind_not_Ok {A B : Type} (r : Result A) (k : A -> Result B) (a : A) :
  r = Ok a -> isOk (bind r k) = false -> isOk (k a) = false.
Proof. intros ->; simpl; auto. Qed.

Lemma adaptivePredict_0_Ok_sync f (input : list Token) (alt : Z) :
  adaptivePredict_0 f input = Ok alt ->
  sync [NOT; STAR; PLUS; LPAREN; NAME; NAME_SUBSTRING] input = Ok tt.
Proof.
  unfold adaptivePredict_0, sync.
  destruct (LA1 input) as [[]|]; simpl; intros H; try discriminate; reflexivity.
Qed.

Lemma expr_primary_of_alt f g (input rest : list Token) (alt : Z) (c : ExprContext) :
  adaptivePredict_0 f input = Ok alt -> primary_alt f g input rest alt c ->
  expr_primary f g input = Ok (c, rest).
Proof.
  intros Hp Halt. unfold expr_primary.
  rewrite (adaptivePredict_0_Ok_sync _ _ _ Hp), Hp. cbn [bind].
  destruct Halt; cbn [bind];
    repeat match goal with
      | H : ?r = Ok _ |- context [?r] => rewrite H; cbn [bind]
      end; reflexivity.
Qed.

Section ShapeOrder.

Variable n : nat.
Let f := traversalAllowedExpr n.
Let g := expr n.

Lemma lookahead_sound : sound_tae f.
Proof. apply traversalAllowedExpr_sound. Qed.

Lemma lookahead_starts (i r : list Token) x :
  f i = Ok (x, r) -> startsTraversalAllowedExpr (LA1 i) = true.
Proof.
  intros H. apply lookahead_sound in H. destruct H as [-> Hwf].
  apply wfTraversalAllowedExpr_LA1; exact Hwf.
Qed.

Lemma predict_after_traversal (input i1 after : list Token) up x :
  traversal input = Ok (up, i1) -> f i1 = Ok (x, after) ->
  adaptivePredict_0 f input = Ok (if startsTraversal (LA1 after) then 2 else 3).
Proof.
  intros Ht Hf. destruct (traversal_sound _ _ _ Ht) as (-> & Hup & _).
  eapply adaptivePredict_0_traversal; [exact Hup|eapply lookahead_starts; exact Hf|exact Hf].
Qed.

Lemma predict_at_tae (input after : list Token) x :
  f input = Ok (x, after) ->
  adaptivePredict_0 f input = Ok (if startsTraversal (LA1 after) then 4 else 1).
Proof.
  intros Hf. eapply adaptivePredict_0_tae; [eapply lookahead_starts; exact Hf|exact Hf].
Qed.

Lemma traversal_Ok_starts (input rest : list Token) t :
  traversal input = Ok (t, rest) -> startsTraversal (LA1 input) = true.
Proof. intros H; apply traversal_sound in H; apply H. Qed.

Lemma inOrder_primary (input rest : list Token) (c : ExprContext) :
  traversalShapeInOrder f input = Ok (c, rest) -> expr_primary f g input = Ok (c, rest).
Proof.
  unfold traversalShapeInOrder. intros H.
  apply orElse_Ok in H. destruct H as [H|[N1 H]].
  { unfold tryUpAndDown in H. do 3 bind_inv H. injection H as <- <-.
    pose proof (predict_after_traversal _ _ _ _ _ Hcall Hcall0) as Hp.
    rewrite (traversal_Ok_starts _ _ _ Hcall1) in Hp.
    eapply expr_primary_of_alt; [exact Hp|]. econstructor; eassumption. }
  apply orElse_Ok in H. destruct H as [H|[N2 H]].
  { unfold tryUp in H. do 2 bind_inv H. injection H as <- ->.
    unfold tryUpAndDown in N1.
    apply (bind_not_Ok _ _ _ Hcall) in N1. apply (bind_not_Ok _ _ _ Hcall0) in N1.
    cbn beta iota in N1.
    assert (Hrest : startsTraversal (LA1 rest) = false).
    { apply traversal_not_Ok. destruct (traversal rest) as [[? ?]| |]; auto. }
    pose proof (predict_after_traversal _ _ _ _ _ Hcall Hcall0) as Hp.
    rewrite Hrest in Hp.
    eapply expr_primary_of_alt; [exact Hp|]. econstructor; eassumption. }
  apply orElse_Ok in H. destruct H as [H|[N3 H]].
  { unfold tryDown in H. do 2 bind_inv H. injection H as <- <-.
    pose proof (predict_at_tae _ _ _ Hcall) as Hp.
    rewrite (traversal_Ok_starts _ _ _ Hcall0) in Hp.
    eapply expr_primary_of_alt; [exact Hp|]. econstructor; eassumption. }
  unfold tryUntraversed in H. bind_inv H. injection H as <- ->.
  unfold tryDown in N3. apply (bind_not_Ok _ _ _ Hcall) in N3. cbn beta iota in N3.
  assert (Hrest : startsTraversal (LA1 rest) = false).
  { apply traversal_not_Ok. destruct (traversal rest) as [[? ?]| |]; auto. }
  pose proof (predict_at_tae _ _ _ Hcall) as Hp. rewrite Hrest in Hp.
  eapply expr_primary_of_alt; [exact Hp|]. econstructor; eassumption.
Qed.

Lemma primary_inOrder (input rest : list Token) (c : ExprContext) :
  expr_primary f g input = Ok (c, rest) -> isTraversalShape (shape c) = true ->
  traversalShapeInOrder f input = Ok (c, rest).
Proof.
  intros H Hshape. apply expr_primary_Ok in H. destruct H as (alt & Hp & Halt).
  unfold traversalShapeInOrder, tryUpAndDown, tryUp, tryDown, tryUntraversed.
  destruct Halt as [x Hf|up i1 x i2 down Ht Hf Hd|up i1 x Ht Hf|x i1 down Hf Hd| |];
    try discriminate Hshape.
  - (* untraversed *)
    rewrite (predict_at_tae _ _ _ Hf) in Hp.
    destruct (startsTraversal (LA1 rest)) eqn:Hrest; [discriminate|].
    destruct (startsTraversalAllowedExpr_not_traversal _ (lookahead_starts _ _ _ Hf)) as [Hin _].
    rewrite (traversal_error input Hin). cbn [bind orElse].
    rewrite Hf. cbn [bind]. rewrite (traversal_error rest Hrest). reflexivity.
  - (* up and down *)
    rewrite Ht. cbn [bind]. rewrite Hf. cbn [bind]. rewrite Hd. reflexivity.
  - (* up *)
    rewrite (predict_after_traversal _ _ _ _ _ Ht Hf) in Hp.
    destruct (startsTraversal (LA1 rest)) eqn:Hrest; [discriminate|].
    rewrite Ht. cbn [bind]. rewrite Hf. cbn [bind].
    rewrite (traversal_error rest Hrest). reflexivity.
  - (* down *)
    destruct (startsTraversalAllowedExpr_not_traversal _ (lookahead_starts _ _ _ Hf)) as [Hin _].
    rewrite (traversal_error input Hin). cbn [bind orElse].
    rewrite Hf. cbn [bind]. rewrite Hd. reflexivity.
Qed.

End ShapeOrder.

(** Claim C6.  The primary switch of [expr] commits to the traversal shape
    that trying the shapes in the order up-and-down, up, down, untraversed
    would find first: whatever that trial returns, the switch returns, and
    every traversal shape the switch returns is what the trial returns. *)
Theorem C6_shape_by_order (n : nat) (input rest : list Token) (c : ExprContext) :
  (traversalShapeInOrder (traversalAllowedExpr n) input = Ok (c, rest) ->
   expr_primary (traversalAllowedExpr n) (expr n) input = Ok (c, rest)) /\
  (isTraversalShape (shape c) = true ->
   expr_primary (traversalAllowedExpr n) (expr n) input = Ok (c, rest) ->
   traversalShapeInOrder (traversalAllowedExpr n) input = Ok (c, rest)).
Proof.
  split.
  - apply inOrder_primary.
  - intros Hs H. apply primary_inOrder; assumption.
Qed.

(** Claim C6 on ["+name:foo+"] and ["name:foo*"]. *)
Lemma C6_shape_by_order_witness :
  expr_primary (traversalAllowedExpr 1) (expr 1) plus_name_foo_plus =
    Ok (UpAndDownTraversalExpressionContext
          (mkTraversalContext [token PLUS "+" 0]) (nameIs "foo" 1)
          (mkTraversalContext [token PLUS "+" 9]), []) /\
  traversalShapeInOrder (traversalAllowedExpr 1)
    (yieldTraversalAllowedExpr (nameIs "foo" 0) ++ [token STAR "*" 8]) =
    Ok (DownTraversalExpressionContext (nameIs "foo" 0)
          (mkTraversalContext [token STAR "*" 8]), []).
Proof.
  split.
  - apply (proj1 (C6_shape_by_order 1 plus_name_foo_plus []
                    (UpAndDownTraversalExpressionContext
                       (mkTraversalContext [token PLUS "+" 0]) (nameIs "foo" 1)
                       (mkTraversalContext [token PLUS "+" 9])))).
    reflexivity.
  - apply (proj2 (C6_shape_by_order 1
                    (yieldTraversalAllowedExpr (nameIs "foo" 0) ++ [token STAR "*" 8]) []
                    (DownTraversalExpressionContext (nameIs "foo" 0)
                       (mkTraversalContext [token STAR "*" 8]))));
      reflexivity.
Defined.

(** ** C7 *)

(** Claim C7.  Chains of one operator associate to the left: [a and b and c]
    is [And (And a b) c] and [a or b or c] is [Or (Or a b) c], for every
    operand the operator admits on that side. *)
Theorem C7_left_associative :
  (forall a t1 b t2 c,
      ttype t1 = AND -> ttype t2 = AND ->
      wfExpr a = true -> 3 <= level a -> wfExpr b = true -> level b = 4 ->
      wfExpr c = true -> level c = 4 ->
      start (yieldExpr a ++ t1 :: yieldExpr b ++ t2 :: yieldExpr c) =
      Ok (mkStartContext
            (AndExpressionContext (AndExpressionContext a t1 b) t2 c))) /\
  (forall a t1 b t2 c,
      ttype t1 = OR -> ttype t2 = OR ->
      wfExpr a = true -> wfExpr b = true -> 3 <= level b ->
      wfExpr c = true -> 3 <= level c ->
      start (yieldExpr a ++ t1 :: yieldExpr b ++ t2 :: yieldExpr c) =
      Ok (mkStartContext
            (OrExpressionContext (OrExpressionContext a t1 b) t2 c))).
Proof.
  split; intros.
  - replace (yieldExpr a ++ t1 :: yieldExpr b ++ t2 :: yieldExpr c)
      with (yieldExpr (AndExpressionContext (AndExpressionContext a t1 b) t2 c))
      by (simpl; rewrite <- app_assoc; reflexivity).
    apply start_complete. wf_solve.
  - replace (yieldExpr a ++ t1 :: yieldExpr b ++ t2 :: yieldExpr c)
      with (yieldExpr (OrExpressionContext (OrExpressionContext a t1 b) t2 c))
      by (simpl; rewrite <- app_assoc; reflexivity).
    apply start_complete. wf_solve.
Qed.

(** Claim C7 on ["name:a and name:b and name:c"] and
    ["name:a or name:b or name:c"]. *)
Lemma C7_left_associative_witness :
  start (yieldTraversalAllowedExpr (nameIs "a" 0) ++ [token AND "and" 7]
           ++ yieldTraversalAllowedExpr (nameIs "b" 11) ++ [token AND "and" 18]
           ++ yieldTraversalAllowedExpr (nameIs "c" 22)) =
    Ok (mkStartContext
          (AndExpressionContext
             (AndExpressionContext (TraversalAllowedExpressionContext (nameIs "a" 0))
                (token AND "and" 7) (TraversalAllowedExpressionContext (nameIs "b" 11)))
             (token AND "and" 18) (TraversalAllowedExpressionContext (nameIs "c" 22)))) /\
  start (yieldTraversalAllowedExpr (nameIs "a" 0) ++ [token OR "or" 7]
           ++ yieldTraversalAllowedExpr (nameIs "b" 10) ++ [token OR "or" 17]
           ++ yieldTraversalAllowedExpr (nameIs "c" 20)) =
    Ok (mkStartContext
          (OrExpressionContext
             (OrExpressionContext (TraversalAllowedExpressionContext (nameIs "a" 0))
                (token OR "or" 7) (TraversalAllowedExpressionContext (nameIs "b" 10)))
             (token OR "or" 17) (TraversalAllowedExpressionContext (nameIs "c" 20)))).
Proof.
  destruct C7_left_associative as [Hand Hor]. split.
  - apply (Hand (TraversalAllowedExpressionContext (nameIs "a" 0)) (token AND "and" 7)
             (TraversalAllowedExpressionContext (nameIs "b" 11)) (token AND "and" 18)
             (TraversalAllowedExpressionContext (nameIs "c" 22)));
      try reflexivity. simpl; lia.
  - apply (Hor (TraversalAllowedExpressionContext (nameIs "a" 0)) (token OR "or" 7)
             (TraversalAllowedExpressionContext (nameIs "b" 10)) (token OR "or" 17)
             (TraversalAllowedExpressionContext (nameIs "c" 20)));
      try reflexivity; simpl; lia.
Defined.

(** ** C8 *)

(** Claim C8, as stated, fails: on ["foo* or bar"] the syntax error is
    reported at offset 0, the bare name [foo], while the [*] stands at
    offset 3. *)
Lemma C8_counterexample :
  start foo_star_or_bar = SyntaxError (Some (token UNQUOTED_STRING "foo" 0)) /\
  errorPosition (start foo_star_or_bar) = Some 0%nat /\
  option_map startIndex (nth_error foo_star_or_bar 1) = Some 3%nat /\
  option_map ttype (nth_error foo_star_or_bar 1) = Some STAR.
Proof. repeat split; reflexivity. Qed.

(** Claim C8, amended.  A stream that starts with a bare name, as
    ["foo* or bar"] does, is a syntax error reported at the position of that
    name. *)
Theorem C8_bare_name_first (t : Token) (rest : list Token) :
  ttype t = UNQUOTED_STRING ->
  start (t :: rest) = SyntaxError (Some t) /\
  errorPosition (start (t :: rest)) = Some (startIndex t).
Proof.
  intros Ht.
  assert (E : start (t :: rest) = SyntaxError (Some t)).
  { unfold start, fuelFor.
    replace (2 * List.length (t :: rest) + 2)%nat
      with (S (S (2 * List.length (t :: rest))))%nat by lia.
    rewrite expr_S, expr_primary_sync_error; simpl; rewrite ?Ht; auto; discriminate. }
  rewrite E. split; reflexivity.
Qed.

(** Claim C8, amended, on ["foo* or bar"]. *)
Lemma C8_bare_name_first_witness :
  start foo_star_or_bar = SyntaxError (Some (token UNQUOTED_STRING "foo" 0)) /\
  errorPosition (start foo_star_or_bar) = Some 0%nat.
Proof.
  apply (C8_bare_name_first (token UNQUOTED_STRING "foo" 0)
           [token STAR "*" 3; token OR "or" 5; token UNQUOTED_STRING "bar" 8]).
  reflexivity.
Defined.

(** ** C9 *)

(** Claim C9.  Rule [attributeExpr] accepts exactly three tokens: the keyword
    [NAME] or [NAME_SUBSTRING], a [COLON], and one value token that is a
    [QUOTED_STRING] or an [UNQUOTED_STRING].  Any other first token is a syntax
    error at that token, and any other value token, or none, is a syntax error
    at the place of the value; rule [value] accepts one token of the two
    kinds and nothing else. *)
Theorem C9_attribute_expr (input : list Token) :
  (forall a rest,
      attributeExpr input = Ok (a, rest) ->
      exists keyword colon v,
        input = keyword :: colon :: v :: rest /\
        (ttype keyword = NAME /\ a = NameExprContext keyword colon (mkValueContext v) \/
         ttype keyword = NAME_SUBSTRING /\
         a = NameSubstringExprContext keyword colon (mkValueContext v)) /\
        ttype colon = COLON /\
        (ttype v = QUOTED_STRING \/ ttype v = UNQUOTED_STRING)) /\
  (forall keyword colon v rest,
      input = keyword :: colon :: v :: rest ->
      ttype keyword = NAME \/ ttype keyword = NAME_SUBSTRING ->
      ttype colon = COLON ->
      ttype v = QUOTED_STRING \/ ttype v = UNQUOTED_STRING ->
      isOk (attributeExpr input) = true) /\
  (LA1 input <> Some NAME -> LA1 input <> Some NAME_SUBSTRING ->
   attributeExpr input = SyntaxError (LT1 input)) /\
  (forall keyword colon rest,
      input = keyword :: colon :: rest ->
      ttype keyword = NAME \/ ttype keyword = NAME_SUBSTRING ->
      ttype colon = COLON ->
      LA1 rest <> Some QUOTED_STRING -> LA1 rest <> Some UNQUOTED_STRING ->
      attributeExpr input = SyntaxError (LT1 rest)) /\
  (forall v rest,
      value input = Ok (v, rest) ->
      exists t, input = t :: rest /\ v = mkValueContext t /\
        (ttype t = QUOTED_STRING \/ ttype t = UNQUOTED_STRING)).
Proof.
  repeat split.
  - intros a rest H. apply attributeExpr_sound in H. destruct H as [-> Hwf].
    destruct a as [k c [v]|k c [v]]; simpl in *;
      apply andb_prop in Hwf as [Hwf Hv]; apply andb_prop in Hwf as [Hk Hc];
      apply hasType_eq in Hk, Hc; apply orb_prop in Hv;
      exists k, c, v; repeat split; auto;
      destruct Hv as [Hv|Hv]; apply hasType_eq in Hv; auto.
  - intros [ty1 ? ?] [ty2 ? ?] [ty3 ? ?] rest -> Hk Hc Hv. simpl in *. subst ty2.
    destruct Hk as [-> | ->], Hv as [-> | ->]; reflexivity.
  - intros H1 H2. unfold attributeExpr, sync.
    destruct input as [|[ty ? ?] rest]; [reflexivity|].
    destruct ty; simpl in *; try reflexivity; congruence.
  - intros [ty1 ? ?] [ty2 ? ?] rest -> Hk Hc H1 H2. simpl in *. subst ty2.
    destruct Hk as [-> | ->]; unfold attributeExpr; simpl;
      rewrite value_error by assumption; reflexivity.
  - intros v rest H. apply value_sound in H. destruct H as [-> Hwf].
    destruct v as [t]. exists t. simpl in *. repeat split.
    apply orb_prop in Hwf. destruct Hwf as [H|H]; apply hasType_eq in H; auto.
Qed.

(** Claim C9 on [name_substring:"my op"], ["tag:foo"] and ["name:*"]. *)
Lemma C9_attribute_expr_witness :
  isOk (attributeExpr [token NAME_SUBSTRING "name_substring" 0; token COLON ":" 14;
                       token QUOTED_STRING "my op" 15]) = true /\
  attributeExpr [token UNQUOTED_STRING "tag" 0; token COLON ":" 3;
                 token UNQUOTED_STRING "foo" 4] =
    SyntaxError (Some (token UNQUOTED_STRING "tag" 0)) /\
  attributeExpr [token NAME "name" 0; token COLON ":" 4; token STAR "*" 5] =
    SyntaxError (Some (token STAR "*" 5)).
Proof.
  split; [|split].
  - destruct (C9_attribute_expr
                [token NAME_SUBSTRING "name_substring" 0; token COLON ":" 14;
                 token QUOTED_STRING "my op" 15]) as (_ & H & _).
    apply (H (token NAME_SUBSTRING "name_substring" 0) (token COLON ":" 14)
             (token QUOTED_STRING "my op" 15) []); auto.
  - destruct (C9_attribute_expr
                [token UNQUOTED_STRING "tag" 0; token COLON ":" 3;
                 token UNQUOTED_STRING "foo" 4]) as (_ & _ & H & _).
    apply H; discriminate.
  - destruct (C9_attribute_expr
                [token NAME "name" 0; token COLON ":" 4; token STAR "*" 5])
      as (_ & _ & _ & H & _).
    apply (H (token NAME "name" 0) (token COLON ":" 4) [token STAR "*" 5]);
      auto; discriminate.
Defined.

(** ** C10 *)

(** Claim C10.  Whatever the leading and the trailing qualifier are, each a
    [STAR] or a run of [PLUS] of any length, the stream of the leading
    qualifier, a [traversalAllowedExpr] and the trailing qualifier parses as
    one up-and-down traversal whose sub-contexts [traversal(0)] and
    [traversal(1)] are the two qualifiers: each holds its own run, either the
    one [STAR] or all the [PLUS] tokens of its side, whatever the other
    holds. *)
Theorem C10_up_and_down_independent
    (up down : TraversalContext) (x : TraversalAllowedExprContext) :
  wfTraversal up = true -> wfTraversalAllowedExpr x = true -> wfTraversal down = true ->
  start (yieldTraversal up ++ yieldTraversalAllowedExpr x ++ yieldTraversal down) =
    Ok (mkStartContext (UpAndDownTraversalExpressionContext up x down)) /\
  UpAndDown_traversal (UpAndDownTraversalExpressionContext up x down) 0 = Some up /\
  UpAndDown_traversal (UpAndDownTraversalExpressionContext up x down) 1 = Some down /\
  ((exists star, yieldTraversal up = [star] /\ TraversalContext_STAR up = Some star /\
      TraversalContext_PLUS up = []) \/
   (TraversalContext_STAR up = None /\ TraversalContext_PLUS up = yieldTraversal up /\
      (1 <= List.length (TraversalContext_PLUS up))%nat)) /\
  ((exists star, yieldTraversal down = [star] /\ TraversalContext_STAR down = Some star /\
      TraversalContext_PLUS down = []) \/
   (TraversalContext_STAR down = None /\ TraversalContext_PLUS down = yieldTraversal down /\
      (1 <= List.length (TraversalContext_PLUS down))%nat)).
Proof.
  intros Hup Hx Hdown.
  split; [|split; [reflexivity|split; [reflexivity|split; apply traversal_accessors; assumption]]].
  apply (start_complete (UpAndDownTraversalExpressionContext up x down)).
  simpl. rewrite Hup, Hx, Hdown. reflexivity.
Qed.

(** Claim C10 on ["++name:foo*"]: two [PLUS] upwards, a [STAR] downwards. *)
Lemma C10_up_and_down_independent_witness :
  start plus_plus_name_foo_star =
    Ok (mkStartContext
          (UpAndDownTraversalExpressionContext
             (mkTraversalContext [token PLUS "+" 0; token PLUS "+" 1]) (nameIs "foo" 2)
             (mkTraversalContext [token STAR "*" 10]))) /\
  List.length
    (TraversalContext_PLUS (mkTraversalContext [token PLUS "+" 0; token PLUS "+" 1])) =
    2%nat /\
  TraversalContext_STAR (mkTraversalContext [token STAR "*" 10]) =
    Some (token STAR "*" 10).
Proof.
  split; [|split; reflexivity].
  apply (C10_up_and_down_independent
           (mkTraversalContext [token PLUS "+" 0; token PLUS "+" 1])
           (mkTraversalContext [token STAR "*" 10]) (nameIs "foo" 2));
    reflexivity.
Defined.

(** * Further properties of the parser *)

(** ** The parse trees of [start] *)


(** The grammar is unambiguous on the trees the parser builds: two
    well-formed trees over the same tokens are the same tree. *)
Theorem parse_tree_unique (c1 c2 : ExprContext) :
  wfExpr c1 = true -> wfExpr c2 = true -> yieldExpr c1 = yieldExpr c2 -> c1 = c2.
Proof.
  intros H1 H2 E.
  pose proof (start_complete c1 H1) as P1. pose proof (start_complete c2 H2) as P2.
  rewrite E in P1. rewrite P1 in P2. injection P2 as P2; exact P2.
Qed.

(** On the tokens of ["name:a or name:b"]. *)
Lemma parse_tree_unique_witness :
  OrExpressionContext (TraversalAllowedExpressionContext (nameIs "a" 0)) (token OR "or" 7)
    (TraversalAllowedExpressionContext (nameIs "b" 10)) =
  OrExpressionContext (TraversalAllowedExpressionContext (nameIs "a" 0)) (token OR "or" 7)
    (TraversalAllowedExpressionContext (nameIs "b" 10)).
Proof.
  apply (parse_tree_unique
           (OrExpressionContext (TraversalAllowedExpressionContext (nameIs "a" 0))
              (token OR "or" 7) (TraversalAllowedExpressionContext (nameIs "b" 10)))
           (OrExpressionContext (TraversalAllowedExpressionContext (nameIs "a" 0))
              (token OR "or" 7) (TraversalAllowedExpressionContext (nameIs "b" 10))));
    reflexivity.
Defined.

(** ** Termination *)

(** The calls of [expr] and [traversalAllowedExpr] never nest deeper than
    twice the number of tokens plus two: with that much fuel or more, [expr]
    gives one and the same outcome, which is a tree or a syntax error; so
    [start] always returns one of the two. *)
Theorem expr_terminates (n : nat) (p : Z) (input : list Token) :
  (fuelFor input <= n)%nat ->
  expr n p input = expr (fuelFor input) p input /\
  expr n p input <> OutOfFuel /\
  ((exists s, start input = Ok s) \/ (exists t, start input = SyntaxError t)).
Proof.
  intros Hn. destruct (fuel_mono _ _ Hn) as (He & _ & _).
  pose proof (expr_total p input) as Ht.
  destruct (He p input) as [E|E]; [contradiction|].
  rewrite <- E. split; [reflexivity|split; [exact Ht|]].
  pose proof (start_total input) as Hs.
  destruct (start input) as [s|t|]; [left; eauto|right; eauto|contradiction].
Qed.

(** On ["+name:foo+"], five tokens, with fuel 100. *)
Lemma expr_terminates_witness :
  expr 100 0 plus_name_foo_plus = expr (fuelFor plus_name_foo_plus) 0 plus_name_foo_plus /\
  expr 100 0 plus_name_foo_plus <> OutOfFuel /\
  ((exists s, start plus_name_foo_plus = Ok s) \/
   (exists t, start plus_name_foo_plus = SyntaxError t)).
Proof.
  apply (expr_terminates 100 0 plus_name_foo_plus). unfold fuelFor; simpl; lia.
Defined.

(** ** Where a syntax error is reported *)

(** A stream whose first token is none of [NOT], [STAR], [PLUS], [LPAREN],
    [NAME] and [NAME_SUBSTRING] is a syntax error at that token, whatever
    follows; the empty stream is a syntax error at the end of file. *)
Theorem start_first_token (input : list Token) :
  extendsPrimary (LA1 input) = false -> LA1 input <> Some NOT ->
  start input = SyntaxError (LT1 input).
Proof.
  intros He Hn. unfold start, fuelFor.
  replace (2 * List.length input + 2)%nat with (S (S (2 * List.length input)))%nat by lia.
  rewrite expr_S, expr_primary_sync_error by assumption. reflexivity.
Qed.

(** On the empty stream and on ["and name:a"]. *)
Lemma start_first_token_witness :
  start [] = SyntaxError None /\
  start (token AND "and" 0 :: yieldTraversalAllowedExpr (nameIs "a" 4)) =
    SyntaxError (Some (token AND "and" 0)).
Proof.
  split.
  - apply (start_first_token []); [reflexivity|discriminate].
  - apply (start_first_token (token AND "and" 0 :: yieldTraversalAllowedExpr (nameIs "a" 4)));
      [reflexivity|discriminate].
Defined.

Lemma expr_sync_error (n : nat) (p : Z) (input : list Token) :
  extendsPrimary (LA1 input) = false -> LA1 input <> Some NOT ->
  expr (S n) p input = SyntaxError (LT1 input).
Proof. intros He Hn. rewrite expr_S, expr_primary_sync_error by assumption. reflexivity. Qed.

Lemma expr_loop_missing_operand (p : Z) (c : ExprContext) (t : Token) (rest : list Token) :
  adaptivePredict_2 p (t :: rest) = 1 ->
  extendsPrimary (LA1 rest) = false -> LA1 rest <> Some NOT ->
  eventually (fun n => expr_loop n p c (t :: rest)) (SyntaxError (LT1 rest)).
Proof.
  intros Hp He Hn. exists 2%nat. intros n Hle.
  destruct n as [|[|n]]; try lia.
  unfold adaptivePredict_2, precpred in Hp. simpl LA1 in Hp.
  destruct (ttype t) eqn:Ht; try discriminate.
  - destruct (p <=? 3) eqn:E; [|discriminate]. apply Z.leb_le in E.
    rewrite expr_loop_AND by assumption. rewrite expr_sync_error by assumption. reflexivity.
  - destruct (p <=? 2) eqn:E; [|discriminate]. apply Z.leb_le in E.
    rewrite expr_loop_OR by assumption. rewrite expr_sync_error by assumption. reflexivity.
Qed.

Lemma expr_missing_operand (c : ExprContext) :
  wfExpr c = true ->
  forall p t rest,
    p <= level c -> adaptivePredict_2 p (t :: rest) = 1 ->
    extendsPrimary (LA1 rest) = false -> LA1 rest <> Some NOT ->
    eventually (fun n => expr n p (yieldExpr c ++ t :: rest)) (SyntaxError (LT1 rest)).
Proof.
  induction c; intros Hwf p t rest Hp Hpred He Hn;
    pose proof (fun c' => expr_loop_missing_operand p c' t rest Hpred He Hn) as Hloop.
  7: {
    assert (Ht : ttype t = AND \/ ttype t = OR).
    { unfold adaptivePredict_2 in Hpred. simpl LA1 in Hpred.
      destruct (ttype t); try discriminate; auto. }
    destruct Ht as [Ht|Ht].
    - (* [and] after a disjunction: the operand is missing in the right
         operand of the [or] *)
      simpl in Hwf. apply andb_prop in Hwf as [Hwf H3]. apply andb_prop in Hwf as [Hwf H1].
      apply andb_prop in Hwf as [H0 Hor]. apply hasType_eq in Hor. apply Z.leb_le in H3.
      simpl in Hp. simpl yieldExpr. rewrite <- app_assoc. simpl app.
      apply (proj1 complete_step c1 H0 p).
      + pose proof (level_bounds c1). lia.
      + simpl. rewrite Hor. reflexivity.
      + simpl. rewrite Hor. discriminate.
      + assert (Hpred3 : adaptivePredict_2 3 (t :: rest) = 1).
        { unfold adaptivePredict_2. simpl. rewrite Ht. reflexivity. }
        destruct (IHc2 H1 3 t rest H3 Hpred3 He Hn) as [n0 Hn0].
        exists (S n0). intros n Hle. destruct n as [|n]; [lia|].
        rewrite expr_loop_OR by (auto; lia). rewrite Hn0 by lia. reflexivity.
    - apply (proj1 complete_step _ Hwf p); auto.
      + simpl. rewrite Ht. reflexivity.
      + simpl. rewrite Ht. discriminate.
  }
  all: apply (proj1 complete_step _ Hwf p); auto;
    [ unfold adaptivePredict_2 in Hpred; simpl LA1 in Hpred; simpl;
      destruct (ttype t); try discriminate; reflexivity
    | intros _; simpl; lia ].
Qed.

(** An [and] or [or] after a complete expression wants an operand: when the
    token after the operator cannot start an expression, or when there is
    none, the syntax error is reported at that place, right after the
    operator. *)
Theorem missing_operand (c : ExprContext) (t : Token) (rest : list Token) :
  wfExpr c = true -> ttype t = AND \/ ttype t = OR ->
  extendsPrimary (LA1 rest) = false -> LA1 rest <> Some NOT ->
  start (yieldExpr c ++ t :: rest) = SyntaxError (LT1 rest).
Proof.
  intros Hwf Ht He Hn.
  assert (Hpred : adaptivePredict_2 0 (t :: rest) = 1).
  { unfold adaptivePredict_2. simpl. destruct Ht as [-> | ->]; reflexivity. }
  pose proof (level_bounds c) as Hb.
  destruct (expr_missing_operand c Hwf 0 t rest ltac:(lia) Hpred He Hn) as [n0 Hn0].
  unfold start. rewrite (expr_fuelFor n0 0 _ _ (Hn0 n0 (Nat.le_refl _))) by discriminate.
  reflexivity.
Qed.

(** On ["name:a or name:b and"] and on ["name:a and or name:b"]. *)
Lemma missing_operand_witness :
  start (yieldTraversalAllowedExpr (nameIs "a" 0) ++ [token OR "or" 7]
           ++ yieldTraversalAllowedExpr (nameIs "b" 10) ++ [token AND "and" 17]) =
    SyntaxError None /\
  start (yieldTraversalAllowedExpr (nameIs "a" 0) ++ token AND "and" 7
           :: token OR "or" 11 :: yieldTraversalAllowedExpr (nameIs "b" 14)) =
    SyntaxError (Some (token OR "or" 11)).
Proof.
  split.
  - apply (missing_operand
             (OrExpressionContext (TraversalAllowedExpressionContext (nameIs "a" 0))
                (token OR "or" 7) (TraversalAllowedExpressionContext (nameIs "b" 10)))
             (token AND "and" 17) []); auto; discriminate.
  - apply (missing_operand (TraversalAllowedExpressionContext (nameIs "a" 0))
             (token AND "and" 7)
             (token OR "or" 11 :: yieldTraversalAllowedExpr (nameIs "b" 14))); auto; discriminate.
Defined.




(** *** The first wrong token

    Locality is kept by the ways the rules are put together: returning,
    binding one rule to the next, consuming the first token, and branching on
    the token ahead. *)

Lemma LA1_app (pre rest rest' : list Token) :
  LA1 rest' = LA1 rest \/ quiet (LA1 rest') = true ->
  LA1 (pre ++ rest') = LA1 (pre ++ rest) \/ quiet (LA1 (pre ++ rest')) = true.
Proof. destruct pre; simpl; auto. Qed.

Lemma local_ext {A : Type} (F G : list Token -> Result (A * list Token)) (i : list Token) :
  (forall j, F j = G j) -> isLocal G i -> isLocal F i.
Proof.
  intros E [Hok Herr]. split.
  - intros a rest H. rewrite E in H. destruct (Hok a rest H) as (pre & Hi & Hpre).
    exists pre. split; [exact Hi|]. intros rest' Hr. rewrite E. auto.
  - intros t H. rewrite E in H. destruct (Herr t H) as (pre & post & Hi & Hpost & Hnil).
    exists pre, post. split; [exact Hi|]. split; [intros post'|]; rewrite E; auto.
Qed.

Lemma local_ret {A : Type} (a : A) (i : list Token) : isLocal (fun j => Ok (a, j)) i.
Proof.
  split.
  - intros a' rest H. injection H as <- <-. exists []. split; reflexivity.
  - intros t H. discriminate.
Qed.

Lemma local_bind {A B : Type} (F : list Token -> Result (A * list Token))
    (k : A * list Token -> Result (B * list Token)) (i : list Token) :
  isLocal F i -> (forall a r, isLocal (fun j => k (a, j)) r) ->
  isLocal (fun j => bind (F j) k) i.
Proof.
  intros [Hok Herr] Hk. split.
  - intros b rest H. apply bind_Ok in H. destruct H as ([a r] & HF & HK).
    destruct (Hok a r HF) as (pre & Hi & Hpre).
    destruct (proj1 (Hk a r) b rest HK) as (pre2 & Hr & Hpre2).
    exists (pre ++ pre2). split; [rewrite Hi, Hr; apply app_assoc|].
    intros rest' Hrest. rewrite <- app_assoc. rewrite Hpre.
    + cbn [bind]. apply Hpre2; exact Hrest.
    + rewrite Hr. apply LA1_app; exact Hrest.
  - intros t H. destruct (F i) as [[a r]|e|] eqn:HF; cbn [bind] in H; [| |discriminate].
    + destruct (Hok a r HF) as (pre & Hi & Hpre).
      destruct (proj2 (Hk a r) t H) as (pre2 & post & Hr & Hpost & Hnil).
      exists (pre ++ pre2), post. split; [rewrite Hi, Hr; apply app_assoc|]. split.
      * intros post'. rewrite <- app_assoc. rewrite Hpre; [cbn [bind]; apply Hpost|].
        rewrite Hr. left. destruct pre2; reflexivity.
      * rewrite Hpre; [cbn [bind]; exact Hnil|].
        rewrite Hr. destruct pre2; simpl; auto.
    + injection H as ->. destruct (Herr t HF) as (pre & post & Hi & Hpost & Hnil).
      exists pre, post. split; [exact Hi|].
      split; [intros post'; rewrite Hpost|rewrite Hnil]; reflexivity.
Qed.

Lemma local_cons {A : Type} (F H : list Token -> Result (A * list Token))
    (u : Token) (r : list Token) :
  (forall j, F (u :: j) = H j) -> isLocal H r -> isLocal F (u :: r).
Proof.
  intros E [Hok Herr]. split.
  - intros a rest HF. rewrite E in HF. destruct (Hok a rest HF) as (pre & Hi & Hpre).
    exists (u :: pre). split; [rewrite Hi; reflexivity|].
    intros rest' Hr. simpl. rewrite E. auto.
  - intros t HF. rewrite E in HF. destruct (Herr t HF) as (pre & post & Hi & Hpost & Hnil).
    exists (u :: pre), post. split; [rewrite Hi; reflexivity|].
    split; [intros post'|]; simpl; rewrite E; auto.
Qed.

Lemma local_nil {A : Type} (F : list Token -> Result (A * list Token)) :
  F [] = SyntaxError None -> isLocal F [].
Proof. intros E. split; intros ? ; [intros ?|]; rewrite E; discriminate. Qed.

Lemma local_fail_first {A : Type} (F : list Token -> Result (A * list Token))
    (u : Token) (r : list Token) :
  (forall j, F (u :: j) = SyntaxError (Some u)) -> F [] = SyntaxError None ->
  isLocal F (u :: r).
Proof.
  intros E Hnil. split.
  - intros a rest H. rewrite E in H. discriminate.
  - intros t H. rewrite E in H. injection H as <-.
    exists [], r. repeat split; [intros post'; apply E|exact Hnil].
Qed.

(** [F] and [G] agree on the streams that start with [u]. *)
Lemma local_first {A : Type} (F G : list Token -> Result (A * list Token))
    (u : Token) (r : list Token) :
  (forall j, F (u :: j) = G (u :: j)) -> F [] = SyntaxError None ->
  (forall a, G [] <> Ok (a, [])) ->
  isLocal G (u :: r) -> isLocal F (u :: r).
Proof.
  intros E Hnil Hempty [Hok Herr]. split.
  - intros a rest H. rewrite E in H. destruct (Hok a rest H) as (pre & Hi & Hpre).
    exists pre. split; [exact Hi|]. intros rest' Hr.
    destruct pre as [|v pre].
    + exfalso. apply (Hempty a). apply (Hpre []). right; reflexivity.
    + injection Hi as <- _. simpl. rewrite E. apply (Hpre rest' Hr).
  - intros t H. rewrite E in H. destruct (Herr t H) as (pre & post & Hi & Hpost & Hpre).
    exists pre, post. split; [exact Hi|].
    destruct pre as [|v pre].
    + injection Hi as <- _. split; [intros post'; simpl; rewrite E; apply (Hpost post')|exact Hnil].
    + injection Hi as <- _.
      split; [intros post'; simpl; rewrite E; apply (Hpost post')
             |simpl; rewrite E; exact Hpre].
Qed.

(** [H] runs [G] when the next token passes [guard], and returns [a]
    without consuming anything otherwise. *)
Lemma local_guard {A : Type} (H G : list Token -> Result (A * list Token))
    (guard : option TokenType -> bool) (a : A) (r : list Token) :
  (forall j, guard (LA1 j) = true -> H j = G j) ->
  (forall j, guard (LA1 j) = false -> H j = Ok (a, j)) ->
  (forall la, quiet la = true -> guard la = false) ->
  (forall a', G [] <> Ok (a', [])) ->
  (forall v t, guard (Some (ttype v)) = true -> G [v] <> SyntaxError (Some t)) ->
  (guard (LA1 r) = true -> isLocal G r) ->
  isLocal H r.
Proof.
  intros HG Hexit Hquiet Hempty Hsingle Hloc.
  destruct (guard (LA1 r)) eqn:Hg.
  - destruct (Hloc eq_refl) as [Hok Herr]. destruct r as [|v r]; [simpl in Hg; rewrite (Hquiet None eq_refl) in Hg; discriminate|].
    simpl in Hg. split.
    + intros a' rest HH. rewrite HG in HH by exact Hg.
      destruct (Hok a' rest HH) as (pre & Hi & Hpre).
      exists pre. split; [exact Hi|]. intros rest' Hr.
      destruct pre as [|w pre].
      * exfalso. apply (Hempty a'). apply (Hpre []). right; reflexivity.
      * injection Hi as <- _. rewrite HG by exact Hg. apply (Hpre rest' Hr).
    + intros t HH. rewrite HG in HH by exact Hg.
      destruct (Herr t HH) as (pre & post & Hi & Hpost & Hpre).
      exists pre, post. split; [exact Hi|].
      destruct pre as [|w pre].
      * exfalso. injection Hi as <- _. apply (Hsingle v v Hg). apply (Hpost []).
      * injection Hi as <- _.
        split; [intros post'; rewrite HG by exact Hg; apply Hpost
               |rewrite HG by exact Hg; exact Hpre].
  - split.
    + intros a' rest HH. rewrite Hexit in HH by exact Hg. injection HH as <- <-.
      exists []. split; [reflexivity|]. intros rest' [Hr|Hr]; simpl.
      * apply Hexit. rewrite Hr. exact Hg.
      * apply Hexit. apply Hquiet. exact Hr.
    + intros t HH. rewrite Hexit in HH by exact Hg. discriminate.
Qed.

Lemma match_local (ty : TokenType) (i : list Token) : isLocal (match_ ty) i.
Proof.
  split.
  - intros a rest H. apply match_sound in H. destruct H as [-> Ht].
    exists [a]. split; [reflexivity|]. intros rest' _. apply match_ok; exact Ht.
  - intros t H. destruct i as [|u r]; [discriminate|]. simpl in H.
    destruct (tokenTypeEqb (ttype u) ty) eqn:E; [discriminate|]. injection H as <-.
    exists [], r. repeat split. intros post'. simpl. rewrite E. reflexivity.
Qed.

Lemma value_local (i : list Token) : isLocal value i.
Proof.
  split.
  - intros v rest H. destruct (value_sound _ _ _ H) as [-> Hwf].
    exists (yieldValue v). split; [reflexivity|]. intros rest' _.
    apply value_complete; exact Hwf.
  - intros t H. destruct i as [|u r]; [discriminate|]. simpl in H.
    destruct (ttype u) eqn:E; try discriminate; injection H as <-;
      exists [], r; repeat split; intros post'; simpl; rewrite E; reflexivity.
Qed.

Lemma traversal_local (i : list Token) : isLocal traversal i.
Proof.
  split.
  - intros t rest H. destruct (traversal_sound _ _ _ H) as (-> & Hwf & Hs & Hplus & _).
    exists (yieldTraversal t). split; [reflexivity|]. intros rest' Hr.
    destruct (wfTraversal_cases t Hwf) as [(star & -> & Hstar)|(plus & more & -> & Hp & Hall)].
    + simpl. apply traversal_STAR; exact Hstar.
    + apply traversal_complete; [exact Hwf|].
      assert (Hrest : LA1 rest <> Some PLUS).
      { apply Hplus. simpl. rewrite Hp. reflexivity. }
      destruct Hr as [Hr|Hr]; [congruence|].
      intros E; rewrite E in Hr; discriminate.
  - intros t H.
    assert (Hs : startsTraversal (LA1 i) = false).
    { destruct (startsTraversal (LA1 i)) eqn:E; [|reflexivity].
      destruct (traversal_total _ E) as (c & rest & E'). congruence. }
    rewrite (traversal_error _ Hs) in H. injection H as H.
    destruct i as [|u r]; [discriminate|]. injection H as <-.
    exists [], r. repeat split.
    intros post'. simpl. apply (traversal_error (u :: post')). exact Hs.
Qed.

(** The primary switch of [expr] with its prediction resolved: what the
    switch does on each first token, in terms of the rules alone. *)
Section Fused.

Variable f : list Token -> Result (TraversalAllowedExprContext * list Token).
Variable g : Z -> list Token -> Result (ExprContext * list Token).

Lemma expr_primary_at_NOT (u : Token) (j : list Token) :
  ttype u = NOT ->
  expr_primary f g (u :: j) = '(e, j1) <- g 4 j ;; Ok (NotExpressionContext u e, j1).
Proof.
  intros Hu. unfold expr_primary.
  rewrite sync_expr by (simpl; rewrite Hu; auto). cbn [bind].
  rewrite adaptivePredict_0_NOT by (simpl; rewrite Hu; reflexivity). cbn [bind].
  rewrite match_ok by exact Hu. reflexivity.
Qed.

Lemma expr_primary_at_tae (u : Token) (j : list Token) :
  startsTraversalAllowedExpr (Some (ttype u)) = true ->
  expr_primary f g (u :: j) = '(x, j1) <- f (u :: j) ;; afterTraversalAllowedExpr x j1.
Proof.
  intros Hu. unfold expr_primary.
  rewrite sync_expr by (simpl; auto). cbn [bind].
  destruct (f (u :: j)) as [[x after]| |] eqn:Hf.
  - rewrite (adaptivePredict_0_tae f (u :: j) after x Hu Hf). cbn [bind].
    unfold afterTraversalAllowedExpr.
    destruct (startsTraversal (LA1 after)); rewrite ?Hf; reflexivity.
  - unfold adaptivePredict_0. simpl LA1.
    destruct (ttype u); try discriminate Hu; rewrite ?Hf; reflexivity.
  - unfold adaptivePredict_0. simpl LA1.
    destruct (ttype u); try discriminate Hu; rewrite ?Hf; reflexivity.
Qed.

Lemma expr_primary_at_STAR (u : Token) (j : list Token) :
  ttype u = STAR ->
  expr_primary f g (u :: j) =
  if startsTraversalAllowedExpr (LA1 j) then
    '(x, j1) <- f j ;; afterLeadingTraversal (mkTraversalContext [u]) x j1
  else Ok (AllExpressionContext u, j).
Proof.
  intros Hu.
  destruct (startsTraversalAllowedExpr (LA1 j)) eqn:Hj.
  - unfold expr_primary.
    rewrite sync_expr by (simpl; rewrite Hu; auto). cbn [bind].
    destruct (f j) as [[x after]| |] eqn:Hf.
    + rewrite (adaptivePredict_0_STAR f (u :: j) after x)
        by (simpl; rewrite ?Hu; auto).
      cbn [bind]. unfold afterLeadingTraversal.
      destruct (startsTraversal (LA1 after)); rewrite (traversal_STAR u j Hu); cbn [bind];
        rewrite ?Hf; reflexivity.
    + unfold adaptivePredict_0. simpl LA1. rewrite Hu. simpl tl. rewrite ?Hj, ?Hf. reflexivity.
    + unfold adaptivePredict_0. simpl LA1. rewrite Hu. simpl tl. rewrite ?Hj, ?Hf. reflexivity.
  - apply expr_primary_all; assumption.
Qed.

Lemma expr_primary_at_PLUS (u : Token) (j : list Token) :
  ttype u = PLUS ->
  expr_primary f g (u :: j) =
  '(up, j1) <- traversal (u :: j) ;; '(x, j2) <- f j1 ;; afterLeadingTraversal up x j2.
Proof.
  intros Hu.
  assert (Hla : LA1 (u :: j) = Some PLUS) by (simpl; rewrite Hu; reflexivity).
  destruct (traversal_total (u :: j)) as (up & rest & Ht); [rewrite Hla; reflexivity|].
  destruct (traversal_sound _ _ _ Ht) as (_ & _ & _ & Hplus & _).
  destruct (Hplus Hla) as [_ Hskip].
  rewrite Ht. cbn [bind]. unfold expr_primary.
  rewrite sync_expr by (rewrite Hla; auto). cbn [bind].
  destruct (f rest) as [[x after]| |] eqn:Hf.
  - rewrite (adaptivePredict_0_PLUS f (u :: j) after x Hla) by (rewrite <- Hskip; exact Hf).
    cbn [bind]. unfold afterLeadingTraversal.
    destruct (startsTraversal (LA1 after)); rewrite ?Ht; cbn [bind]; rewrite ?Hf; reflexivity.
  - unfold adaptivePredict_0. rewrite Hla, <- Hskip, ?Hf. reflexivity.
  - unfold adaptivePredict_0. rewrite Hla, <- Hskip, ?Hf. reflexivity.
Qed.

End Fused.

Lemma quiet_not_traversal (la : option TokenType) :
  quiet la = true -> startsTraversal la = false.
Proof. destruct la as [[]|]; simpl; congruence. Qed.

Lemma quiet_not_traversalAllowedExpr (la : option TokenType) :
  quiet la = true -> startsTraversalAllowedExpr la = false.
Proof. destruct la as [[]|]; simpl; congruence. Qed.

Lemma traversal_single (v : Token) (t : option Token) :
  startsTraversal (Some (ttype v)) = true ->
  forall A (k : TraversalContext * list Token -> Result A),
    (forall a, exists b, k a = Ok b) -> bind (traversal [v]) k <> SyntaxError t.
Proof.
  intros Hv A k Hk. destruct (traversal_total [v] Hv) as (c & rest & E).
  rewrite E. cbn [bind]. destruct (Hk (c, rest)) as [b ->]. discriminate.
Qed.

Lemma afterTraversalAllowedExpr_local (x : TraversalAllowedExprContext) (r : list Token) :
  isLocal (afterTraversalAllowedExpr x) r.
Proof.
  apply (local_guard _
           (fun j => '(down, j1) <- traversal j ;; Ok (DownTraversalExpressionContext x down, j1))
           startsTraversal (TraversalAllowedExpressionContext x)).
  - intros j Hg. unfold afterTraversalAllowedExpr. rewrite Hg. reflexivity.
  - intros j Hg. unfold afterTraversalAllowedExpr. rewrite Hg. reflexivity.
  - apply quiet_not_traversal.
  - intros a'. discriminate.
  - intros v t Hg. apply traversal_single; [exact Hg|]. intros [d j1]. eauto.
  - intros _. apply local_bind; [apply traversal_local|].
    intros a r'. apply (local_ret (DownTraversalExpressionContext x a)).
Qed.

Lemma afterLeadingTraversal_local
    (up : TraversalContext) (x : TraversalAllowedExprContext) (r : list Token) :
  isLocal (afterLeadingTraversal up x) r.
Proof.
  apply (local_guard _
           (fun j => '(down, j1) <- traversal j ;;
                     Ok (UpAndDownTraversalExpressionContext up x down, j1))
           startsTraversal (UpTraversalExpressionContext up x)).
  - intros j Hg. unfold afterLeadingTraversal. rewrite Hg. reflexivity.
  - intros j Hg. unfold afterLeadingTraversal. rewrite Hg. reflexivity.
  - apply quiet_not_traversal.
  - intros a'. discriminate.
  - intros v t Hg. apply traversal_single; [exact Hg|]. intros [d j1]. eauto.
  - intros _. apply local_bind; [apply traversal_local|].
    intros a r'. apply (local_ret (UpAndDownTraversalExpressionContext up x a)).
Qed.

(** The primary switch is local when the two rules it calls are. *)
Section PrimaryLocal.

Variable f : list Token -> Result (TraversalAllowedExprContext * list Token).
Variable g : Z -> list Token -> Result (ExprContext * list Token).

Hypothesis f_local : forall j, isLocal f j.
Hypothesis g_local : forall p j, isLocal (g p) j.
Hypothesis f_nil : f [] = SyntaxError None \/ f [] = OutOfFuel.
Hypothesis f_single : forall v,
  startsTraversalAllowedExpr (Some (ttype v)) = true ->
  f [v] = SyntaxError None \/ f [v] = OutOfFuel.

Lemma expr_primary_after_tae_local (u : Token) (r : list Token) :
  startsTraversalAllowedExpr (Some (ttype u)) = true -> isLocal (expr_primary f g) (u :: r).
Proof.
  intros Hu.
  apply (local_first _ (fun j => '(x, j1) <- f j ;; afterTraversalAllowedExpr x j1)).
  - intros j. apply expr_primary_at_tae; exact Hu.
  - reflexivity.
  - intros a. destruct f_nil as [E|E]; rewrite E; discriminate.
  - apply local_bind; [apply f_local|]. intros x r'. apply afterTraversalAllowedExpr_local.
Qed.

Lemma expr_primary_local (i : list Token) : isLocal (expr_primary f g) i.
Proof.
  destruct i as [|u r]; [apply local_nil; reflexivity|].
  destruct (ttype u) eqn:Hu;
    try (apply expr_primary_after_tae_local; rewrite Hu; reflexivity);
    try (apply local_fail_first; [|reflexivity];
         intros j; apply (expr_primary_sync_error f g (u :: j));
         simpl; rewrite Hu; [reflexivity|discriminate]).
  - (* NOT *)
    apply (local_cons _ (fun j => '(e, j1) <- g 4 j ;; Ok (NotExpressionContext u e, j1))).
    + intros j. apply expr_primary_at_NOT; exact Hu.
    + apply local_bind; [apply g_local|].
      intros e r'. apply (local_ret (NotExpressionContext u e)).
  - (* STAR *)
    apply (local_cons _
             (fun j => if startsTraversalAllowedExpr (LA1 j) then
                         '(x, j1) <- f j ;; afterLeadingTraversal (mkTraversalContext [u]) x j1
                       else Ok (AllExpressionContext u, j))).
    + intros j. apply expr_primary_at_STAR; exact Hu.
    + apply (local_guard _
               (fun j => '(x, j1) <- f j ;; afterLeadingTraversal (mkTraversalContext [u]) x j1)
               startsTraversalAllowedExpr (AllExpressionContext u)).
      * intros j Hg. cbn beta. rewrite Hg. reflexivity.
      * intros j Hg. cbn beta. rewrite Hg. reflexivity.
      * apply quiet_not_traversalAllowedExpr.
      * intros a. destruct f_nil as [E|E]; rewrite E; discriminate.
      * intros v t Hg. destruct (f_single v Hg) as [E|E]; rewrite E; discriminate.
      * intros _. apply local_bind; [apply f_local|].
        intros x r'. apply afterLeadingTraversal_local.
  - (* PLUS *)
    apply (local_first _
             (fun j => '(up, j1) <- traversal j ;; '(x, j2) <- f j1 ;;
                       afterLeadingTraversal up x j2)).
    + intros j. apply expr_primary_at_PLUS; exact Hu.
    + reflexivity.
    + intros a. discriminate.
    + apply local_bind; [apply traversal_local|]. intros up r1. cbn beta iota.
      apply local_bind; [apply f_local|]. intros x r2. apply afterLeadingTraversal_local.
Qed.

End PrimaryLocal.

Lemma attributeExpr_local (i : list Token) : isLocal attributeExpr i.
Proof.
  destruct i as [|u r]; [apply local_nil; reflexivity|].
  destruct (ttype u) eqn:Hu;
    try (apply local_fail_first; [|reflexivity];
         intros j; unfold attributeExpr, sync; simpl; rewrite Hu; reflexivity).
  - apply (local_cons _
             (fun j => '(colon, j1) <- match_ COLON j ;; '(v, j2) <- value j1 ;;
                       Ok (NameExprContext u colon v, j2))).
    + intros j. unfold attributeExpr, sync. simpl LA1. rewrite Hu. simpl existsb. cbn [bind].
      rewrite match_ok by exact Hu. reflexivity.
    + apply local_bind; [apply match_local|]. intros colon r1. cbn beta iota.
      apply local_bind; [apply value_local|]. intros v r2.
      apply (local_ret (NameExprContext u colon v)).
  - apply (local_cons _
             (fun j => '(colon, j1) <- match_ COLON j ;; '(v, j2) <- value j1 ;;
                       Ok (NameSubstringExprContext u colon v, j2))).
    + intros j. unfold attributeExpr, sync. simpl LA1. rewrite Hu. simpl existsb. cbn [bind].
      rewrite match_ok by exact Hu. reflexivity.
    + apply local_bind; [apply match_local|]. intros colon r1. cbn beta iota.
      apply local_bind; [apply value_local|]. intros v r2.
      apply (local_ret (NameSubstringExprContext u colon v)).
Qed.

Lemma local_out_of_fuel {A : Type} (F : list Token -> Result (A * list Token))
    (i : list Token) :
  F i = OutOfFuel -> isLocal F i.
Proof. intros E. split; intros ? ; [intros ?|]; rewrite E; discriminate. Qed.

Lemma traversalAllowedExpr_nil (n : nat) :
  traversalAllowedExpr n [] = SyntaxError None \/ traversalAllowedExpr n [] = OutOfFuel.
Proof. destruct n; [right|left]; reflexivity. Qed.

Lemma traversalAllowedExpr_single (n : nat) (v : Token) :
  startsTraversalAllowedExpr (Some (ttype v)) = true ->
  traversalAllowedExpr n [v] = SyntaxError None \/ traversalAllowedExpr n [v] = OutOfFuel.
Proof.
  intros Hv. destruct n as [|n]; [right; reflexivity|].
  destruct (ttype v) eqn:E; try discriminate Hv.
  - rewrite traversalAllowedExpr_LPAREN by exact E.
    destruct n as [|n]; [right|left]; reflexivity.
  - left. rewrite traversalAllowedExpr_attribute by (simpl; rewrite E; auto).
    unfold attributeExpr, sync. simpl LA1. rewrite E. simpl existsb. cbn [bind].
    rewrite match_ok by exact E. reflexivity.
  - left. rewrite traversalAllowedExpr_attribute by (simpl; rewrite E; auto).
    unfold attributeExpr, sync. simpl LA1. rewrite E. simpl existsb. cbn [bind].
    rewrite match_ok by exact E. reflexivity.
Qed.

Lemma adaptivePredict_2_LA1 (p : Z) (i j : list Token) :
  LA1 j = LA1 i \/ quiet (LA1 j) = true ->
  adaptivePredict_2 p i = 2 -> adaptivePredict_2 p j = 2.
Proof.
  unfold adaptivePredict_2. intros [E|E].
  - rewrite E. auto.
  - destruct (LA1 j) as [[]|]; try discriminate E; reflexivity.
Qed.

(** Every rule is local at every stream, whatever the fuel. *)
Lemma rules_local (n : nat) :
  (forall p i, isLocal (expr n p) i) /\
  (forall p c i, isLocal (expr_loop n p c) i) /\
  (forall i, isLocal (traversalAllowedExpr n) i).
Proof.
  induction n as [|n (IHe & IHl & IHt)].
  { split; [|split]; intros; apply local_out_of_fuel; reflexivity. }
  split; [|split].
  - intros p i. apply (local_ext _ _ _ (expr_S n p)).
    apply local_bind.
    + apply expr_primary_local; auto using traversalAllowedExpr_nil, traversalAllowedExpr_single.
    + intros c r. apply IHl.
  - intros p c i.
    destruct (adaptivePredict_2_cases p i) as [Hp|Hp].
    + destruct i as [|u r]; [discriminate|].
      unfold adaptivePredict_2, precpred in Hp. simpl LA1 in Hp.
      destruct (ttype u) eqn:Hu; try discriminate.
      * destruct (p <=? 3) eqn:E; [|discriminate]. apply Z.leb_le in E.
        apply (local_cons _
                 (fun j => '(e1, j1) <- expr n 4 j ;;
                           expr_loop n p (AndExpressionContext c u e1) j1)).
        { intros j. apply expr_loop_AND; assumption. }
        apply local_bind; [apply IHe|]. intros e1 r1. apply IHl.
      * destruct (p <=? 2) eqn:E; [|discriminate]. apply Z.leb_le in E.
        apply (local_cons _
                 (fun j => '(e1, j1) <- expr n 3 j ;;
                           expr_loop n p (OrExpressionContext c u e1) j1)).
        { intros j. apply expr_loop_OR; assumption. }
        apply local_bind; [apply IHe|]. intros e1 r1. apply IHl.
    + split.
      * intros a rest H. rewrite expr_loop_exit in H by exact Hp. injection H as <- <-.
        exists []. split; [reflexivity|]. intros rest' Hr. simpl.
        apply expr_loop_exit. apply (adaptivePredict_2_LA1 p i); assumption.
      * intros t H. rewrite expr_loop_exit in H by exact Hp. discriminate.
  - intros i. destruct i as [|u r]; [apply local_nil; reflexivity|].
    destruct (ttype u) eqn:Hu;
      try (apply local_fail_first; [|reflexivity];
           intros j; apply (traversalAllowedExpr_error n (u :: j));
           simpl; rewrite Hu; reflexivity).
    + (* LPAREN *)
      apply (local_cons _
               (fun j => '(e, j1) <- expr n 0 j ;; '(rparen, j2) <- match_ RPAREN j1 ;;
                         Ok (ParenthesizedExpressionContext u e rparen, j2))).
      { intros j. apply traversalAllowedExpr_LPAREN; exact Hu. }
      apply local_bind; [apply IHe|]. intros e r1. cbn beta iota.
      apply local_bind; [apply match_local|]. intros rparen r2.
      apply (local_ret (ParenthesizedExpressionContext u e rparen)).
    + (* NAME *)
      apply (local_first _
               (fun j => '(a, j1) <- attributeExpr j ;; Ok (AttributeExpressionContext a, j1))).
      * intros j. apply traversalAllowedExpr_attribute. simpl. rewrite Hu. auto.
      * reflexivity.
      * intros a. discriminate.
      * apply local_bind; [apply attributeExpr_local|].
        intros a r1. apply (local_ret (AttributeExpressionContext a)).
    + (* NAME_SUBSTRING *)
      apply (local_first _
               (fun j => '(a, j1) <- attributeExpr j ;; Ok (AttributeExpressionContext a, j1))).
      * intros j. apply traversalAllowedExpr_attribute. simpl. rewrite Hu. auto.
      * reflexivity.
      * intros a. discriminate.
      * apply local_bind; [apply attributeExpr_local|].
        intros a r1. apply (local_ret (AttributeExpressionContext a)).
Qed.

(** [start]: an error at a token stays where it is whatever follows the
    token, and the stream cut before the token is accepted or stops short. *)
Lemma start_error_local (input : list Token) (t : Token) :
  start input = SyntaxError (Some t) ->
  exists pre post, input = pre ++ t :: post /\
    (forall post', start (pre ++ t :: post') = SyntaxError (Some t)) /\
    (start pre = SyntaxError None \/ exists s, start pre = Ok s).
Proof.
  unfold start. destruct (rules_local (fuelFor input)) as (He & _ & _).
  destruct (He 0 input) as [Hok Herr].
  destruct (expr (fuelFor input) 0 input) as [[c rest]|e|] eqn:E; cbn [bind]; [| |discriminate].
  - destruct rest as [|u rest]; simpl; [discriminate|]. intros H. injection H as <-.
    destruct (Hok c _ E) as (pre & Hi & Hpre).
    exists pre, rest. split; [exact Hi|]. split.
    + intros post'.
      rewrite (expr_fuelFor _ 0 _ _ (Hpre (u :: post') (or_introl eq_refl))) by discriminate.
      reflexivity.
    + right. exists (mkStartContext c).
      pose proof (Hpre [] (or_intror eq_refl)) as H0. rewrite app_nil_r in H0.
      rewrite (expr_fuelFor _ 0 _ _ H0) by discriminate. reflexivity.
  - intros H. injection H as ->.
    destruct (Herr t E) as (pre & post & Hi & Hpost & Hnil).
    exists pre, post. split; [exact Hi|]. split.
    + intros post'. rewrite (expr_fuelFor _ 0 _ _ (Hpost post')) by discriminate. reflexivity.
    + left. rewrite (expr_fuelFor _ 0 _ _ Hnil) by discriminate. reflexivity.
Qed.

(** Completing a stream that stops short: an outcome that is not a lack of
    fuel is kept by more fuel, and each rule that fails at the end of file
    can be handed the tokens it still wants. *)

Lemma expr_eventually (n : nat) (p : Z) (j : list Token) r :
  expr n p j = r -> r <> OutOfFuel -> eventually (fun m => expr m p j) r.
Proof.
  intros E Hr. exists n. intros m Hm. destruct (fuel_mono n m Hm) as (He & _ & _).
  destruct (He p j) as [H|H]; congruence.
Qed.

Lemma expr_loop_eventually (n : nat) (p : Z) (c : ExprContext) (j : list Token) r :
  expr_loop n p c j = r -> r <> OutOfFuel -> eventually (fun m => expr_loop m p c j) r.
Proof.
  intros E Hr. exists n. intros m Hm. destruct (fuel_mono n m Hm) as (_ & Hl & _).
  destruct (Hl p c j) as [H|H]; congruence.
Qed.

Lemma traversalAllowedExpr_eventually (n : nat) (j : list Token) r :
  traversalAllowedExpr n j = r -> r <> OutOfFuel ->
  eventually (fun m => traversalAllowedExpr m j) r.
Proof.
  intros E Hr. exists n. intros m Hm. destruct (fuel_mono n m Hm) as (_ & _ & Ht).
  destruct (Ht j) as [H|H]; congruence.
Qed.

Lemma expr_primary_eventually (n : nat) (j : list Token) r :
  expr_primary (traversalAllowedExpr n) (expr n) j = r -> r <> OutOfFuel ->
  eventually (fun m => expr_primary (traversalAllowedExpr m) (expr m) j) r.
Proof.
  intros E Hr. exists n. intros m Hm. destruct (fuel_mono n m Hm) as (He & _ & Ht).
  destruct (expr_primary_mono _ _ _ _ j Ht He) as [H|H]; congruence.
Qed.

Lemma eventually_loop_exit (p : Z) (c : ExprContext) (rest : list Token) :
  quiet (LA1 rest) = true -> eventually (fun m => expr_loop m p c rest) (Ok (c, rest)).
Proof.
  intros Hq. exists 1%nat. intros m Hm. destruct m as [|m]; [lia|].
  apply expr_loop_exit. unfold adaptivePredict_2.
  destruct (LA1 rest) as [[]|]; try discriminate Hq; reflexivity.
Qed.

Lemma eventually_expr (p : Z) (c : ExprContext) (input rest : list Token) :
  quiet (LA1 rest) = true ->
  eventually (fun m => expr_primary (traversalAllowedExpr m) (expr m) input) (Ok (c, rest)) ->
  eventually (fun m => expr m p input) (Ok (c, rest)).
Proof.
  intros Hq Hp. eapply eventually_primary; [exact Hp|]. apply eventually_loop_exit; exact Hq.
Qed.

Lemma eventually_LPAREN (u rp : Token) (e : ExprContext) (j rest : list Token) :
  ttype u = LPAREN -> ttype rp = RPAREN ->
  eventually (fun m => expr m 0 j) (Ok (e, rp :: rest)) ->
  eventually (fun m => traversalAllowedExpr m (u :: j))
             (Ok (ParenthesizedExpressionContext u e rp, rest)).
Proof.
  intros Hu Hrp [n0 Hn0]. exists (S n0). intros m Hm. destruct m as [|m]; [lia|].
  rewrite traversalAllowedExpr_LPAREN by exact Hu. rewrite Hn0 by lia. cbn [bind].
  rewrite match_ok by exact Hrp. reflexivity.
Qed.

Lemma eventually_AND (p : Z) (c e : ExprContext) (u : Token) (j r1 : list Token) res :
  ttype u = AND -> p <= 3 ->
  eventually (fun m => expr m 4 j) (Ok (e, r1)) ->
  eventually (fun m => expr_loop m p (AndExpressionContext c u e) r1) res ->
  eventually (fun m => expr_loop m p c (u :: j)) res.
Proof.
  intros Hu Hp [n1 H1] [n2 H2]. exists (S (Nat.max n1 n2)). intros m Hm.
  destruct m as [|m]; [lia|].
  rewrite expr_loop_AND by assumption. rewrite H1 by lia. cbn [bind]. apply H2. lia.
Qed.

Lemma eventually_OR (p : Z) (c e : ExprContext) (u : Token) (j r1 : list Token) res :
  ttype u = OR -> p <= 2 ->
  eventually (fun m => expr m 3 j) (Ok (e, r1)) ->
  eventually (fun m => expr_loop m p (OrExpressionContext c u e) r1) res ->
  eventually (fun m => expr_loop m p c (u :: j)) res.
Proof.
  intros Hu Hp [n1 H1] [n2 H2]. exists (S (Nat.max n1 n2)). intros m Hm.
  destruct m as [|m]; [lia|].
  rewrite expr_loop_OR by assumption. rewrite H1 by lia. cbn [bind]. apply H2. lia.
Qed.

Lemma eventually_anyAttribute (rest : list Token) :
  eventually (fun m => traversalAllowedExpr m (yieldAttributeExpr anyAttribute ++ rest))
             (Ok (AttributeExpressionContext anyAttribute, rest)).
Proof.
  exists 1%nat. intros m Hm. destruct m as [|m]; [lia|].
  rewrite traversalAllowedExpr_attribute by (left; reflexivity).
  rewrite attributeExpr_complete by reflexivity. reflexivity.
Qed.

Lemma attributeExpr_completable (i : list Token) :
  attributeExpr i = SyntaxError None ->
  exists ext a, forall rest', attributeExpr (i ++ ext ++ rest') = Ok (a, rest').
Proof.
  intros H. destruct i as [|u r].
  { exists (yieldAttributeExpr anyAttribute), anyAttribute. intros rest'.
    apply (attributeExpr_complete anyAttribute). reflexivity. }
  assert (Hu : ttype u = NAME \/ ttype u = NAME_SUBSTRING).
  { unfold attributeExpr, sync in H. simpl LA1 in H.
    destruct (ttype u); simpl in H; try discriminate H; auto. }
  assert (Hr : r = [] \/ exists c, r = [c] /\ ttype c = COLON).
  { unfold attributeExpr, sync in H. simpl LA1 in H.
    destruct Hu as [Hu|Hu]; rewrite Hu in H; simpl existsb in H; cbn [bind] in H;
      rewrite match_ok in H by exact Hu; cbn [bind] in H;
      (destruct r as [|c r]; [left; reflexivity|right]);
      simpl in H; destruct (tokenTypeEqb (ttype c) COLON) eqn:Hc; try discriminate H;
      apply tokenTypeEqb_eq in Hc; cbn [bind] in H;
      (destruct r as [|v r]; [eauto|]);
      simpl in H; destruct (ttype v); discriminate H. }
  destruct Hr as [->|(c & -> & Hc)].
  - destruct Hu as [Hu|Hu].
    + exists [mkToken COLON ":" 0; mkToken UNQUOTED_STRING "x" 0],
        (NameExprContext u (mkToken COLON ":" 0) (mkValueContext (mkToken UNQUOTED_STRING "x" 0))).
      intros rest'.
      apply (attributeExpr_complete
               (NameExprContext u (mkToken COLON ":" 0)
                  (mkValueContext (mkToken UNQUOTED_STRING "x" 0)))).
      simpl. rewrite (proj2 (hasType_eq _ _) Hu). reflexivity.
    + exists [mkToken COLON ":" 0; mkToken UNQUOTED_STRING "x" 0],
        (NameSubstringExprContext u (mkToken COLON ":" 0)
           (mkValueContext (mkToken UNQUOTED_STRING "x" 0))).
      intros rest'.
      apply (attributeExpr_complete
               (NameSubstringExprContext u (mkToken COLON ":" 0)
                  (mkValueContext (mkToken UNQUOTED_STRING "x" 0)))).
      simpl. rewrite (proj2 (hasType_eq _ _) Hu). reflexivity.
  - destruct Hu as [Hu|Hu].
    + exists [mkToken UNQUOTED_STRING "x" 0],
        (NameExprContext u c (mkValueContext (mkToken UNQUOTED_STRING "x" 0))).
      intros rest'.
      apply (attributeExpr_complete
               (NameExprContext u c (mkValueContext (mkToken UNQUOTED_STRING "x" 0)))).
      simpl. rewrite (proj2 (hasType_eq _ _) Hu), (proj2 (hasType_eq _ _) Hc). reflexivity.
    + exists [mkToken UNQUOTED_STRING "x" 0],
        (NameSubstringExprContext u c (mkValueContext (mkToken UNQUOTED_STRING "x" 0))).
      intros rest'.
      apply (attributeExpr_complete
               (NameSubstringExprContext u c (mkValueContext (mkToken UNQUOTED_STRING "x" 0)))).
      simpl. rewrite (proj2 (hasType_eq _ _) Hu), (proj2 (hasType_eq _ _) Hc). reflexivity.
Qed.

Lemma bind_eof {A B : Type} (r : Result A) (k : A -> Result B) :
  bind r k = SyntaxError None ->
  r = SyntaxError None \/ exists a, r = Ok a /\ k a = SyntaxError None.
Proof.
  destruct r as [a|e|]; simpl; intros H; [right; eauto| |discriminate].
  left. injection H as ->. reflexivity.
Qed.

Lemma after_traversal_not_eof {A : Type} (k : TraversalContext * list Token -> Result A)
    (r : list Token) :
  startsTraversal (LA1 r) = true -> (forall a, exists b, k a = Ok b) ->
  bind (traversal r) k <> SyntaxError None.
Proof.
  intros Hs Hk. destruct (traversal_total r Hs) as (c & rest & E). rewrite E. cbn [bind].
  destruct (Hk (c, rest)) as [b ->]. discriminate.
Qed.

Lemma afterTraversalAllowedExpr_not_eof (x : TraversalAllowedExprContext) (r : list Token) :
  afterTraversalAllowedExpr x r <> SyntaxError None.
Proof.
  unfold afterTraversalAllowedExpr. destruct (startsTraversal (LA1 r)) eqn:E; [|discriminate].
  apply after_traversal_not_eof; [exact E|]. intros [d j]. eauto.
Qed.

Lemma afterLeadingTraversal_not_eof up (x : TraversalAllowedExprContext) (r : list Token) :
  afterLeadingTraversal up x r <> SyntaxError None.
Proof.
  unfold afterLeadingTraversal. destruct (startsTraversal (LA1 r)) eqn:E; [|discriminate].
  apply after_traversal_not_eof; [exact E|]. intros [d j]. eauto.
Qed.

Lemma afterTraversalAllowedExpr_quiet (x : TraversalAllowedExprContext) (r : list Token) :
  quiet (LA1 r) = true ->
  afterTraversalAllowedExpr x r = Ok (TraversalAllowedExpressionContext x, r).
Proof.
  intros Hq. unfold afterTraversalAllowedExpr. rewrite (quiet_not_traversal _ Hq). reflexivity.
Qed.

Lemma afterLeadingTraversal_quiet up (x : TraversalAllowedExprContext) (r : list Token) :
  quiet (LA1 r) = true ->
  afterLeadingTraversal up x r = Ok (UpTraversalExpressionContext up x, r).
Proof.
  intros Hq. unfold afterLeadingTraversal. rewrite (quiet_not_traversal _ Hq). reflexivity.
Qed.

Lemma LA1_app_cons (u : Token) (r more : list Token) : LA1 ((u :: r) ++ more) = LA1 (u :: r).
Proof. reflexivity. Qed.

(** The primary switch is completable when the two rules it calls are. *)
Section PrimaryCompletable.

Variable n : nat.
Hypothesis expr_completable : forall p i, completable (fun m => expr m p) n i.
Hypothesis tae_completable : forall i, completable traversalAllowedExpr n i.

Lemma expr_primary_completable (i : list Token) :
  completable (fun m => expr_primary (traversalAllowedExpr m) (expr m)) n i.
Proof.
  intros H. destruct i as [|u r].
  { (* an expression is due: [name:x] *)
    exists (yieldAttributeExpr anyAttribute),
      (TraversalAllowedExpressionContext (AttributeExpressionContext anyAttribute)).
    intros rest' Hq. destruct (eventually_anyAttribute rest') as [n0 Hn0].
    exists n0. intros m Hm.
    apply (expr_primary_untraversed _ _ (AttributeExpressionContext anyAttribute) rest');
      [reflexivity|apply quiet_not_traversal; exact Hq|apply Hn0; exact Hm]. }
  destruct (ttype u) eqn:Hu;
    try (rewrite (expr_primary_sync_error _ _ (u :: r)) in H
           by (simpl; rewrite Hu; first [reflexivity|discriminate]);
         discriminate H).
  - (* NOT *)
    rewrite expr_primary_at_NOT in H by exact Hu.
    apply bind_eof in H. destruct H as [H|([e r1] & _ & H)]; [|discriminate H].
    destruct (expr_completable 4 r H) as (ext & e & Hext).
    exists ext, (NotExpressionContext u e). intros rest' Hq.
    destruct (Hext rest' Hq) as [n0 Hn0]. exists n0. intros m Hm.
    simpl app. rewrite expr_primary_at_NOT by exact Hu. rewrite Hn0 by exact Hm. reflexivity.
  - (* STAR *)
    rewrite expr_primary_at_STAR in H by exact Hu.
    destruct (startsTraversalAllowedExpr (LA1 r)) eqn:Hr; [|discriminate H].
    apply bind_eof in H. destruct H as [H|([x r1] & _ & H)];
      [|exfalso; exact (afterLeadingTraversal_not_eof _ _ _ H)].
    destruct (tae_completable r H) as (ext & x & Hext).
    exists ext, (UpTraversalExpressionContext (mkTraversalContext [u]) x). intros rest' Hq.
    destruct (Hext rest' Hq) as [n0 Hn0]. exists n0. intros m Hm.
    simpl app. rewrite expr_primary_at_STAR by exact Hu.
    destruct r as [|v r]; [discriminate Hr|]. rewrite LA1_app_cons, Hr.
    rewrite Hn0 by exact Hm. cbn [bind]. apply afterLeadingTraversal_quiet; exact Hq.
  - (* PLUS *)
    rewrite expr_primary_at_PLUS in H by exact Hu.
    apply bind_eof in H.
    destruct H as [H|([up r1] & Hup & H)].
    { exfalso. destruct (traversal_total (u :: r)) as (c & rest & E);
        [simpl; rewrite Hu; reflexivity|congruence]. }
    apply bind_eof in H. destruct H as [H|([x r2] & _ & H)];
      [|exfalso; exact (afterLeadingTraversal_not_eof _ _ _ H)].
    destruct (traversal_sound _ _ _ Hup) as (Hi & Hwf & _ & Hplus & _).
    assert (Hr1 : LA1 r1 <> Some PLUS).
    { apply Hplus. simpl. rewrite Hu. reflexivity. }
    destruct r1 as [|v r1].
    + exists (yieldAttributeExpr anyAttribute),
        (UpTraversalExpressionContext up (AttributeExpressionContext anyAttribute)).
      intros rest' Hq. destruct (eventually_anyAttribute rest') as [n0 Hn0].
      exists n0. intros m Hm. rewrite Hi, app_nil_r.
      apply (expr_primary_up _ _ up (AttributeExpressionContext anyAttribute) rest');
        [exact Hwf|reflexivity|apply quiet_not_traversal; exact Hq|apply Hn0; exact Hm].
    + destruct (tae_completable (v :: r1) H) as (ext & x & Hext).
      exists ext, (UpTraversalExpressionContext up x). intros rest' Hq.
      destruct (Hext rest' Hq) as [n0 Hn0]. exists n0. intros m Hm.
      simpl app. rewrite expr_primary_at_PLUS by exact Hu.
      replace (u :: r ++ ext ++ rest') with (yieldTraversal up ++ (v :: r1) ++ ext ++ rest')
        by (rewrite app_assoc, <- Hi; reflexivity).
      rewrite traversal_complete by (auto; simpl in Hr1 |- *; exact Hr1). cbn [bind].
      rewrite Hn0 by exact Hm. cbn [bind]. apply afterLeadingTraversal_quiet; exact Hq.
  - (* LPAREN *)
    rewrite expr_primary_at_tae in H by (rewrite Hu; reflexivity).
    apply bind_eof in H. destruct H as [H|([x r1] & _ & H)];
      [|exfalso; exact (afterTraversalAllowedExpr_not_eof _ _ H)].
    destruct (tae_completable (u :: r) H) as (ext & x & Hext).
    exists ext, (TraversalAllowedExpressionContext x). intros rest' Hq.
    destruct (Hext rest' Hq) as [n0 Hn0]. exists n0. intros m Hm.
    simpl app. rewrite expr_primary_at_tae by (rewrite Hu; reflexivity).
    simpl app in Hn0. rewrite Hn0 by exact Hm. cbn [bind].
    apply afterTraversalAllowedExpr_quiet; exact Hq.
  - (* NAME *)
    rewrite expr_primary_at_tae in H by (rewrite Hu; reflexivity).
    apply bind_eof in H. destruct H as [H|([x r1] & _ & H)];
      [|exfalso; exact (afterTraversalAllowedExpr_not_eof _ _ H)].
    destruct (tae_completable (u :: r) H) as (ext & x & Hext).
    exists ext, (TraversalAllowedExpressionContext x). intros rest' Hq.
    destruct (Hext rest' Hq) as [n0 Hn0]. exists n0. intros m Hm.
    simpl app. rewrite expr_primary_at_tae by (rewrite Hu; reflexivity).
    simpl app in Hn0. rewrite Hn0 by exact Hm. cbn [bind].
    apply afterTraversalAllowedExpr_quiet; exact Hq.
  - (* NAME_SUBSTRING *)
    rewrite expr_primary_at_tae in H by (rewrite Hu; reflexivity).
    apply bind_eof in H. destruct H as [H|([x r1] & _ & H)];
      [|exfalso; exact (afterTraversalAllowedExpr_not_eof _ _ H)].
    destruct (tae_completable (u :: r) H) as (ext & x & Hext).
    exists ext, (TraversalAllowedExpressionContext x). intros rest' Hq.
    destruct (Hext rest' Hq) as [n0 Hn0]. exists n0. intros m Hm.
    simpl app. rewrite expr_primary_at_tae by (rewrite Hu; reflexivity).
    simpl app in Hn0. rewrite Hn0 by exact Hm. cbn [bind].
    apply afterTraversalAllowedExpr_quiet; exact Hq.
Qed.

End PrimaryCompletable.

Lemma expr_loop_nil (n : nat) (p : Z) (c : ExprContext) :
  expr_loop n p c [] <> SyntaxError None.
Proof. destruct n; [discriminate|]. rewrite expr_loop_exit by reflexivity. discriminate. Qed.

Lemma match_eof (ty : TokenType) (r : list Token) :
  match_ ty r = SyntaxError None -> r = [].
Proof.
  destruct r as [|u r]; [reflexivity|]. simpl.
  destruct (tokenTypeEqb (ttype u) ty); discriminate.
Qed.

(** Every rule is completable at every stream. *)
Lemma rules_completable (n : nat) :
  (forall p i, completable (fun m => expr m p) n i) /\
  (forall p c i, completable (fun m => expr_loop m p c) n i) /\
  (forall i, completable traversalAllowedExpr n i).
Proof.
  induction n as [|n (IHe & IHl & IHt)].
  { split; [|split]; intros; intros H; discriminate H. }
  split; [|split].
  - (* expr *)
    intros p i H. cbn beta in H. rewrite expr_S in H.
    apply bind_eof in H. destruct H as [H|([c r1] & Hc & H)].
    + destruct (expr_primary_completable n IHe IHt i H) as (ext & c & Hext).
      exists ext, c. intros rest' Hq. apply eventually_expr; auto.
    + destruct (IHl p c r1 H) as (ext & c' & Hext).
      destruct (proj1 (expr_primary_local _ _ (proj2 (proj2 (rules_local n)))
                         (proj1 (rules_local n))
                         (traversalAllowedExpr_nil n) (traversalAllowedExpr_single n) i)
                  c r1 Hc) as (pre & Hi & Hpre).
      exists ext, c'. intros rest' Hq.
      destruct r1 as [|v r1]; [exfalso; exact (expr_loop_nil _ _ _ H)|].
      eapply eventually_primary; [|apply Hext; exact Hq].
      rewrite Hi, <- app_assoc.
      apply (expr_primary_eventually n).
      * apply Hpre. left. reflexivity.
      * discriminate.
  - (* expr_loop *)
    intros p c i H. cbn beta in H.
    destruct (adaptivePredict_2_cases p i) as [Hp|Hp];
      [|rewrite expr_loop_exit in H by exact Hp; discriminate H].
    destruct i as [|u r]; [discriminate Hp|].
    unfold adaptivePredict_2, precpred in Hp. simpl LA1 in Hp.
    destruct (ttype u) eqn:Hu; try discriminate Hp.
    + destruct (p <=? 3) eqn:E; [|discriminate]. apply Z.leb_le in E.
      rewrite expr_loop_AND in H by assumption.
      apply bind_eof in H. destruct H as [H|([e r1] & He & H)].
      * destruct (IHe 4 r H) as (ext & e & Hext).
        exists ext, (AndExpressionContext c u e). intros rest' Hq. simpl app.
        eapply eventually_AND; [exact Hu|exact E|apply Hext; exact Hq|].
        apply eventually_loop_exit; exact Hq.
      * destruct (IHl p _ r1 H) as (ext & c' & Hext).
        destruct (proj1 (proj1 (rules_local n) 4 r) e r1 He) as (pre & Hi & Hpre).
        exists ext, c'. intros rest' Hq.
        destruct r1 as [|v r1]; [exfalso; exact (expr_loop_nil _ _ _ H)|].
        simpl app. eapply eventually_AND; [exact Hu|exact E| |apply Hext; exact Hq].
        rewrite Hi, <- app_assoc. apply (expr_eventually n); [|discriminate].
        apply Hpre. left. reflexivity.
    + destruct (p <=? 2) eqn:E; [|discriminate]. apply Z.leb_le in E.
      rewrite expr_loop_OR in H by assumption.
      apply bind_eof in H. destruct H as [H|([e r1] & He & H)].
      * destruct (IHe 3 r H) as (ext & e & Hext).
        exists ext, (OrExpressionContext c u e). intros rest' Hq. simpl app.
        eapply eventually_OR; [exact Hu|exact E|apply Hext; exact Hq|].
        apply eventually_loop_exit; exact Hq.
      * destruct (IHl p _ r1 H) as (ext & c' & Hext).
        destruct (proj1 (proj1 (rules_local n) 3 r) e r1 He) as (pre & Hi & Hpre).
        exists ext, c'. intros rest' Hq.
        destruct r1 as [|v r1]; [exfalso; exact (expr_loop_nil _ _ _ H)|].
        simpl app. eapply eventually_OR; [exact Hu|exact E| |apply Hext; exact Hq].
        rewrite Hi, <- app_assoc. apply (expr_eventually n); [|discriminate].
        apply Hpre. left. reflexivity.
  - (* traversalAllowedExpr *)
    intros i H. destruct i as [|u r].
    { exists (yieldAttributeExpr anyAttribute), (AttributeExpressionContext anyAttribute).
      intros rest' _. apply eventually_anyAttribute. }
    destruct (ttype u) eqn:Hu;
      try (rewrite (traversalAllowedExpr_error n (u :: r)) in H
             by (simpl; rewrite Hu; reflexivity);
           discriminate H).
    + (* LPAREN *)
      rewrite traversalAllowedExpr_LPAREN in H by exact Hu.
      apply bind_eof in H. destruct H as [H|([e r1] & He & H)].
      * destruct (IHe 0 r H) as (ext & e & Hext).
        exists (ext ++ [closing]), (ParenthesizedExpressionContext u e closing).
        intros rest' Hq. simpl app.
        apply eventually_LPAREN; [exact Hu|reflexivity|].
        replace (r ++ (ext ++ [closing]) ++ rest') with (r ++ ext ++ closing :: rest')
          by (rewrite <- (app_assoc ext); reflexivity).
        apply Hext. reflexivity.
      * apply bind_eof in H. destruct H as [H|([rp r2] & _ & H)]; [|discriminate H].
        apply match_eof in H. subst r1.
        destruct (proj1 (proj1 (rules_local n) 0 r) e [] He) as (pre & Hi & Hpre).
        exists [closing], (ParenthesizedExpressionContext u e closing).
        intros rest' Hq. simpl app.
        apply eventually_LPAREN; [exact Hu|reflexivity|].
        rewrite Hi, app_nil_r. apply (expr_eventually n); [|discriminate].
        apply (Hpre (closing :: rest')). right. reflexivity.
    + (* NAME *)
      rewrite traversalAllowedExpr_attribute in H by (simpl; rewrite Hu; auto).
      apply bind_eof in H. destruct H as [H|([a r1] & _ & H)]; [|discriminate H].
      destruct (attributeExpr_completable _ H) as (ext & a & Hext).
      exists ext, (AttributeExpressionContext a). intros rest' _.
      exists 1%nat. intros m Hm. destruct m as [|m]; [lia|].
      rewrite traversalAllowedExpr_attribute by (simpl; rewrite Hu; auto).
      rewrite Hext. reflexivity.
    + (* NAME_SUBSTRING *)
      rewrite traversalAllowedExpr_attribute in H by (simpl; rewrite Hu; auto).
      apply bind_eof in H. destruct H as [H|([a r1] & _ & H)]; [|discriminate H].
      destruct (attributeExpr_completable _ H) as (ext & a & Hext).
      exists ext, (AttributeExpressionContext a). intros rest' _.
      exists 1%nat. intros m Hm. destruct m as [|m]; [lia|].
      rewrite traversalAllowedExpr_attribute by (simpl; rewrite Hu; auto).
      rewrite Hext. reflexivity.
Qed.

Lemma start_eof_completable (input : list Token) :
  start input = SyntaxError None -> exists ext s, start (input ++ ext) = Ok s.
Proof.
  unfold start. intros H.
  assert (E : expr (fuelFor input) 0 input = SyntaxError None).
  { destruct (expr (fuelFor input) 0 input) as [[c rest]|e|]; cbn [bind] in H.
    - destruct rest; discriminate H.
    - injection H as ->. reflexivity.
    - discriminate H. }
  destruct (proj1 (rules_completable (fuelFor input)) 0 input E) as (ext & c & Hext).
  destruct (Hext [] eq_refl) as [n0 Hn0].
  exists ext, (mkStartContext c).
  rewrite app_nil_r in Hn0.
  rewrite (expr_fuelFor n0 0 _ _ (Hn0 n0 (Nat.le_refl _))) by discriminate. reflexivity.
Qed.

(** A syntax error at the end of file means the selection is incomplete,
    not wrong: some more tokens make the stream one that [start] accepts. *)
Theorem end_of_file_error_is_incomplete (input : list Token) :
  start input = SyntaxError None -> exists ext s, start (input ++ ext) = Ok s.
Proof. apply start_eof_completable. Qed.

(** On ["(name:a or"], which [name:x )] completes. *)
Lemma end_of_file_error_is_incomplete_witness :
  exists ext s,
    start ((token LPAREN "(" 0 :: yieldTraversalAllowedExpr (nameIs "a" 1)
              ++ [token OR "or" 8]) ++ ext) = Ok s.
Proof.
  apply (end_of_file_error_is_incomplete
           (token LPAREN "(" 0 :: yieldTraversalAllowedExpr (nameIs "a" 1)
              ++ [token OR "or" 8])).
  reflexivity.
Defined.

(** A syntax error at a token is reported at the first token that makes the
    stream impossible to complete.  The tokens before the offending token
    are the beginning of a stream that [start] accepts; and with the
    offending token after them the same error is reported whatever follows:
    the parser has not looked past it. *)
Theorem syntax_error_at_first_wrong_token (input : list Token) (t : Token) :
  start input = SyntaxError (Some t) ->
  exists pre post, input = pre ++ t :: post /\
    (exists ext s, start (pre ++ ext) = Ok s) /\
    (forall post', start (pre ++ t :: post') = SyntaxError (Some t)).
Proof.
  intros H. destruct (start_error_local input t H) as (pre & post & Hi & Hpost & Hpre).
  exists pre, post. split; [exact Hi|]. split; [|exact Hpost].
  destruct Hpre as [Hpre|[s Hs]].
  - apply start_eof_completable; exact Hpre.
  - exists [], s. rewrite app_nil_r. exact Hs.
Qed.

(** On ["+foo+"], where the error is at [foo]. *)
Lemma syntax_error_at_first_wrong_token_witness :
  exists pre post, plus_foo_plus = pre ++ token UNQUOTED_STRING "foo" 1 :: post /\
    (exists ext s, start (pre ++ ext) = Ok s) /\
    (forall post',
        start (pre ++ token UNQUOTED_STRING "foo" 1 :: post') =
        SyntaxError (Some (token UNQUOTED_STRING "foo" 1))).
Proof.
  apply (syntax_error_at_first_wrong_token plus_foo_plus (token UNQUOTED_STRING "foo" 1)).
  reflexivity.
Defined.

(** Tokens appended to an accepted stream never bring an error into the
    part that was accepted: when the longer stream is a syntax error at a
    token, that token stands in the appended part, and what follows it does
    not matter. *)
Theorem accepted_prefix_stays_clean
    (input more : list Token) (s : StartContext) (t : Token) :
  start input = Ok s -> start (input ++ more) = SyntaxError (Some t) ->
  exists mid post, more = mid ++ t :: post /\
    forall post', start (input ++ mid ++ t :: post') = SyntaxError (Some t).
Proof.
  intros Hok Herr.
  destruct (start_error_local _ t Herr) as (pre & post & Hi & Hpost & _).
  apply app_eq_app in Hi. destruct Hi as (l & [[Hin Hl]|[Hpre Hmore]]).
  - destruct l as [|t' l].
    + rewrite app_nil_r in Hin. subst pre. simpl in Hl.
      exists [], post. split; [symmetry; exact Hl|]. intros post'. apply Hpost.
    + injection Hl as <- _. exfalso.
      rewrite Hin, Hpost in Hok. discriminate Hok.
  - subst pre. exists l, post. split; [exact Hmore|].
    intros post'. rewrite app_assoc. apply Hpost.
Qed.

(** On ["name:a"], accepted, followed by [") or name:b"]. *)
Lemma accepted_prefix_stays_clean_witness :
  exists mid post,
    token RPAREN ")" 6 :: token OR "or" 8 :: yieldTraversalAllowedExpr (nameIs "b" 11) =
      mid ++ token RPAREN ")" 6 :: post /\
    forall post',
      start (yieldTraversalAllowedExpr (nameIs "a" 0) ++ mid ++ token RPAREN ")" 6 :: post') =
      SyntaxError (Some (token RPAREN ")" 6)).
Proof.
  apply (accepted_prefix_stays_clean (yieldTraversalAllowedExpr (nameIs "a" 0))
           (token RPAREN ")" 6 :: token OR "or" 8 :: yieldTraversalAllowedExpr (nameIs "b" 11))
           (mkStartContext (TraversalAllowedExpressionContext (nameIs "a" 0)))
           (token RPAREN ")" 6));
    reflexivity.
Defined.

(** ** Operators and parentheses *)

Lemma groupOperands_wf (ops : list (Token * ExprContext)) :
  forall done cur,
    wfDone done = true -> wfExpr cur = true -> 3 <= level cur ->
    forallb wfOperand ops = true ->
    wfExpr (groupOperands done cur ops) = true /\
    yieldExpr (groupOperands done cur ops) =
      yieldExpr (closeOr done cur) ++ flat_map (fun op => fst op :: yieldExpr (snd op)) ops.
Proof.
  induction ops as [|[t e] ops IH]; intros done cur Hd Hc Hl Hops.
  - simpl. rewrite app_nil_r. split; [|reflexivity].
    destruct done as [[l tor]|]; simpl in *; [|exact Hc].
    apply andb_prop in Hd as [Hwl Hor]. rewrite Hwl, Hor, Hc. simpl.
    apply Z.leb_le; exact Hl.
  - cbn [forallb] in Hops. apply andb_prop in Hops as [Hop Hops].
    unfold wfOperand in Hop. cbn [fst snd] in Hop.
    apply andb_prop in Hop as [Hop He4]. apply andb_prop in Hop as [Ht He].
    cbn [groupOperands flat_map fst snd].
    destruct (hasType AND t) eqn:Hand.
    + destruct (IH done (AndExpressionContext cur t e)) as [W Y]; auto.
      { simpl. rewrite Hc, Hand, He, He4. simpl.
        replace (3 <=? level cur) with true by (symmetry; apply Z.leb_le; exact Hl).
        reflexivity. }
      { simpl; lia. }
      split; [exact W|]. rewrite Y.
      destruct done as [[l tor]|]; simpl; repeat (rewrite <- app_assoc; simpl); reflexivity.
    + simpl in Ht.
      assert (Hcl : wfExpr (closeOr done cur) = true).
      { destruct done as [[l tor]|]; simpl in *; [|exact Hc].
        apply andb_prop in Hd as [Hwl Hor]. rewrite Hwl, Hor, Hc. simpl.
        apply Z.leb_le; exact Hl. }
      apply Z.leb_le in He4.
      destruct (IH (Some (closeOr done cur, t)) e) as [W Y]; auto.
      { simpl. rewrite Hcl, Ht. reflexivity. }
      { lia. }
      split; [exact W|]. rewrite Y. simpl. repeat (rewrite <- app_assoc; simpl). reflexivity.
Qed.

(** A flat expression of any length, primaries joined by [and] and [or],
    parses as the disjunction, folded to the left, of the conjunctions,
    folded to the left, that the [or]s separate: [and] binds tighter than
    [or] and both associate to the left, however long the chain. *)
Theorem flat_expression_grouping (first : ExprContext) (ops : list (Token * ExprContext)) :
  wfExpr first = true -> level first = 4 -> forallb wfOperand ops = true ->
  start (operandTokens first ops) = Ok (mkStartContext (groupOperands None first ops)).
Proof.
  intros Hw Hl Hops.
  destruct (groupOperands_wf ops None first) as [W Y]; auto; try lia.
  unfold operandTokens. simpl in Y. rewrite <- Y. apply start_complete; exact W.
Qed.

(** On ["name:a or name:b and name:c or name:d"]. *)
Lemma flat_expression_grouping_witness :
  start (yieldTraversalAllowedExpr (nameIs "a" 0) ++ [token OR "or" 7]
           ++ yieldTraversalAllowedExpr (nameIs "b" 10) ++ [token AND "and" 17]
           ++ yieldTraversalAllowedExpr (nameIs "c" 21) ++ [token OR "or" 28]
           ++ yieldTraversalAllowedExpr (nameIs "d" 31)) =
    Ok (mkStartContext
          (OrExpressionContext
             (OrExpressionContext (TraversalAllowedExpressionContext (nameIs "a" 0))
                (token OR "or" 7)
                (AndExpressionContext (TraversalAllowedExpressionContext (nameIs "b" 10))
                   (token AND "and" 17) (TraversalAllowedExpressionContext (nameIs "c" 21))))
             (token OR "or" 28) (TraversalAllowedExpressionContext (nameIs "d" 31)))).
Proof.
  apply (flat_expression_grouping (TraversalAllowedExpressionContext (nameIs "a" 0))
           [(token OR "or" 7, TraversalAllowedExpressionContext (nameIs "b" 10));
            (token AND "and" 17, TraversalAllowedExpressionContext (nameIs "c" 21));
            (token OR "or" 28, TraversalAllowedExpressionContext (nameIs "d" 31))]);
    reflexivity.
Defined.

(** Accepted selections compose.  Put in parentheses, the streams of two
    accepted selections can be joined by [and] or by [or], negated, or given
    traversal qualifiers, and the parse is the operator over the two trees,
    each kept as it was parsed alone, whatever operators it has inside. *)
Theorem compose_selections (i1 i2 : list Token) (c1 c2 : ExprContext) (l1 r1 l2 r2 : Token) :
  start i1 = Ok (mkStartContext c1) -> start i2 = Ok (mkStartContext c2) ->
  ttype l1 = LPAREN -> ttype r1 = RPAREN -> ttype l2 = LPAREN -> ttype r2 = RPAREN ->
  (forall t, ttype t = AND ->
     start ((l1 :: i1 ++ [r1]) ++ t :: l2 :: i2 ++ [r2]) =
     Ok (mkStartContext
           (AndExpressionContext
              (TraversalAllowedExpressionContext (ParenthesizedExpressionContext l1 c1 r1)) t
              (TraversalAllowedExpressionContext (ParenthesizedExpressionContext l2 c2 r2))))) /\
  (forall t, ttype t = OR ->
     start ((l1 :: i1 ++ [r1]) ++ t :: l2 :: i2 ++ [r2]) =
     Ok (mkStartContext
           (OrExpressionContext
              (TraversalAllowedExpressionContext (ParenthesizedExpressionContext l1 c1 r1)) t
              (TraversalAllowedExpressionContext (ParenthesizedExpressionContext l2 c2 r2))))) /\
  (forall t, ttype t = NOT ->
     start (t :: l1 :: i1 ++ [r1]) =
     Ok (mkStartContext
           (NotExpressionContext t
              (TraversalAllowedExpressionContext (ParenthesizedExpressionContext l1 c1 r1))))) /\
  (forall up down, wfTraversal up = true -> wfTraversal down = true ->
     start (yieldTraversal up ++ (l1 :: i1 ++ [r1]) ++ yieldTraversal down) =
     Ok (mkStartContext
           (UpAndDownTraversalExpressionContext up (ParenthesizedExpressionContext l1 c1 r1)
              down))).
Proof.
  intros H1 H2 Hl1 Hr1 Hl2 Hr2.
  apply start_sound in H1. destruct H1 as [-> W1].
  apply start_sound in H2. destruct H2 as [-> W2].
  split; [|split; [|split]]; intros.
  - apply (start_complete
             (AndExpressionContext
                (TraversalAllowedExpressionContext (ParenthesizedExpressionContext l1 c1 r1)) t
                (TraversalAllowedExpressionContext (ParenthesizedExpressionContext l2 c2 r2)))).
    wf_solve.
  - apply (start_complete
             (OrExpressionContext
                (TraversalAllowedExpressionContext (ParenthesizedExpressionContext l1 c1 r1)) t
                (TraversalAllowedExpressionContext (ParenthesizedExpressionContext l2 c2 r2)))).
    wf_solve.
  - apply (start_complete
             (NotExpressionContext t
                (TraversalAllowedExpressionContext (ParenthesizedExpressionContext l1 c1 r1)))).
    wf_solve.
  - apply (start_complete
             (UpAndDownTraversalExpressionContext up (ParenthesizedExpressionContext l1 c1 r1)
                down)).
    wf_solve.
Qed.

(** On ["name:a or name:b"] and ["name:c"]: ["(name:a or name:b) and (name:c)"]. *)
Lemma compose_selections_witness :
  start ((token LPAREN "(" 0
            :: (yieldTraversalAllowedExpr (nameIs "a" 1) ++ [token OR "or" 8]
                  ++ yieldTraversalAllowedExpr (nameIs "b" 11))
            ++ [token RPAREN ")" 17])
           ++ token AND "and" 19 :: token LPAREN "(" 23
           :: yieldTraversalAllowedExpr (nameIs "c" 24) ++ [token RPAREN ")" 30]) =
    Ok (mkStartContext
          (AndExpressionContext
             (TraversalAllowedExpressionContext
                (ParenthesizedExpressionContext (token LPAREN "(" 0)
                   (OrExpressionContext (TraversalAllowedExpressionContext (nameIs "a" 1))
                      (token OR "or" 8) (TraversalAllowedExpressionContext (nameIs "b" 11)))
                   (token RPAREN ")" 17)))
             (token AND "and" 19)
             (TraversalAllowedExpressionContext
                (ParenthesizedExpressionContext (token LPAREN "(" 23)
                   (TraversalAllowedExpressionContext (nameIs "c" 24))
                   (token RPAREN ")" 30))))).
Proof.
  apply (proj1 (compose_selections
                  (yieldTraversalAllowedExpr (nameIs "a" 1) ++ [token OR "or" 8]
                     ++ yieldTraversalAllowedExpr (nameIs "b" 11))
                  (yieldTraversalAllowedExpr (nameIs "c" 24))
                  (OrExpressionContext (TraversalAllowedExpressionContext (nameIs "a" 1))
                     (token OR "or" 8) (TraversalAllowedExpressionContext (nameIs "b" 11)))
                  (TraversalAllowedExpressionContext (nameIs "c" 24))
                  (token LPAREN "(" 0) (token RPAREN ")" 17)
                  (token LPAREN "(" 23) (token RPAREN ")" 30)
                  eq_refl eq_refl eq_refl eq_refl eq_refl eq_refl)).
  reflexivity.
Defined.

Lemma flat_of_typed :
  (forall c, typedExpr c = true ->
     exists first ops,
       wfExpr first = true /\ level first = 4 /\ forallb wfOperand ops = true /\
       yieldExpr c = operandTokens first ops) /\
  (forall x, typedTraversalAllowedExpr x = true ->
     exists x', wfTraversalAllowedExpr x' = true /\
       yieldTraversalAllowedExpr x' = yieldTraversalAllowedExpr x).
Proof.
  apply context_mutind.
  - intros x IH H. simpl in H. destruct (IH H) as (x' & Hw & Hy).
    exists (TraversalAllowedExpressionContext x'), []. unfold operandTokens. simpl.
    rewrite app_nil_r. auto.
  - intros up x IH down H. simpl in H.
    apply andb_prop in H as [H Hd]. apply andb_prop in H as [Hu H].
    destruct (IH H) as (x' & Hw & Hy).
    exists (UpAndDownTraversalExpressionContext up x' down), []. unfold operandTokens. simpl.
    rewrite app_nil_r, Hu, Hw, Hd, Hy. auto.
  - intros up x IH H. simpl in H. apply andb_prop in H as [Hu H].
    destruct (IH H) as (x' & Hw & Hy).
    exists (UpTraversalExpressionContext up x'), []. unfold operandTokens. simpl.
    rewrite app_nil_r, Hu, Hw, Hy. auto.
  - intros x IH down H. simpl in H. apply andb_prop in H as [H Hd].
    destruct (IH H) as (x' & Hw & Hy).
    exists (DownTraversalExpressionContext x' down), []. unfold operandTokens. simpl.
    rewrite app_nil_r, Hd, Hw, Hy. auto.
  - intros t e IH H. simpl in H. apply andb_prop in H as [Ht H].
    destruct (IH H) as (first & ops & Hw & Hl & Hops & Hy).
    exists (NotExpressionContext t first), ops. unfold operandTokens in *. simpl.
    rewrite Ht, Hw, Hl, Hy. auto.
  - intros e0 IH0 t e1 IH1 H. simpl in H.
    apply andb_prop in H as [H H1]. apply andb_prop in H as [H0 Ht].
    destruct (IH0 H0) as (f0 & ops0 & Hw0 & Hl0 & Hops0 & Hy0).
    destruct (IH1 H1) as (f1 & ops1 & Hw1 & Hl1 & Hops1 & Hy1).
    exists f0, (ops0 ++ (t, f1) :: ops1). unfold operandTokens in *.
    split; [exact Hw0|]. split; [exact Hl0|]. split.
    + rewrite forallb_app. simpl. rewrite Hops0, Hops1. unfold wfOperand. simpl.
      rewrite Ht, Hw1, Hl1. reflexivity.
    + simpl. rewrite flat_map_app. simpl. rewrite Hy0, Hy1. rewrite <- !app_assoc. reflexivity.
  - intros e0 IH0 t e1 IH1 H. simpl in H.
    apply andb_prop in H as [H H1]. apply andb_prop in H as [H0 Ht].
    destruct (IH0 H0) as (f0 & ops0 & Hw0 & Hl0 & Hops0 & Hy0).
    destruct (IH1 H1) as (f1 & ops1 & Hw1 & Hl1 & Hops1 & Hy1).
    exists f0, (ops0 ++ (t, f1) :: ops1). unfold operandTokens in *.
    split; [exact Hw0|]. split; [exact Hl0|]. split.
    + rewrite forallb_app. simpl. rewrite Hops0, Hops1. unfold wfOperand. simpl.
      rewrite Ht, Hw1, Hl1, orb_true_r. reflexivity.
    + simpl. rewrite flat_map_app. simpl. rewrite Hy0, Hy1. rewrite <- !app_assoc. reflexivity.
  - intros star H. simpl in H.
    exists (AllExpressionContext star), []. unfold operandTokens. simpl. auto.
  - intros a H. exists (AttributeExpressionContext a). auto.
  - intros l e IH r H. simpl in H.
    apply andb_prop in H as [H Hr]. apply andb_prop in H as [Hl H].
    destruct (IH H) as (first & ops & Hw & Hlev & Hops & Hy).
    destruct (groupOperands_wf ops None first) as [W Y]; auto; try lia.
    exists (ParenthesizedExpressionContext l (groupOperands None first ops) r). simpl.
    rewrite Hl, W, Hr, Y, Hy. auto.
Qed.

Lemma wf_typed :
  (forall c, wfExpr c = true -> typedExpr c = true) /\
  (forall x, wfTraversalAllowedExpr x = true -> typedTraversalAllowedExpr x = true).
Proof.
  apply context_mutind; simpl; intros;
    repeat match goal with
      | H : _ && _ = true |- _ => apply andb_prop in H; destruct H
      end;
    repeat match goal with
      | IH : ?P = true -> _, H : ?P = true |- _ => rewrite (IH H)
      | H : ?b = true |- context [?b] => rewrite H
      end;
    auto.
Qed.

(** The parser accepts the language of the grammar, no less and no more: a
    stream is accepted exactly when it is the token sequence of a typed
    tree.  However the operators of that tree nest, some well-formed tree
    has the same tokens; precedence decides which tree is returned, never
    whether the stream is accepted. *)
Theorem accepts_the_grammar (input : list Token) :
  (exists s, start input = Ok s) <->
  (exists c, typedExpr c = true /\ input = yieldExpr c).
Proof.
  split.
  - intros [[c] H]. apply start_sound in H. destruct H as [-> Hwf].
    exists c. split; [apply (proj1 wf_typed); exact Hwf|reflexivity].
  - intros (c & H & ->).
    destruct (proj1 flat_of_typed c H) as (first & ops & Hw & Hl & Hops & Hy).
    destruct (groupOperands_wf ops None first) as [W Y]; auto; try lia.
    exists (mkStartContext (groupOperands None first ops)).
    replace (yieldExpr c) with (yieldExpr (groupOperands None first ops))
      by (rewrite Y, Hy; reflexivity).
    apply start_complete; exact W.
Qed.

(** On the tokens of ["name:a and name:b or name:c"], read off the tree
    that nests the [or] under the [and]. *)
Lemma accepts_the_grammar_witness :
  exists s,
    start (yieldExpr
             (AndExpressionContext (TraversalAllowedExpressionContext (nameIs "a" 0))
                (token AND "and" 7)
                (OrExpressionContext (TraversalAllowedExpressionContext (nameIs "b" 11))
                   (token OR "or" 18) (TraversalAllowedExpressionContext (nameIs "c" 21))))) =
    Ok s.
Proof.
  apply (proj2 (accepts_the_grammar _)).
  exists (AndExpressionContext (TraversalAllowedExpressionContext (nameIs "a" 0))
            (token AND "and" 7)
            (OrExpressionContext (TraversalAllowedExpressionContext (nameIs "b" 11))
               (token OR "or" 18) (TraversalAllowedExpressionContext (nameIs "c" 21)))).
  split; reflexivity.
Defined.

Lemma parenDepth_plain (ts rest : list Token) (k : nat) :
  forallb (fun t => negb (hasType LPAREN t || hasType RPAREN t)) ts = true ->
  parenDepth (ts ++ rest) k = parenDepth rest k.
Proof.
  induction ts as [|t ts IH]; intros H; [reflexivity|].
  simpl in H. apply andb_prop in H as [Ht H]. simpl.
  unfold hasType, tokenTypeEqb in Ht.
  destruct (ttype t); simpl in Ht; try discriminate; auto.
Qed.

Lemma wfTraversal_plain (t : TraversalContext) :
  wfTraversal t = true ->
  forallb (fun t => negb (hasType LPAREN t || hasType RPAREN t)) (yieldTraversal t) = true.
Proof.
  intros H. apply wfTraversal_cases in H.
  destruct H as [(star & -> & Hs)|(plus & more & -> & Hp & Hall)]; simpl.
  - unfold hasType. rewrite Hs. reflexivity.
  - simpl in Hall. apply andb_prop in Hall as [H1 Hall].
    unfold hasType. rewrite Hp. simpl.
    induction more as [|u more IH]; [reflexivity|].
    simpl in Hall. apply andb_prop in Hall as [Hu Hall]. apply hasType_eq in Hu.
    simpl. rewrite Hu. simpl. auto.
Qed.

Lemma wfAttributeExpr_plain (a : AttributeExprContext) :
  wfAttributeExpr a = true ->
  forallb (fun t => negb (hasType LPAREN t || hasType RPAREN t)) (yieldAttributeExpr a) = true.
Proof.
  destruct a as [k c [v]|k c [v]]; simpl; intros H;
    apply andb_prop in H as [H Hv]; apply andb_prop in H as [Hk Hc];
    apply hasType_eq in Hk, Hc; apply orb_prop in Hv;
    unfold hasType; rewrite Hk, Hc; simpl;
    destruct Hv as [Hv|Hv]; apply hasType_eq in Hv; rewrite Hv; reflexivity.
Qed.

Lemma parenDepth_yield :
  (forall c, wfExpr c = true ->
     forall rest k, parenDepth (yieldExpr c ++ rest) k = parenDepth rest k) /\
  (forall x, wfTraversalAllowedExpr x = true ->
     forall rest k, parenDepth (yieldTraversalAllowedExpr x ++ rest) k = parenDepth rest k).
Proof.
  apply context_mutind; simpl; intros;
    repeat match goal with
      | H : _ && _ = true |- _ => apply andb_prop in H; destruct H
      end;
    repeat rewrite <- app_assoc.
  - auto.
  - rewrite parenDepth_plain by (apply wfTraversal_plain; assumption).
    rewrite H by assumption. apply parenDepth_plain, wfTraversal_plain; assumption.
  - rewrite parenDepth_plain by (apply wfTraversal_plain; assumption). auto.
  - rewrite H by assumption. apply parenDepth_plain, wfTraversal_plain; assumption.
  - match goal with H : hasType NOT _ = true |- _ => apply hasType_eq in H; rewrite H end. auto.
  - rewrite H by assumption. simpl.
    match goal with H : hasType AND _ = true |- _ => apply hasType_eq in H; rewrite H end. auto.
  - rewrite H by assumption. simpl.
    match goal with H : hasType OR _ = true |- _ => apply hasType_eq in H; rewrite H end. auto.
  - match goal with H : hasType STAR _ = true |- _ => apply hasType_eq in H; rewrite H end.
    reflexivity.
  - apply parenDepth_plain, wfAttributeExpr_plain; assumption.
  - match goal with H : hasType LPAREN _ = true |- _ => apply hasType_eq in H; rewrite H end.
    rewrite H by assumption. simpl.
    match goal with H : hasType RPAREN _ = true |- _ => apply hasType_eq in H; rewrite H end.
    reflexivity.
Qed.

(** The parser never accepts unbalanced parentheses: in an accepted stream
    every [RPAREN] closes an [LPAREN] that stands before it, and none is left
    open at the end. *)
Theorem accepted_parentheses_balanced (input : list Token) (s : StartContext) :
  start input = Ok s -> parenDepth input 0 = Some 0%nat.
Proof.
  destruct s as [c]. intros H. apply start_sound in H. destruct H as [-> Hwf].
  rewrite <- (app_nil_r (yieldExpr c)). rewrite (proj1 parenDepth_yield c Hwf). reflexivity.
Qed.

(** On ["((name:a))"]. *)
Lemma accepted_parentheses_balanced_witness :
  parenDepth
    (token LPAREN "(" 0 :: token LPAREN "(" 1 :: yieldTraversalAllowedExpr (nameIs "a" 2)
       ++ [token RPAREN ")" 8; token RPAREN ")" 9]) 0 = Some 0%nat.
Proof.
  apply (accepted_parentheses_balanced _
           (mkStartContext
              (TraversalAllowedExpressionContext
                 (ParenthesizedExpressionContext (token LPAREN "(" 0)
                    (TraversalAllowedExpressionContext
                       (ParenthesizedExpressionContext (token LPAREN "(" 1)
                          (TraversalAllowedExpressionContext (nameIs "a" 2))
                          (token RPAREN ")" 8)))
                    (token RPAREN ")" 9))))).
  reflexivity.
Defined.

(** ** The precedence climbing of [expr] *)

Lemma toInt32_range (p : Z) : -2147483648 <= toInt32 p <= 2147483647.
Proof. unfold toInt32. pose proof (Z.mod_pos_bound (p + 2147483648) 4294967296). lia. Qed.

Lemma toInt32_id (p : Z) : -2147483648 <= p <= 2147483647 -> toInt32 p = p.
Proof. intros H. unfold toInt32. rewrite Z.mod_small; lia. Qed.

Lemma toInt32_wrap (p : Z) : toInt32 (p + 4294967296) = toInt32 p.
Proof.
  unfold toInt32. replace (p + 4294967296 + 2147483648) with (p + 2147483648 + 1 * 4294967296) by lia.
  rewrite Z.mod_add by lia. reflexivity.
Qed.

(** What [expr(_p)] returns respects the precedence it was called with, for
    every integer [_p] as the precedence stack holds it, [toInt32 _p]: at 4
    or above, as for the operand of [not] and the right operand of [and],
    the tree is never an [and] or an [or] at the root; at 3 or above, as for
    the right operand of [or], it is never an [or] at the root; and the call
    does not stop in front of an operator it would have taken.  The stack
    holds a 32-bit integer as it is, and [_p + 4294967296] as it holds
    [_p]. *)
Theorem expr_precedence_invariant
    (n : nat) (_p : Z) (input rest : list Token) (c : ExprContext) :
  expr n (toInt32 _p) input = Ok (c, rest) ->
  (4 <= toInt32 _p -> level c = 4) /\ (3 <= toInt32 _p -> 3 <= level c) /\
  (toInt32 _p <= 3 -> LA1 rest <> Some AND) /\ (toInt32 _p <= 2 -> LA1 rest <> Some OR) /\
  (-2147483648 <= _p <= 2147483647 -> toInt32 _p = _p) /\
  toInt32 (_p + 4294967296) = toInt32 _p.
Proof.
  intros H. apply expr_sound in H. destruct H as (_ & _ & Hl & Hx).
  pose proof (level_bounds c) as Hb.
  split; [lia|]. split; [lia|]. split; [|split; [|split]].
  - intros Hp E. unfold adaptivePredict_2 in Hx. rewrite E in Hx.
    unfold precpred in Hx. apply Z.leb_le in Hp. rewrite Hp in Hx. discriminate.
  - intros Hp E. unfold adaptivePredict_2 in Hx. rewrite E in Hx.
    unfold precpred in Hx. apply Z.leb_le in Hp. rewrite Hp in Hx. discriminate.
  - apply toInt32_id.
  - apply toInt32_wrap.
Qed.

(** On ["name:a and name:b"] at precedence 4: [expr] stops before [and].  On
    ["name:a and name:b or name:c"] at 2147483648, which the stack holds as
    -2147483648: [expr] takes both operators. *)
Lemma expr_precedence_invariant_witness :
  (expr 4 (toInt32 4) (yieldTraversalAllowedExpr (nameIs "a" 0) ++ token AND "and" 7
                         :: yieldTraversalAllowedExpr (nameIs "b" 11)) =
     Ok (TraversalAllowedExpressionContext (nameIs "a" 0),
         token AND "and" 7 :: yieldTraversalAllowedExpr (nameIs "b" 11)) /\
   level (TraversalAllowedExpressionContext (nameIs "a" 0)) = 4) /\
  (toInt32 2147483648 = -2147483648 /\
   expr 8 (toInt32 2147483648)
     (yieldTraversalAllowedExpr (nameIs "a" 0) ++ token AND "and" 7
        :: yieldTraversalAllowedExpr (nameIs "b" 11) ++ token OR "or" 18
        :: yieldTraversalAllowedExpr (nameIs "c" 21)) =
     Ok (OrExpressionContext
           (AndExpressionContext (TraversalAllowedExpressionContext (nameIs "a" 0))
              (token AND "and" 7) (TraversalAllowedExpressionContext (nameIs "b" 11)))
           (token OR "or" 18) (TraversalAllowedExpressionContext (nameIs "c" 21)), []) /\
   LA1 (@nil Token) <> Some OR).
Proof.
  split.
  - split; [reflexivity|].
    apply (proj1 (expr_precedence_invariant 4 4
                    (yieldTraversalAllowedExpr (nameIs "a" 0) ++ token AND "and" 7
                       :: yieldTraversalAllowedExpr (nameIs "b" 11))
                    (token AND "and" 7 :: yieldTraversalAllowedExpr (nameIs "b" 11))
                    (TraversalAllowedExpressionContext (nameIs "a" 0)) eq_refl)).
    vm_compute. discriminate.
  - split; [reflexivity|]. split; [reflexivity|].
    destruct (expr_precedence_invariant 8 2147483648
                (yieldTraversalAllowedExpr (nameIs "a" 0) ++ token AND "and" 7
                   :: yieldTraversalAllowedExpr (nameIs "b" 11) ++ token OR "or" 18
                   :: yieldTraversalAllowedExpr (nameIs "c" 21))
                []
                (OrExpressionContext
                   (AndExpressionContext (TraversalAllowedExpressionContext (nameIs "a" 0))
                      (token AND "and" 7) (TraversalAllowedExpressionContext (nameIs "b" 11)))
                   (token OR "or" 18) (TraversalAllowedExpressionContext (nameIs "c" 21)))
                eq_refl) as (_ & _ & _ & Hor & _).
    apply Hor. vm_compute. discriminate.
Defined.

(** ** The accessors of [ValueContext] *)

(** On every context [value()] returns, exactly one of [QUOTED_STRING()] and
    [UNQUOTED_STRING()] is defined, and it is the token the rule consumed. *)
Theorem value_accessors (input rest : list Token) (v : ValueContext) :
  value input = Ok (v, rest) ->
  exists t, input = t :: rest /\
    (ttype t = QUOTED_STRING /\ ValueContext_QUOTED_STRING v = Some t /\
       ValueContext_UNQUOTED_STRING v = None \/
     ttype t = UNQUOTED_STRING /\ ValueContext_UNQUOTED_STRING v = Some t /\
       ValueContext_QUOTED_STRING v = None).
Proof.
  intros H. apply value_sound in H. destruct H as [-> Hwf]. destruct v as [t].
  exists t. split; [reflexivity|]. simpl in Hwf. apply orb_prop in Hwf.
  destruct Hwf as [H|H]; apply hasType_eq in H; [left|right]; simpl; rewrite H; auto.
Qed.

(** On the quoted value ["my op"]. *)
Lemma value_accessors_witness :
  exists t, [token QUOTED_STRING "my op" 5] = [t] /\
    (ttype t = QUOTED_STRING /\
       ValueContext_QUOTED_STRING (mkValueContext (token QUOTED_STRING "my op" 5)) = Some t /\
       ValueContext_UNQUOTED_STRING (mkValueContext (token QUOTED_STRING "my op" 5)) = None \/
     ttype t = UNQUOTED_STRING /\
       ValueContext_UNQUOTED_STRING (mkValueContext (token QUOTED_STRING "my op" 5)) = Some t /\
       ValueContext_QUOTED_STRING (mkValueContext (token QUOTED_STRING "my op" 5)) = None).
Proof.
  apply (value_accessors [token QUOTED_STRING "my op" 5] []
           (mkValueContext (token QUOTED_STRING "my op" 5))).
  reflexivity.
Defined.

(** ** Token types are all the parser looks at *)

Section Relabel.

Variable f : Token -> Token.
Hypothesis sameType : forall t, ttype (f t) = ttype t.

Lemma LA1_map (input : list Token) : LA1 (map f input) = LA1 input.
Proof. destruct input; simpl; [reflexivity|]. rewrite sameType. reflexivity. Qed.

Lemma LT1_map (input : list Token) : LT1 (map f input) = option_map f (LT1 input).
Proof. destruct input; reflexivity. Qed.

Lemma bind_relabel {A B : Type} (h : A -> A) (h' : B -> B)
    (r : Result A) (k k' : A -> Result B) :
  (forall a, k' (h a) = relabelResult f h' (k a)) ->
  bind (relabelResult f h r) k' = relabelResult f h' (bind r k).
Proof. intros H. destruct r; simpl; auto. Qed.

Lemma sync_map (expecting : list TokenType) (input : list Token) :
  sync expecting (map f input) = relabelResult f (fun u => u) (sync expecting input).
Proof.
  unfold sync. rewrite LA1_map, LT1_map.
  destruct (LA1 input) as [la|]; [|reflexivity].
  destruct (existsb _ _); reflexivity.
Qed.

Lemma match_map (ty : TokenType) (input : list Token) :
  match_ ty (map f input) = relabelResult f (withRest f f) (match_ ty input).
Proof.
  destruct input as [|u input]; simpl; [reflexivity|]. rewrite sameType.
  destruct (tokenTypeEqb (ttype u) ty); reflexivity.
Qed.

Lemma match_EOF_map (input : list Token) :
  match_EOF (map f input) = relabelResult f (fun u => u) (match_EOF input).
Proof. destruct input; reflexivity. Qed.

Lemma value_map (input : list Token) :
  value (map f input) = relabelResult f (withRest f (relabelValue f)) (value input).
Proof.
  destruct input as [|u input]; simpl; [reflexivity|]. rewrite sameType.
  destruct (ttype u); reflexivity.
Qed.

Ltac relabel :=
  repeat first
    [ reflexivity
    | rewrite sync_map
    | rewrite match_map
    | rewrite value_map
    | apply bind_relabel; intros; cbn [withRest fst snd]
    | match goal with
      | |- context [match ?x with (_, _) => _ end] => destruct x; cbn [fst snd]
      end ].

Lemma attributeExpr_map (input : list Token) :
  attributeExpr (map f input) =
  relabelResult f (withRest f (relabelAttributeExpr f)) (attributeExpr input).
Proof.
  unfold attributeExpr. rewrite LA1_map, LT1_map.
  rewrite sync_map. apply bind_relabel. intros _.
  destruct (LA1 input) as [[]|]; relabel.
Qed.

Lemma adaptivePredict_4_map (input : list Token) :
  adaptivePredict_4 (map f input) = adaptivePredict_4 input.
Proof. unfold adaptivePredict_4. rewrite LA1_map. reflexivity. Qed.

Lemma traversal_plusLoop_map (input : list Token) :
  traversal_plusLoop (map f input) =
  relabelResult f (withRest f (map f)) (traversal_plusLoop input).
Proof.
  induction input as [|u input IH]; simpl; [reflexivity|]. rewrite sameType.
  destruct (tokenTypeEqb (ttype u) PLUS); [|reflexivity].
  rewrite adaptivePredict_4_map. destruct (adaptivePredict_4 input =? 2); [reflexivity|].
  rewrite IH. apply bind_relabel. intros [more rest]. reflexivity.
Qed.

Lemma traversal_map (input : list Token) :
  traversal (map f input) = relabelResult f (withRest f (relabelTraversal f)) (traversal input).
Proof.
  unfold traversal. rewrite LA1_map, LT1_map.
  rewrite sync_map. apply bind_relabel. intros _.
  destruct (LA1 input) as [[]|]; try reflexivity.
  - relabel.
  - rewrite traversal_plusLoop_map. apply bind_relabel. intros [pluses rest]. reflexivity.
Qed.

Lemma skipPlus_map (input : list Token) : skipPlus (map f input) = map f (skipPlus input).
Proof.
  induction input as [|u input IH]; simpl; [reflexivity|]. rewrite sameType.
  destruct (tokenTypeEqb (ttype u) PLUS); [exact IH|reflexivity].
Qed.

Lemma tl_map (input : list Token) : tl (map f input) = map f (tl input).
Proof. destruct input; reflexivity. Qed.

Section Prediction.

Variables lookahead lookahead' : list Token -> Result (TraversalAllowedExprContext * list Token).
Variables operand operand' : Z -> list Token -> Result (ExprContext * list Token).

Hypothesis lookahead_map : forall input,
  lookahead' (map f input) =
  relabelResult f (withRest f (relabelTraversalAllowedExpr f)) (lookahead input).
Hypothesis operand_map : forall p input,
  operand' p (map f input) = relabelResult f (withRest f (relabelExpr f)) (operand p input).

Lemma adaptivePredict_0_map (input : list Token) :
  adaptivePredict_0 lookahead' (map f input) =
  relabelResult f (fun alt => alt) (adaptivePredict_0 lookahead input).
Proof.
  unfold adaptivePredict_0. rewrite LA1_map, LT1_map, tl_map, skipPlus_map, LA1_map.
  destruct (LA1 input) as [[]|]; try reflexivity;
    try destruct (startsTraversalAllowedExpr (LA1 (tl input))); try reflexivity;
    rewrite lookahead_map; apply bind_relabel; intros [x after];
    cbn [withRest fst snd]; rewrite LA1_map; reflexivity.
Qed.

Lemma expr_primary_map (input : list Token) :
  expr_primary lookahead' operand' (map f input) =
  relabelResult f (withRest f (relabelExpr f)) (expr_primary lookahead operand input).
Proof.
  unfold expr_primary. rewrite LT1_map.
  rewrite sync_map. apply bind_relabel. intros _.
  rewrite adaptivePredict_0_map. apply bind_relabel. intros alt.
  repeat match goal with
    | |- match ?x with _ => _ end = relabelResult _ _ (match ?x with _ => _ end) => destruct x
    end;
    repeat first
      [ reflexivity
      | rewrite match_map | rewrite traversal_map | rewrite lookahead_map | rewrite operand_map
      | apply bind_relabel; intros [? ?]; cbn [withRest fst snd] ].
Qed.

End Prediction.

Lemma adaptivePredict_1_map (input : list Token) :
  adaptivePredict_1 (map f input) = relabelResult f (fun alt => alt) (adaptivePredict_1 input).
Proof.
  unfold adaptivePredict_1. rewrite LA1_map, LT1_map.
  destruct (LA1 input) as [[]|]; reflexivity.
Qed.

Lemma adaptivePredict_2_map (p : Z) (input : list Token) :
  adaptivePredict_2 p (map f input) = adaptivePredict_2 p input.
Proof. unfold adaptivePredict_2. rewrite LA1_map. reflexivity. Qed.

Lemma rules_map (n : nat) :
  (forall p input,
     expr n p (map f input) = relabelResult f (withRest f (relabelExpr f)) (expr n p input)) /\
  (forall p c input,
     expr_loop n p (relabelExpr f c) (map f input) =
     relabelResult f (withRest f (relabelExpr f)) (expr_loop n p c input)) /\
  (forall input,
     traversalAllowedExpr n (map f input) =
     relabelResult f (withRest f (relabelTraversalAllowedExpr f)) (traversalAllowedExpr n input)).
Proof.
  induction n as [|n (IHe & IHl & IHt)]; [repeat split|].
  split; [|split].
  - intros p input. rewrite !expr_S.
    rewrite (expr_primary_map _ _ _ _ IHt IHe). apply bind_relabel.
    intros [c rest]. cbn [withRest fst snd]. apply IHl.
  - intros p c input. rewrite !expr_loop_S.
    rewrite adaptivePredict_2_map, LT1_map.
    destruct (adaptivePredict_2 p input =? 1); [|reflexivity].
    rewrite adaptivePredict_1_map. apply bind_relabel. intros alt.
    repeat match goal with
      | |- match ?x with _ => _ end = relabelResult _ _ (match ?x with _ => _ end) => destruct x
      | |- (if ?x then _ else _) = relabelResult _ _ (if ?x then _ else _) => destruct x
      end;
      repeat first
        [ reflexivity
        | rewrite match_map | rewrite IHe
        | apply bind_relabel; intros [? ?]; cbn [withRest fst snd]
        | apply (IHl _ (AndExpressionContext _ _ _))
        | apply (IHl _ (OrExpressionContext _ _ _)) ].
  - intros input. rewrite !traversalAllowedExpr_S.
    rewrite LA1_map, LT1_map, sync_map. apply bind_relabel. intros _.
    destruct (LA1 input) as [[]|]; try reflexivity;
      repeat first
        [ reflexivity
        | rewrite match_map | rewrite attributeExpr_map | rewrite IHe
        | apply bind_relabel; intros [? ?]; cbn [withRest fst snd] ].
Qed.

Lemma start_map (input : list Token) :
  start (map f input) = relabelResult f (relabelStart f) (start input).
Proof.
  unfold start, fuelFor. rewrite length_map.
  rewrite (proj1 (rules_map _)). apply bind_relabel. intros [c rest]. cbn [withRest fst snd].
  rewrite match_EOF_map. apply bind_relabel. reflexivity.
Qed.

End Relabel.

(** The parser looks at the types of the tokens and at nothing else.
    Changing the text and the offsets of the tokens changes the outcome of
    [start] by that relabelling only: the same tree over the new tokens, or
    the syntax error at the new token in the same place.  So two streams
    with the same token types are both accepted with one tree shape or both
    rejected at the same place. *)
Theorem parse_depends_on_token_types_only :
  (forall (f : Token -> Token) (input : list Token),
      (forall t, ttype (f t) = ttype t) ->
      start (map f input) = relabelResult f (relabelStart f) (start input)) /\
  (forall i1 i2 : list Token,
      map ttype i1 = map ttype i2 ->
      relabelResult typeOnly (relabelStart typeOnly) (start i1) =
      relabelResult typeOnly (relabelStart typeOnly) (start i2)).
Proof.
  split.
  - intros f input H. apply start_map; exact H.
  - intros i1 i2 E.
    rewrite <- !(start_map typeOnly) by reflexivity.
    f_equal.
    change typeOnly with (fun t => (fun ty => mkToken ty EmptyString 0) (ttype t)).
    rewrite <- !(map_map ttype (fun ty => mkToken ty EmptyString 0)).
    rewrite E. reflexivity.
Qed.

(** On ["+name:foo+"] and the same types with other texts and offsets. *)
Lemma parse_depends_on_token_types_only_witness :
  start (map typeOnly plus_name_foo_plus) =
    Ok (mkStartContext
          (UpAndDownTraversalExpressionContext
             (mkTraversalContext [mkToken PLUS EmptyString 0])
             (AttributeExpressionContext
                (NameExprContext (mkToken NAME EmptyString 0) (mkToken COLON EmptyString 0)
                   (mkValueContext (mkToken UNQUOTED_STRING EmptyString 0))))
             (mkTraversalContext [mkToken PLUS EmptyString 0]))) /\
  relabelResult typeOnly (relabelStart typeOnly) (start plus_name_foo_plus) =
  relabelResult typeOnly (relabelStart typeOnly)
    (start [token PLUS "+" 0; token NAME "name" 2; token COLON ":" 7;
            token UNQUOTED_STRING "bar" 9; token PLUS "+" 20]).
Proof.
  destruct parse_depends_on_token_types_only as [Hmap Hsame]. split.
  - rewrite (Hmap typeOnly plus_name_foo_plus (fun t => eq_refl)). reflexivity.
  - apply Hsame. reflexivity.
Defined.
